(** * Frame sources of [demos/common/cpp/utils/src/images_capture.cpp]

    A shallow embedding of the four readers ([ImreadWrapper], [DirReader],
    [VideoCapWrapper], [CameraCapWrapper]) and of the resolver
    [openImagesCapture], followed by the properties the specification states
    about them.

    Conventions.
    - [size_t] is a 64-bit unsigned integer: a [Z] with the wrap-around of
      every increment and subtraction written out.
    - [double] is the IEEE binary64 format of [SpecFloat].
    - Everything the file calls in OpenCV, the C library and the C++ standard
      library is a field of the class [Library]; every such call is also
      recorded, in program order, in a trace of [Call]s.  The files behind
      [imread] and [opendir] do not change while a reader is in use: decoding
      a path is a function of the path.
    - A C++ exception is an [Outcome]; a method that mutates its object
      returns the new object next to its outcome.
    - [slog] output and [readerMetrics] (wall-clock latency) are not
      modelled. *)

From Stdlib Require Import ZArith List String Ascii Bool Lia.
From Stdlib Require Import Sorting.Mergesort Sorting.Sorted Sorting.Permutation Orders.
From Stdlib Require Import Floats.SpecFloat.
Import ListNotations.

Local Open Scope Z_scope.

(** ** Machine integers and doubles *)

(** [std::numeric_limits<size_t>::max()] *)
Definition SIZE_MAX : Z := 2 ^ 64 - 1.

Definition size_t_wrap (x : Z) : Z := x mod 2 ^ 64.

(** [++x] on a [size_t] *)
Definition size_incr (x : Z) : Z := size_t_wrap (x + 1).

(** [x - y] on [size_t]s *)
Definition size_sub (x y : Z) : Z := size_t_wrap (x - y).

Definition in_size_t (x : Z) : Prop := 0 <= x <= SIZE_MAX.

Definition double : Type := spec_float.

(** [static_cast<double>(z)] for an integer [z]: round to nearest even. *)
Definition double_of_Z (z : Z) : double := binary_normalize 53 1024 z 0 false.

(** [std::vector::size()], a [size_t]. *)
Definition vec_size {A : Type} (v : list A) : Z := size_t_wrap (Z.of_nat (List.length v)).

(** [v[i]] for an index the caller has checked against [size()]. *)
Definition vec_at (v : list string) (i : Z) : string := nth (Z.to_nat i) v EmptyString.

(** ** Frames *)

(** [cv::Mat]: the header fields the file reads and the pixel buffer, whose
    pointer is null in an empty matrix. *)
Record Mat : Type := mkMat {
  rows : Z;
  cols : Z;
  data : option (list Byte.byte)
}.

(** [cv::Mat{}] *)
Definition Mat_empty : Mat := mkMat 0 0 None.

(** [img.data] used as a condition *)
Definition has_data (m : Mat) : bool :=
  match data m with Some _ => true | None => false end.

(** [img.clone()]: a deep copy has the same contents. *)
Definition clone (m : Mat) : Mat := m.

(** [cv::Size] *)
Record Size : Type := mkSize { width : Z; height : Z }.

(** ** Exceptions, outcomes and the trace of library calls *)

Inductive Exn : Type :=
| InvalidInput (what : string)
| OpenError (what : string)
| runtime_error (what : string).

(** What a [const char*] to the characters of [s] reads as, and what a
    [std::string] built from it holds: the characters before the first NUL
    byte. *)
Fixpoint c_str (s : string) : string :=
  match s with
  | EmptyString => EmptyString
  | String c rest =>
      if Ascii.eqb c Ascii.zero then EmptyString else String c (c_str rest)
  end.

(** [e.what()], a [const char*], as the [std::string] it converts to. *)
Definition e_what (e : Exn) : string :=
  match e with
  | InvalidInput message => c_str message
  | OpenError message => c_str message
  | runtime_error message => c_str message
  end.

Inductive CapProp : Type :=
| CAP_PROP_POS_FRAMES
| CAP_PROP_FPS
| CAP_PROP_BUFFERSIZE
| CAP_PROP_FRAME_WIDTH
| CAP_PROP_FRAME_HEIGHT
| CAP_PROP_AUTOFOCUS
| CAP_PROP_FOURCC.

Inductive Call : Type :=
| call_ifstream (path : string)
| call_imread (path : string)
| call_opendir (path : string)
| call_stoi (s : string)
| call_cap_open (path : string)
| call_cap_open_index (index : Z)
| call_cap_set (prop : CapProp) (value : double)
| call_cap_read.

Inductive StoiResult : Type :=
| stoi_int (i : Z)
| stoi_invalid_argument
| stoi_out_of_range.

(** The collaborators of the file.  [VideoCapture] is the state of a
    [cv::VideoCapture] session; its operations return the new state. *)
Class Library : Type := {
  file_good : string -> bool;
  imread : string -> Mat;
  opendir_entries : string -> option (list string);
  stoi : string -> StoiResult;
  VideoCapture : Type;
  VideoCapture_new : VideoCapture;
  cap_open : string -> VideoCapture -> bool * VideoCapture;
  cap_open_index : Z -> VideoCapture -> bool * VideoCapture;
  cap_set : CapProp -> double -> VideoCapture -> bool * VideoCapture;
  cap_get : CapProp -> VideoCapture -> double;
  cap_read : VideoCapture -> bool * Mat * VideoCapture
}.

Inductive Outcome (A : Type) : Type :=
| Return (a : A)
| Throw (e : Exn)
| OutOfFuel.
Arguments Return {A} a.
Arguments Throw {A} e.
Arguments OutOfFuel {A}.

(** A computation: the library calls it made, then how it ended. *)
Definition M (A : Type) : Type := (list Call * Outcome A)%type.

Definition ret {A : Type} (a : A) : M A := ([], Return a).

Definition throw {A : Type} (e : Exn) : M A := ([], Throw e).

Definition out_of_fuel {A : Type} : M A := ([], OutOfFuel).

Definition call (c : Call) : M unit := ([c], Return tt).

Definition bind {A B : Type} (m : M A) (k : A -> M B) : M B :=
  match m with
  | (tr, Return a) => let (tr', o) := k a in (tr ++ tr', o)
  | (tr, Throw e) => (tr, Throw e)
  | (tr, OutOfFuel) => (tr, OutOfFuel)
  end.

Notation "x <- m ;; k" := (bind m (fun x => k))
  (at level 61, m at next level, right associativity).
Notation "' pat <- m ;; k" := (bind m (fun x => match x with pat => k end))
  (at level 61, pat pattern, m at next level, right associativity).
Notation "m ;;; k" := (bind m (fun _ => k))
  (at level 61, right associativity).

Definition trace_of {A : Type} (m : M A) : list Call := fst m.

Definition outcome_of {A : Type} (m : M A) : Outcome A := snd m.

(** A method body computes the result and the new object; when it does not
    return, the object is left as it was on entry. *)
Definition run_method {S A : Type} (self : S) (m : M (A * S)) : M A * S :=
  match m with
  | (tr, Return (a, self')) => ((tr, Return a), self')
  | (tr, Throw e) => ((tr, Throw e), self)
  | (tr, OutOfFuel) => ((tr, OutOfFuel), self)
  end.

(** ** [ImreadWrapper] *)

Module ImreadWrapper.

Record t : Type := mk {
  loop : bool;
  img : Mat;
  canRead : bool
}.

Definition ctor `{Library} (input : string) (loop : bool) : M t :=
  call (call_ifstream input) ;;;
  if negb (file_good input) then
    throw (InvalidInput ("Can't find the image by " ++ input)%string)
  else
    call (call_imread input) ;;;
    let img := imread input in
    if negb (has_data img) then
      throw (OpenError ("Can't open the image from " ++ input)%string)
    else
      ret (mk loop img true).

Definition fps (self : t) : double := double_of_Z 1.

Definition getType (self : t) : string := "IMAGE"%string.

Definition read (self : t) : M Mat * t :=
  if loop self then (ret (clone (img self)), self)
  else if canRead self then
    (ret (clone (img self)), mk (loop self) (img self) false)
  else (ret Mat_empty, self).

End ImreadWrapper.

(** ** [DirReader] *)

Module StringOrder <: TotalLeBool.
Definition t : Type := string.
Definition leb (a b : string) : bool := String.leb a b.
Definition leb_total : forall a b, leb a b = true \/ leb b a = true :=
  String.leb_total.
End StringOrder.

Module NameSort := Sort StringOrder.

Module DirReader.

Record t : Type := mk {
  loop : bool;
  names : list string;
  fileId : Z;
  nextImgId : Z;
  initialImageId : Z;
  readLengthLimit : Z;
  input : string
}.

Definition set_fileId (v : Z) (self : t) : t :=
  mk (loop self) (names self) v (nextImgId self) (initialImageId self)
     (readLengthLimit self) (input self).

Definition set_nextImgId (v : Z) (self : t) : t :=
  mk (loop self) (names self) (fileId self) v (initialImageId self)
     (readLengthLimit self) (input self).

(** [strcmp(d_name, ".") && strcmp(d_name, "..")] *)
Definition not_dot_entry (d_name : string) : bool :=
  negb (d_name =? ".")%string && negb (d_name =? "..")%string.

(** [input + '/' + names[fileId]] *)
Definition path_of (input : string) (names : list string) (fileId : Z) : string :=
  (input ++ "/" ++ vec_at names fileId)%string.

(** Iterations left in a loop guarded by [fileId < names.size()] whose body
    increments [fileId] once. *)
Definition fuel_for (names : list string) (fileId : Z) : nat :=
  Z.to_nat (vec_size names - fileId).

(** The [while] loop of the constructor; [Some fileId] is its [return],
    [None] its normal exit. *)
Fixpoint ctor_scan `{Library} (fuel : nat) (input : string) (names : list string)
    (initialImageId fileId readImgs : Z) : M (option Z) :=
  if fileId <? vec_size names then
    match fuel with
    | O => out_of_fuel
    | S fuel' =>
        call (call_imread (path_of input names fileId)) ;;;
        let img := imread (path_of input names fileId) in
        if has_data img then
          let readImgs := size_incr readImgs in
          if size_sub readImgs 1 >=? initialImageId then ret (Some fileId)
          else ctor_scan fuel' input names initialImageId (size_incr fileId) readImgs
        else ctor_scan fuel' input names initialImageId (size_incr fileId) readImgs
    end
  else ret None.

Definition ctor `{Library} (input : string) (loop : bool)
    (initialImageId readLengthLimit : Z) : M t :=
  call (call_opendir input) ;;;
  match opendir_entries input with
  | None => throw (InvalidInput ("Can't find the dir by " ++ input)%string)
  | Some entries =>
      let names := filter not_dot_entry entries in
      match names with
      | [] => throw (OpenError ("The dir " ++ input ++ " is empty")%string)
      | _ :: _ =>
          let names := NameSort.sort names in
          found <- ctor_scan (fuel_for names 0) input names initialImageId 0 0 ;;
          match found with
          | Some fileId =>
              ret (mk loop names fileId 0 initialImageId readLengthLimit input)
          | None =>
              throw (OpenError ("Can't read the first image from " ++ input)%string)
          end
      end
  end.

Definition fps (self : t) : double := double_of_Z 1.

Definition getType (self : t) : string := "DIR"%string.

(** The first [while] loop of [read]; [Some img] is its [return]. *)
Fixpoint read_scan `{Library} (fuel : nat) (self : t) : M (option Mat * t) :=
  if (fileId self <? vec_size (names self)) && (nextImgId self <? readLengthLimit self) then
    match fuel with
    | O => out_of_fuel
    | S fuel' =>
        call (call_imread (path_of (input self) (names self) (fileId self))) ;;;
        let img := imread (path_of (input self) (names self) (fileId self)) in
        let self := set_fileId (size_incr (fileId self)) self in
        if has_data img then
          let self := set_nextImgId (size_incr (nextImgId self)) self in
          ret (Some img, self)
        else read_scan fuel' self
    end
  else ret (None, self).

(** The [while] loop of the [if (loop)] block of [read]. *)
Fixpoint restart_scan `{Library} (fuel : nat) (self : t) (readImgs : Z)
    : M (option Mat * t) :=
  if fileId self <? vec_size (names self) then
    match fuel with
    | O => out_of_fuel
    | S fuel' =>
        call (call_imread (path_of (input self) (names self) (fileId self))) ;;;
        let img := imread (path_of (input self) (names self) (fileId self)) in
        let self := set_fileId (size_incr (fileId self)) self in
        if has_data img then
          let readImgs := size_incr readImgs in
          if size_sub readImgs 1 >=? initialImageId self then
            let self := set_nextImgId 1 self in
            ret (Some img, self)
          else restart_scan fuel' self readImgs
        else restart_scan fuel' self readImgs
    end
  else ret (None, self).

Definition read_body `{Library} (self : t) : M (Mat * t) :=
  first <- read_scan (fuel_for (names self) (fileId self)) self ;;
  match first with
  | (Some img, self) => ret (img, self)
  | (None, self) =>
      if loop self then
        let self := set_fileId 0 self in
        again <- restart_scan (fuel_for (names self) (fileId self)) self 0 ;;
        match again with
        | (Some img, self) => ret (img, self)
        | (None, self) => ret (Mat_empty, self)
        end
      else ret (Mat_empty, self)
  end.

Definition read `{Library} (self : t) : M Mat * t :=
  run_method self (read_body self).

End DirReader.

(** ** [VideoCapWrapper] *)

Module VideoCapWrapper.

Record t `{Library} : Type := mk {
  loop : bool;
  cap : VideoCapture;
  nextImgId : Z;
  initialImageId : double;
  readLengthLimit : Z
}.

Definition set_cap `{Library} (v : VideoCapture) (self : t) : t :=
  mk _ (loop self) v (nextImgId self) (initialImageId self) (readLengthLimit self).

Definition set_nextImgId `{Library} (v : Z) (self : t) : t :=
  mk _ (loop self) (cap self) v (initialImageId self) (readLengthLimit self).

Definition ctor `{Library} (input : string) (loop : bool)
    (initialImageId readLengthLimit : Z) : M t :=
  let initialImageId := double_of_Z initialImageId in
  call (call_cap_open input) ;;;
  let (opened, cap) := cap_open input VideoCapture_new in
  if opened then
    call (call_cap_set CAP_PROP_POS_FRAMES initialImageId) ;;;
    let (positioned, cap) := cap_set CAP_PROP_POS_FRAMES initialImageId cap in
    if negb positioned then
      throw (OpenError "Can't set the frame to begin with")
    else
      ret (mk _ loop cap 0 initialImageId readLengthLimit)
  else
    throw (InvalidInput ("Can't open the video from " ++ input)%string).

Definition fps `{Library} (self : t) : double := cap_get CAP_PROP_FPS (cap self).

Definition getType `{Library} (self : t) : string := "VIDEO"%string.

(** [cap.set(cv::CAP_PROP_POS_FRAMES, initialImageId)] on the object *)
Definition seek_start `{Library} (self : t) : M (bool * t) :=
  call (call_cap_set CAP_PROP_POS_FRAMES (initialImageId self)) ;;;
  let (positioned, cap) := cap_set CAP_PROP_POS_FRAMES (initialImageId self) (cap self) in
  ret (positioned, set_cap cap self).

(** [cap.read(img)] on the object *)
Definition grab `{Library} (self : t) : M (bool * Mat * t) :=
  call call_cap_read ;;;
  let '(decoded, img, cap) := cap_read (cap self) in
  ret (decoded, img, set_cap cap self).

Definition read_body `{Library} (self : t) : M (Mat * t) :=
  if nextImgId self >=? readLengthLimit self then
    if loop self then
      '(positioned, self) <- seek_start self ;;
      if positioned then
        let self := set_nextImgId 1 self in
        '(_, img, self) <- grab self ;;
        ret (img, self)
      else ret (Mat_empty, self)
    else ret (Mat_empty, self)
  else
    '(decoded, img, self) <- grab self ;;
    if negb decoded && loop self then
      '(positioned, self) <- seek_start self ;;
      if positioned then
        let self := set_nextImgId 1 self in
        '(_, img, self) <- grab self ;;
        ret (img, self)
      else
        ret (img, set_nextImgId (size_incr (nextImgId self)) self)
    else
      ret (img, set_nextImgId (size_incr (nextImgId self)) self).

Definition read `{Library} (self : t) : M Mat * t :=
  run_method self (read_body self).

End VideoCapWrapper.

(** ** [CameraCapWrapper] *)

(** [cv::VideoWriter::fourcc] *)
Definition fourcc (c1 c2 c3 c4 : ascii) : Z :=
  Z.land (Z.of_N (N_of_ascii c1)) 255
  + Z.shiftl (Z.land (Z.of_N (N_of_ascii c2)) 255) 8
  + Z.shiftl (Z.land (Z.of_N (N_of_ascii c3)) 255) 16
  + Z.shiftl (Z.land (Z.of_N (N_of_ascii c4)) 255) 24.

Module CameraCapWrapper.

Record t `{Library} : Type := mk {
  loop : bool;
  cap : VideoCapture;
  nextImgId : Z;
  initialImageId : double;
  readLengthLimit : Z
}.

Definition set_cap `{Library} (v : VideoCapture) (self : t) : t :=
  mk _ (loop self) v (nextImgId self) (initialImageId self) (readLengthLimit self).

Definition set_nextImgId `{Library} (v : Z) (self : t) : t :=
  mk _ (loop self) (cap self) v (initialImageId self) (readLengthLimit self).

(** [cap.set(prop, value)] with the result discarded *)
Definition configure `{Library} (prop : CapProp) (value : double) (cap : VideoCapture)
    : M VideoCapture :=
  call (call_cap_set prop value) ;;;
  ret (snd (cap_set prop value cap)).

Definition ctor `{Library} (input : string) (loop : bool)
    (initialImageId readLengthLimit : Z) (cameraResolution : Size) : M t :=
  let initialImageId := double_of_Z initialImageId in
  call (call_stoi input) ;;;
  match stoi input with
  | stoi_int index =>
      call (call_cap_open_index index) ;;;
      let (opened, cap) := cap_open_index index VideoCapture_new in
      if opened then
        let readLengthLimit := if loop then SIZE_MAX else readLengthLimit in
        cap <- configure CAP_PROP_BUFFERSIZE (double_of_Z 1) cap ;;
        cap <- configure CAP_PROP_FRAME_WIDTH (double_of_Z (width cameraResolution)) cap ;;
        cap <- configure CAP_PROP_FRAME_HEIGHT (double_of_Z (height cameraResolution)) cap ;;
        cap <- configure CAP_PROP_AUTOFOCUS (double_of_Z 1) cap ;;
        cap <- configure CAP_PROP_FOURCC (double_of_Z (fourcc "M" "J" "P" "G")) cap ;;
        ret (mk _ loop cap 0 initialImageId readLengthLimit)
      else
        throw (OpenError ("Can't open the camera from " ++ input)%string)
  | stoi_invalid_argument =>
      throw (InvalidInput ("Can't find the camera " ++ input)%string)
  | stoi_out_of_range =>
      throw (InvalidInput ("Can't find the camera " ++ input)%string)
  end.

Definition fps `{Library} (self : t) : double :=
  if SFltb (double_of_Z 0) (cap_get CAP_PROP_FPS (cap self))
  then cap_get CAP_PROP_FPS (cap self)
  else double_of_Z 30.

Definition getType `{Library} (self : t) : string := "CAMERA"%string.

(** On the [throw] the session has already been advanced by the failed
    capture; the counter has not. *)
Definition read `{Library} (self : t) : M Mat * t :=
  if nextImgId self >=? readLengthLimit self then
    (ret Mat_empty, self)
  else
    let '(captured, img, cap) := cap_read (cap self) in
    let self := set_cap cap self in
    if negb captured then
      (call call_cap_read ;;;
       throw (runtime_error "The image can't be captured from the camera"),
       self)
    else
      (call call_cap_read ;;; ret img,
       set_nextImgId (size_incr (nextImgId self)) self).

End CameraCapWrapper.

(** ** [ImagesCapture] and [openImagesCapture] *)

(** What a [std::unique_ptr<ImagesCapture>] can point to. *)
Inductive ImagesCapture `{Library} : Type :=
| IsImreadWrapper (r : ImreadWrapper.t)
| IsDirReader (r : DirReader.t)
| IsVideoCapWrapper (r : VideoCapWrapper.t)
| IsCameraCapWrapper (r : CameraCapWrapper.t).

(** Virtual dispatch of [read()] *)
Definition read `{Library} (self : ImagesCapture) : M Mat * ImagesCapture :=
  match self with
  | IsImreadWrapper r =>
      let (m, r) := ImreadWrapper.read r in (m, IsImreadWrapper r)
  | IsDirReader r =>
      let (m, r) := DirReader.read r in (m, IsDirReader r)
  | IsVideoCapWrapper r =>
      let (m, r) := VideoCapWrapper.read r in (m, IsVideoCapWrapper r)
  | IsCameraCapWrapper r =>
      let (m, r) := CameraCapWrapper.read r in (m, IsCameraCapWrapper r)
  end.

(** Virtual dispatch of [fps()] *)
Definition fps `{Library} (self : ImagesCapture) : double :=
  match self with
  | IsImreadWrapper r => ImreadWrapper.fps r
  | IsDirReader r => DirReader.fps r
  | IsVideoCapWrapper r => VideoCapWrapper.fps r
  | IsCameraCapWrapper r => CameraCapWrapper.fps r
  end.

(** Virtual dispatch of [getType()] *)
Definition getType `{Library} (self : ImagesCapture) : string :=
  match self with
  | IsImreadWrapper r => ImreadWrapper.getType r
  | IsDirReader r => DirReader.getType r
  | IsVideoCapWrapper r => VideoCapWrapper.getType r
  | IsCameraCapWrapper r => CameraCapWrapper.getType r
  end.

(** [new X{...}] converted to the base pointer *)
Definition upcast {A B : Type} (f : A -> B) (m : M A) : M B :=
  a <- m ;; ret (f a).

(** The two vectors [invalidInputs] and [openErrors] *)
Definition Diagnostics : Type := (list string * list string)%type.

(** One block
    [try { return new X{...}; }
     catch (const InvalidInput& e) { invalidInputs.push_back(e.what()); }
     catch (const OpenError& e) { openErrors.push_back(e.what()); }]:
    [inl] is the [return], [inr] falls through with the vectors updated; any
    other exception propagates. *)
Definition try_open {R : Type} (make : M R) (errs : Diagnostics) : M (R + Diagnostics) :=
  match make with
  | (tr, Return r) => (tr, Return (inl r))
  | (tr, Throw (InvalidInput what)) =>
      (tr, Return (inr (fst errs ++ [e_what (InvalidInput what)], snd errs)))
  | (tr, Throw (OpenError what)) =>
      (tr, Return (inr (fst errs, snd errs ++ [e_what (OpenError what)])))
  | (tr, Throw e) => (tr, Throw e)
  | (tr, OutOfFuel) => (tr, OutOfFuel)
  end.

Definition newline : string := String (ascii_of_nat 10) EmptyString.

(** [for (message : errorMessages) errorsInfo.append(message + "\n")] *)
Definition errorsInfo_of (errorMessages : list string) : string :=
  fold_left (fun errorsInfo message => (errorsInfo ++ (message ++ newline))%string)
            errorMessages EmptyString.

Definition openImagesCapture `{Library} (input : string) (loop : bool)
    (initialImageId readLengthLimit : Z) (cameraResolution : Size) : M ImagesCapture :=
  if readLengthLimit =? 0 then
    throw (runtime_error "Read length limit must be positive")
  else
    r <- try_open (upcast IsImreadWrapper (ImreadWrapper.ctor input loop)) ([], []) ;;
    match r with
    | inl reader => ret reader
    | inr errs =>
    r <- try_open (upcast IsDirReader
                     (DirReader.ctor input loop initialImageId readLengthLimit)) errs ;;
    match r with
    | inl reader => ret reader
    | inr errs =>
    r <- try_open (upcast IsVideoCapWrapper
                     (VideoCapWrapper.ctor input loop initialImageId readLengthLimit)) errs ;;
    match r with
    | inl reader => ret reader
    | inr errs =>
    r <- try_open (upcast IsCameraCapWrapper
                     (CameraCapWrapper.ctor input loop initialImageId readLengthLimit
                        cameraResolution)) errs ;;
    match r with
    | inl reader => ret reader
    | inr (invalidInputs, openErrors) =>
        let errorMessages :=
          match openErrors with [] => invalidInputs | _ :: _ => openErrors end in
        throw (runtime_error (errorsInfo_of errorMessages))
    end end end end.

(** ** Sequences of [read()] calls *)

(** [n] consecutive calls of a [read] method: the results in call order and
    the object after the last call. *)
Fixpoint reads {S : Type} (read : S -> M Mat * S) (n : nat) (self : S)
    : list (M Mat) * S :=
  match n with
  | O => ([], self)
  | S n' =>
      let (m, self) := read self in
      let (ms, self) := reads read n' self in
      (m :: ms, self)
  end.

(** The object after [n] calls. *)
Definition after_reads {S : Type} (read : S -> M Mat * S) (n : nat) (self : S) : S :=
  snd (reads read n self).

(** The frames the entries of a listing decode to, in listing order,
    undecodable entries left out. *)
Definition decodable `{Library} (input : string) (names : list string) : list Mat :=
  filter has_data (map (fun name => imread (input ++ "/" ++ name)%string) names).

(** The listing a [DirReader] keeps for a directory with these entries. *)
Definition sorted_listing (entries : list string) : list string :=
  NameSort.sort (filter DirReader.not_dot_entry entries).

(** ** The resolution rule in the words of the specification *)

(** The tri-state result of a probe. *)
Inductive ProbeResult (R : Type) : Type :=
| Opened (reader : R)
| NotThisKind (diagnostic : string)
| CouldNotOpen (diagnostic : string).
Arguments Opened {R} reader.
Arguments NotThisKind {R} diagnostic.
Arguments CouldNotOpen {R} diagnostic.

(** A constructor seen as a probe; the diagnostic of a failure is the
    [what()] of its exception. *)
Definition probe {R : Type} (make : M R) : M (ProbeResult R) :=
  match make with
  | (tr, Return r) => (tr, Return (Opened r))
  | (tr, Throw (InvalidInput what)) =>
      (tr, Return (NotThisKind (e_what (InvalidInput what))))
  | (tr, Throw (OpenError what)) =>
      (tr, Return (CouldNotOpen (e_what (OpenError what))))
  | (tr, Throw e) => (tr, Throw e)
  | (tr, OutOfFuel) => (tr, OutOfFuel)
  end.

(** The composite failure: the opening-failure diagnostics if any occurred,
    else the not-this-kind diagnostics. *)
Definition aggregate (notThisKind couldNotOpen : list string) : string :=
  match couldNotOpen with
  | [] => errorsInfo_of notThisKind
  | _ :: _ => errorsInfo_of couldNotOpen
  end.

(** Ordered fallback over a list of probes. *)
Fixpoint resolve_spec {R : Type} (probes : list (M (ProbeResult R)))
    (notThisKind couldNotOpen : list string) : M R :=
  match probes with
  | [] => throw (runtime_error (aggregate notThisKind couldNotOpen))
  | p :: rest =>
      result <- p ;;
      match result with
      | Opened reader => ret reader
      | NotThisKind d => resolve_spec rest (notThisKind ++ [d]) couldNotOpen
      | CouldNotOpen d => resolve_spec rest notThisKind (couldNotOpen ++ [d])
      end
  end.

(** The four probes in the order of the specification. *)
Definition probes_in_order `{Library} (input : string) (loop : bool)
    (initialImageId readLengthLimit : Z) (cameraResolution : Size)
    : list (M (ProbeResult ImagesCapture)) :=
  [ probe (upcast IsImreadWrapper (ImreadWrapper.ctor input loop));
    probe (upcast IsDirReader (DirReader.ctor input loop initialImageId readLengthLimit));
    probe (upcast IsVideoCapWrapper
             (VideoCapWrapper.ctor input loop initialImageId readLengthLimit));
    probe (upcast IsCameraCapWrapper
             (CameraCapWrapper.ctor input loop initialImageId readLengthLimit
                cameraResolution)) ].

Inductive Kind : Type := IMAGE | DIR | VIDEO | CAMERA.

Definition all_kinds : list Kind := [IMAGE; DIR; VIDEO; CAMERA].

Definition kind_of `{Library} (reader : ImagesCapture) : Kind :=
  match reader with
  | IsImreadWrapper _ => IMAGE
  | IsDirReader _ => DIR
  | IsVideoCapWrapper _ => VIDEO
  | IsCameraCapWrapper _ => CAMERA
  end.

(** The library call with which each constructor begins marks its attempt. *)
Definition attempt_of (c : Call) : list Kind :=
  match c with
  | call_ifstream _ => [IMAGE]
  | call_opendir _ => [DIR]
  | call_cap_open _ => [VIDEO]
  | call_stoi _ => [CAMERA]
  | _ => []
  end.

(** The constructors a trace shows to have been attempted, in order. *)
Definition attempts (tr : list Call) : list Kind := flat_map attempt_of tr.

(** The diagnostics of each class among the outcomes of failed probes: the
    [what()] of the exceptions. *)
Definition invalid_diagnostic {R : Type} (o : Outcome R) : list string :=
  match o with Throw (InvalidInput what) => [e_what (InvalidInput what)] | _ => [] end.

Definition open_diagnostic {R : Type} (o : Outcome R) : list string :=
  match o with Throw (OpenError what) => [e_what (OpenError what)] | _ => [] end.

Definition failed {R : Type} (o : Outcome R) : Prop :=
  (exists what, o = Throw (InvalidInput what)) \/ (exists what, o = Throw (OpenError what)).

(** ** A simulated library

    A small, executable instance of [Library]: files and directories are
    association lists, a capture session is a list of frames with a cursor.
    It is what the properties below are run on. *)

Module Sim.

(** A session delivers [frames] from [position] on; an [endless] one (a live
    device) delivers its first frame for ever.  A session that is not
    [seekable] honours a request for its current position only. *)
Record Session : Type := mkSession {
  frames : list Mat;
  position : nat;
  seekable : bool;
  endless : bool
}.

Record World : Type := mkWorld {
  files : list (string * Mat);
  directories : list (string * list string);
  videos : list (string * Session);
  cameras : list (Z * Session)
}.

Fixpoint lookup {A : Type} (key : string) (l : list (string * A)) : option A :=
  match l with
  | [] => None
  | (k, v) :: rest => if (k =? key)%string then Some v else lookup key rest
  end.

Fixpoint lookupZ {A : Type} (key : Z) (l : list (Z * A)) : option A :=
  match l with
  | [] => None
  | (k, v) :: rest => if k =? key then Some v else lookupZ key rest
  end.

Definition closed : Session := mkSession [] 0 false false.

Definition sim_file_good (w : World) (path : string) : bool :=
  match lookup path (files w), lookup path (directories w) with
  | None, None => false
  | _, _ => true
  end.

Definition sim_imread (w : World) (path : string) : Mat :=
  match lookup path (files w) with
  | Some m => m
  | None => Mat_empty
  end.

Definition is_digit (c : ascii) : bool :=
  let n := Z.of_N (N_of_ascii c) in (48 <=? n) && (n <=? 57).

Fixpoint leading_digits (s : string) (acc : option Z) : option Z :=
  match s with
  | String c rest =>
      if is_digit c then
        leading_digits rest
          (Some (10 * match acc with Some a => a | None => 0 end
                 + (Z.of_N (N_of_ascii c) - 48)))
      else acc
  | EmptyString => acc
  end.

Definition sim_stoi (s : string) : StoiResult :=
  match leading_digits s None with
  | None => stoi_invalid_argument
  | Some v => if v <=? 2147483647 then stoi_int v else stoi_out_of_range
  end.

(** The non-negative integer a double stands for (0 for the others). *)
Definition Z_of_double (d : double) : Z :=
  match d with
  | S754_finite false m e => Z.shiftl (Z.pos m) e
  | _ => 0
  end.

Definition sim_cap_open (w : World) (path : string) (_ : Session) : bool * Session :=
  match lookup path (videos w) with
  | Some s => (true, s)
  | None => (false, closed)
  end.

Definition sim_cap_open_index (w : World) (index : Z) (_ : Session) : bool * Session :=
  match lookupZ index (cameras w) with
  | Some s => (true, s)
  | None => (false, closed)
  end.

Definition sim_cap_set (prop : CapProp) (value : double) (s : Session) : bool * Session :=
  match prop with
  | CAP_PROP_POS_FRAMES =>
      let target := Z.to_nat (Z_of_double value) in
      if seekable s || (target =? position s)%nat then
        (true, mkSession (frames s) target (seekable s) (endless s))
      else (false, s)
  | _ => (true, s)
  end.

Definition sim_cap_get (prop : CapProp) (s : Session) : double :=
  match prop with
  | CAP_PROP_FPS => double_of_Z 25
  | CAP_PROP_POS_FRAMES => double_of_Z (Z.of_nat (position s))
  | _ => double_of_Z 0
  end.

Definition sim_cap_read (s : Session) : bool * Mat * Session :=
  if endless s then
    match frames s with
    | f :: _ => (true, f, s)
    | [] => (false, Mat_empty, s)
    end
  else
    match nth_error (frames s) (position s) with
    | Some f => (true, f, mkSession (frames s) (S (position s)) (seekable s) (endless s))
    | None => (false, Mat_empty, s)
    end.

Definition library (w : World) : Library := {|
  file_good := sim_file_good w;
  imread := sim_imread w;
  opendir_entries := fun path => lookup path (directories w);
  stoi := sim_stoi;
  VideoCapture := Session;
  VideoCapture_new := closed;
  cap_open := sim_cap_open w;
  cap_open_index := sim_cap_open_index w;
  cap_set := sim_cap_set;
  cap_get := sim_cap_get;
  cap_read := sim_cap_read
|}.

Definition frame (b : Byte.byte) : Mat := mkMat 1 1 (Some [b]).

Definition frameA : Mat := frame Byte.x0a.
Definition frameB : Mat := frame Byte.x0b.
Definition frameC : Mat := frame Byte.x0c.

(** One image file, a directory of three images and a text file, an empty
    directory, a seekable three-frame clip, a one-frame stream that cannot
    seek back, a live camera 0 and a camera 1 that stops after one frame. *)
Definition demo : World := {|
  files := [ ("img.png", frameA);
             ("photos/a.png", frameA);
             ("photos/b.png", frameB);
             ("photos/c.png", frameC);
             ("photos/notes.txt", Mat_empty);
             ("clip.avi", Mat_empty) ]%string;
  directories := [ ("photos", [".."; "c.png"; "notes.txt"; "."; "a.png"; "b.png"]);
                   ("empty", ["."; ".."]) ]%string;
  videos := [ ("clip.avi", mkSession [frameA; frameB; frameC] 0 true false);
              ("stream", mkSession [frameA] 0 false false) ]%string;
  cameras := [ (0, mkSession [frameA] 0 false true);
               (1, mkSession [frameB] 0 false false) ]
|}.

Definition demo_library : Library := library demo.

Definition resolution : Size := mkSize 1280 720.

(** The same devices behind a driver that reports [rate] as their frame
    rate; drivers that do not know the rate report 0 or a NaN. *)
Definition sim_cap_get_rated (rate : double) (prop : CapProp) (s : Session) : double :=
  match prop with
  | CAP_PROP_FPS => rate
  | _ => sim_cap_get prop s
  end.

Definition rated_library (rate : double) : Library := {|
  file_good := sim_file_good demo;
  imread := sim_imread demo;
  opendir_entries := fun path => lookup path (directories demo);
  stoi := sim_stoi;
  VideoCapture := Session;
  VideoCapture_new := closed;
  cap_open := sim_cap_open demo;
  cap_open_index := sim_cap_open_index demo;
  cap_set := sim_cap_set;
  cap_get := sim_cap_get_rated rate;
  cap_read := sim_cap_read
|}.

End Sim.

(** ** Vocabulary of the properties *)

(** The frames a [DirReader] has still in front of its cursor. *)
Definition remaining `{Library} (self : DirReader.t) : list Mat :=
  decodable (DirReader.input self)
    (skipn (Z.to_nat (DirReader.fileId self)) (DirReader.names self)).

(** The fields of a [DirReader] are [size_t]s, its listing fits a vector and
    its cursor is not beyond the listing. *)
Definition well_formed (self : DirReader.t) : Prop :=
  Z.of_nat (List.length (DirReader.names self)) <= SIZE_MAX
  /\ 0 <= DirReader.fileId self <= Z.of_nat (List.length (DirReader.names self))
  /\ in_size_t (DirReader.nextImgId self)
  /\ in_size_t (DirReader.initialImageId self)
  /\ in_size_t (DirReader.readLengthLimit self).

(** The frames a [DirReader] will still deliver in the current pass: those
    in front of the cursor, cut at what is left of the limit. *)
Definition pending `{Library} (self : DirReader.t) : list Mat :=
  firstn (Z.to_nat (DirReader.readLengthLimit self - DirReader.nextImgId self))
         (remaining self).

(** A finite sequence of frames followed by empty frames, [n] in all. *)
Definition then_empty (n : nat) (l : list Mat) : list Mat :=
  firstn n (l ++ repeat Mat_empty n).

(** Two states of one [DirReader]: everything but the cursor and the
    counter is fixed at construction. *)
Definition same_reader (self self' : DirReader.t) : Prop :=
  DirReader.loop self' = DirReader.loop self
  /\ DirReader.names self' = DirReader.names self
  /\ DirReader.initialImageId self' = DirReader.initialImageId self
  /\ DirReader.readLengthLimit self' = DirReader.readLengthLimit self
  /\ DirReader.input self' = DirReader.input self.

(** The frames of a pass of a [DirReader]: the decodable entries of its
    listing from the one of index [initialImageId] on. *)
Definition pass_frames `{Library} (self : DirReader.t) : list Mat :=
  skipn (Z.to_nat (DirReader.initialImageId self))
        (decodable (DirReader.input self) (DirReader.names self)).

(** A constructor behaves as a probe of kind [k]: it begins with the call
    that marks [k], and it returns or fails in one of the two classes. *)
Definition probe_shape {R : Type} (k : Kind) (m : M R) : Prop :=
  attempts (trace_of m) = [k]
  /\ ((exists r, outcome_of m = Return r) \/ failed (outcome_of m)).

(** What a looping [DirReader] hands out in [n] calls when [pending] frames
    are left of the current pass and [pass] is a whole pass. *)
Fixpoint cycle_frames (pass pending : list Mat) (n : nat) : list Mat :=
  match n with
  | O => []
  | S n' =>
      match pending with
      | img :: rest => img :: cycle_frames pass rest n'
      | [] => hd Mat_empty pass :: cycle_frames pass (tl pass) n'
      end
  end.

(** [m] consecutive [cap.read(img)] on a session, each as the result of a
    [read()] that passes the frame on: the results and the session left. *)
Fixpoint decode_run `{Library} (m : nat) (cap : VideoCapture)
    : list (M Mat) * VideoCapture :=
  match m with
  | O => ([], cap)
  | S m' =>
      let '(_, img, cap) := cap_read cap in
      let (ms, cap) := decode_run m' cap in
      (([call_cap_read], Return img) :: ms, cap)
  end.

(** A result of [read()] that hands out a frame obtained from the library. *)
Definition is_delivery (m : M Mat) : bool :=
  match m with
  | (_ :: _, Return _) => true
  | _ => false
  end.

Definition deliveries (ms : list (M Mat)) : nat :=
  List.length (filter is_delivery ms).

(** A trace in which a camera device is opened. *)
Definition is_camera_open (c : Call) : bool :=
  match c with
  | call_cap_open_index _ => true
  | _ => false
  end.

Definition opens_camera (tr : list Call) : bool := existsb is_camera_open tr.

(** A call that decodes an entry of the listing of a [DirReader]. *)
Definition decodes_listed (self : DirReader.t) (c : Call) : Prop :=
  exists name : string,
    In name (DirReader.names self)
    /\ c = call_imread (DirReader.input self ++ "/" ++ name)%string.

(** * Properties *)

(** ** Arithmetic on [size_t] *)

Lemma size_t_wrap_small (x : Z) : in_size_t x -> size_t_wrap x = x.
Proof.
  unfold in_size_t, SIZE_MAX, size_t_wrap. intros Hx.
  apply Z.mod_small. lia.
Qed.

Lemma size_t_wrap_range (x : Z) : in_size_t (size_t_wrap x).
Proof.
  unfold in_size_t, SIZE_MAX, size_t_wrap.
  pose proof (Z.mod_pos_bound x (2 ^ 64) ltac:(lia)). lia.
Qed.

Lemma size_incr_below (x bound : Z) :
  0 <= x -> x < bound -> bound <= SIZE_MAX -> size_incr x = x + 1.
Proof.
  intros H0 Hlt Hb. unfold size_incr. apply size_t_wrap_small.
  unfold in_size_t. lia.
Qed.

(** Below a [size_t] bound an increment moves forward, whatever the integer
    it starts from. *)
Lemma size_incr_progress (x bound : Z) :
  x < bound -> bound <= SIZE_MAX -> x + 1 <= size_incr x.
Proof.
  intros Hlt Hb. destruct (Z_lt_le_dec x 0) as [Hneg | Hpos].
  - pose proof (size_t_wrap_range (x + 1)) as Hr.
    unfold size_incr, in_size_t in *. lia.
  - rewrite (size_incr_below x bound); lia.
Qed.

Lemma size_sub_one_incr (x : Z) :
  0 <= x < SIZE_MAX -> size_sub (size_incr x) 1 = x.
Proof.
  intros Hx. rewrite (size_incr_below x SIZE_MAX) by lia.
  unfold size_sub. replace (x + 1 - 1) with x by lia.
  apply size_t_wrap_small. unfold in_size_t. lia.
Qed.

Lemma vec_size_range {A : Type} (v : list A) : in_size_t (vec_size v).
Proof. apply size_t_wrap_range. Qed.

Lemma vec_size_fits {A : Type} (v : list A) :
  Z.of_nat (List.length v) <= SIZE_MAX -> vec_size v = Z.of_nat (List.length v).
Proof.
  intros Hv. apply size_t_wrap_small. unfold in_size_t. lia.
Qed.

(** ** Computations *)

Lemma attempts_app (tr1 tr2 : list Call) :
  attempts (tr1 ++ tr2) = attempts tr1 ++ attempts tr2.
Proof. apply flat_map_app. Qed.

Lemma bind_call {A : Type} (c : Call) (k : M A) :
  (call c ;;; k) = (c :: fst k, snd k).
Proof. destruct k as [tr o]. reflexivity. Qed.

Lemma upcast_outcome {A B : Type} (f : A -> B) (m : M A) :
  outcome_of (upcast f m)
  = match outcome_of m with
    | Return a => Return (f a)
    | Throw e => Throw e
    | OutOfFuel => OutOfFuel
    end.
Proof. destruct m as [tr [a | e |]]; reflexivity. Qed.

Lemma upcast_trace {A B : Type} (f : A -> B) (m : M A) :
  trace_of (upcast f m) = trace_of m.
Proof.
  destruct m as [tr [a | e |]]; simpl; try reflexivity.
  apply app_nil_r.
Qed.

Lemma errorsInfo_of_from (acc : string) (messages : list string) :
  fold_left (fun errorsInfo message => (errorsInfo ++ (message ++ newline))%string)
            messages acc
  = (acc ++ String.concat EmptyString (map (fun m => (m ++ newline)%string) messages))%string.
Proof.
  revert acc. induction messages as [| m rest IH]; intros acc; simpl.
  - clear. induction acc as [| c acc IHacc]; simpl; congruence.
  - rewrite IH. destruct rest as [| m' rest'].
    + simpl.
      assert (Hnil : forall s : string, (s ++ "")%string = s)
        by (intros s; induction s; simpl; congruence).
      now rewrite !Hnil.
    + cbn [map String.concat].
      cbn [String.append]. 
      assert (Hassoc : forall a b c : string, ((a ++ b) ++ c)%string = (a ++ (b ++ c))%string)
        by (intros a b c; induction a; simpl; congruence).
      now rewrite !Hassoc.
Qed.

(** The aggregate message is the concatenation of the diagnostics, each
    closed by a line feed. *)
Lemma errorsInfo_of_concat (messages : list string) :
  errorsInfo_of messages
  = String.concat EmptyString (map (fun m => (m ++ newline)%string) messages).
Proof. unfold errorsInfo_of. now rewrite errorsInfo_of_from. Qed.

(** ** Invariants along a sequence of [read()] calls *)

Lemma after_reads_S {S : Type} (read : S -> M Mat * S) (n : nat) (self : S) :
  after_reads read (Datatypes.S n) self = after_reads read n (snd (read self)).
Proof.
  unfold after_reads. cbn [reads].
  destruct (read self) as [m self1]. cbn [snd].
  destruct (reads read n self1) as [ms self2]. reflexivity.
Qed.

Lemma after_reads_invariant {S : Type} (read : S -> M Mat * S) (P : S -> Prop) :
  (forall self, P self -> P (snd (read self))) ->
  forall (n : nat) (self : S), P self -> P (after_reads read n self).
Proof.
  intros Hstep n. induction n as [| n IH]; intros self Hself.
  - exact Hself.
  - rewrite after_reads_S. apply IH, Hstep, Hself.
Qed.

(** ** The constructors as probes *)

Lemma ImreadWrapper_ctor_shape `{Library} (input : string) (loop : bool) :
  probe_shape IMAGE (ImreadWrapper.ctor input loop).
Proof.
  unfold probe_shape, failed, ImreadWrapper.ctor.
  destruct (file_good input); simpl.
  - destruct (has_data (imread input)); simpl; eauto 6.
  - eauto 6.
Qed.

Lemma ctor_scan_shape `{Library} (fuel : nat) (input : string) (names : list string)
    (initialImageId fileId readImgs : Z) :
  (Z.to_nat (vec_size names - fileId) <= fuel)%nat ->
  attempts (trace_of (DirReader.ctor_scan fuel input names initialImageId fileId readImgs)) = []
  /\ exists found,
       outcome_of (DirReader.ctor_scan fuel input names initialImageId fileId readImgs)
       = Return found.
Proof.
  revert fileId readImgs.
  induction fuel as [| fuel IH]; intros fileId readImgs Hfuel;
    cbn [DirReader.ctor_scan];
    destruct (fileId <? vec_size names) eqn:Hlt;
    try (simpl; eauto; fail).
  - apply Z.ltb_lt in Hlt. lia.
  - apply Z.ltb_lt in Hlt.
    pose proof (vec_size_range names) as Hsz. unfold in_size_t in Hsz.
    pose proof (size_incr_progress fileId (vec_size names) Hlt ltac:(lia)) as Hstep.
    rewrite bind_call. unfold trace_of, outcome_of in *. cbn [fst snd].
    assert (Hnext : forall readImgs',
      attempts (fst (DirReader.ctor_scan fuel input names initialImageId
                       (size_incr fileId) readImgs')) = []
      /\ exists found,
           snd (DirReader.ctor_scan fuel input names initialImageId
                  (size_incr fileId) readImgs') = Return found)
      by (intros readImgs'; apply IH; lia).
    cbv zeta.
    destruct (has_data _).
    + destruct (size_sub (size_incr readImgs) 1 >=? initialImageId).
      * simpl; eauto.
      * apply (Hnext (size_incr readImgs)).
    + apply (Hnext readImgs).
Qed.

Lemma DirReader_ctor_shape `{Library} (input : string) (loop : bool)
    (initialImageId readLengthLimit : Z) :
  probe_shape DIR (DirReader.ctor input loop initialImageId readLengthLimit).
Proof.
  unfold probe_shape, failed, DirReader.ctor. rewrite bind_call.
  destruct (opendir_entries input) as [entries |]; simpl; [| eauto 6].
  destruct (filter DirReader.not_dot_entry entries) as [| n rest] eqn:Hnames; simpl; [eauto 6 |].
  set (names := NameSort.sort (n :: rest)).
  destruct (ctor_scan_shape (DirReader.fuel_for names 0) input names initialImageId 0 0
              ltac:(unfold DirReader.fuel_for; lia)) as [Htr [found Hout]].
  destruct (DirReader.ctor_scan _ _ _ _ _ _) as [tr o]. simpl in Htr, Hout. subst o.
  destruct found as [fileId |]; simpl; rewrite attempts_app, Htr; simpl; eauto 6.
Qed.

Lemma VideoCapWrapper_ctor_shape `{Library} (input : string) (loop : bool)
    (initialImageId readLengthLimit : Z) :
  probe_shape VIDEO (VideoCapWrapper.ctor input loop initialImageId readLengthLimit).
Proof.
  unfold probe_shape, failed, VideoCapWrapper.ctor. rewrite bind_call.
  destruct (cap_open input VideoCapture_new) as [[|] cap]; simpl; [| eauto 6].
  destruct (cap_set _ _ cap) as [[|] cap']; simpl; eauto 6.
Qed.

Lemma CameraCapWrapper_ctor_shape `{Library} (input : string) (loop : bool)
    (initialImageId readLengthLimit : Z) (cameraResolution : Size) :
  probe_shape CAMERA
    (CameraCapWrapper.ctor input loop initialImageId readLengthLimit cameraResolution).
Proof.
  unfold probe_shape, failed, CameraCapWrapper.ctor. rewrite bind_call.
  destruct (stoi input) as [index | |]; simpl; [| eauto 6 | eauto 6].
  destruct (cap_open_index index VideoCapture_new) as [[|] cap]; simpl; eauto 6.
Qed.

Lemma upcast_shape {A B : Type} (k : Kind) (f : A -> B) (m : M A) :
  probe_shape k m -> probe_shape k (upcast f m).
Proof.
  unfold probe_shape, failed. rewrite upcast_trace, upcast_outcome.
  intros [Htr [[r Hr] | [[w Hw] | [w Hw]]]]; rewrite ?Hr, ?Hw; eauto 6.
Qed.

(** ** The resolver *)

(** C1. For every input and every configuration whose [readLengthLimit] is 0,
    [openImagesCapture] throws the configuration error "Read length limit
    must be positive" having made no library call at all: no reader
    constructor is attempted. *)
Theorem openImagesCapture_zero_limit `{Library} (input : string) (loop : bool)
    (initialImageId : Z) (cameraResolution : Size) :
  openImagesCapture input loop initialImageId 0 cameraResolution
  = ([], Throw (runtime_error "Read length limit must be positive"))
  /\ attempts (trace_of (openImagesCapture input loop initialImageId 0 cameraResolution)) = [].
Proof. split; reflexivity. Qed.

(** The chain of four [try] blocks is the ordered fallback over the four
    probes, whatever the constructors do. *)
Lemma fallback_chain {R : Type} (m1 m2 m3 m4 : M R) :
  (r <- try_open m1 ([], []) ;;
   match r with
   | inl reader => ret reader
   | inr errs =>
   r <- try_open m2 errs ;;
   match r with
   | inl reader => ret reader
   | inr errs =>
   r <- try_open m3 errs ;;
   match r with
   | inl reader => ret reader
   | inr errs =>
   r <- try_open m4 errs ;;
   match r with
   | inl reader => ret reader
   | inr (invalidInputs, openErrors) =>
       let errorMessages :=
         match openErrors with [] => invalidInputs | _ :: _ => openErrors end in
       throw (runtime_error (errorsInfo_of errorMessages))
   end end end end)
  = resolve_spec [probe m1; probe m2; probe m3; probe m4] [] [].
Proof.
  destruct m1 as [tr1 [r1 | [w1 | w1 | w1] |]]; try reflexivity;
  destruct m2 as [tr2 [r2 | [w2 | w2 | w2] |]]; try reflexivity;
  destruct m3 as [tr3 [r3 | [w3 | w3 | w3] |]]; try reflexivity;
  destruct m4 as [tr4 [r4 | [w4 | w4 | w4] |]]; reflexivity.
Qed.

Lemma openImagesCapture_unfold `{Library} (input : string) (loop : bool)
    (initialImageId readLengthLimit : Z) (cameraResolution : Size) :
  readLengthLimit <> 0 ->
  openImagesCapture input loop initialImageId readLengthLimit cameraResolution
  = resolve_spec
      (probes_in_order input loop initialImageId readLengthLimit cameraResolution) [] [].
Proof.
  intros Hlimit. unfold openImagesCapture, probes_in_order.
  destruct (readLengthLimit =? 0) eqn:Hz; [apply Z.eqb_eq in Hz; contradiction |].
  apply fallback_chain.
Qed.

(** What the ordered fallback does with four computations of probe shape. *)
Lemma resolve_spec_attempts `{Library} (m1 m2 m3 m4 : M ImagesCapture) :
  probe_shape IMAGE m1 -> probe_shape DIR m2 ->
  probe_shape VIDEO m3 -> probe_shape CAMERA m4 ->
  (forall r, outcome_of m1 = Return r -> kind_of r = IMAGE) ->
  (forall r, outcome_of m2 = Return r -> kind_of r = DIR) ->
  (forall r, outcome_of m3 = Return r -> kind_of r = VIDEO) ->
  (forall r, outcome_of m4 = Return r -> kind_of r = CAMERA) ->
  let run := resolve_spec [probe m1; probe m2; probe m3; probe m4] [] [] in
  exists j : nat,
    (1 <= j <= 4)%nat
    /\ attempts (trace_of run) = firstn j all_kinds
    /\ match outcome_of run with
       | Return reader => nth_error all_kinds (j - 1) = Some (kind_of reader)
       | Throw _ => j = 4%nat
       | OutOfFuel => False
       end.
Proof.
  unfold probe_shape, failed, trace_of, outcome_of.
  intros [Ht1 H1] [Ht2 H2] [Ht3 H3] [Ht4 H4] K1 K2 K3 K4.
  destruct m1 as [tr1 o1], m2 as [tr2 o2], m3 as [tr3 o3], m4 as [tr4 o4].
  cbn [fst snd] in *.
  destruct H1 as [[r1 ->] | [[w1 ->] | [w1 ->]]].
  1: { exists 1%nat. simpl. rewrite app_nil_r, Ht1, (K1 r1 eq_refl). auto with arith. }
  all: destruct H2 as [[r2 ->] | [[w2 ->] | [w2 ->]]].
  1, 4: exists 2%nat; simpl; rewrite app_nil_r, attempts_app, Ht1, Ht2, (K2 r2 eq_refl);
        auto with arith.
  all: destruct H3 as [[r3 ->] | [[w3 ->] | [w3 ->]]].
  1, 4, 7, 10:
    exists 3%nat; simpl;
    rewrite app_nil_r, !attempts_app, Ht1, Ht2, Ht3, (K3 r3 eq_refl); auto with arith.
  all: destruct H4 as [[r4 ->] | [[w4 ->] | [w4 ->]]].
  all: exists 4%nat; simpl;
       rewrite ?app_nil_r, !attempts_app, Ht1, Ht2, Ht3, Ht4, ?(K4 r4 eq_refl);
       auto with arith.
Qed.

Lemma upcast_kind `{Library} {A : Type} (f : A -> ImagesCapture) (k : Kind) (m : M A) :
  (forall a, kind_of (f a) = k) ->
  forall r, outcome_of (upcast f m) = Return r -> kind_of r = k.
Proof.
  intros Hk r. rewrite upcast_outcome.
  destruct (outcome_of m); intros Hr; inversion Hr; subst; apply Hk.
Qed.

Lemma probe_returns {R : Type} (k : Kind) (m : M R) :
  probe_shape k m -> exists result, outcome_of (probe m) = Return result.
Proof.
  unfold probe_shape, failed, outcome_of. destruct m as [tr o]. cbn [snd].
  intros [_ [[r ->] | [[w ->] | [w ->]]]]; simpl; eauto.
Qed.

(** C2. With a positive [readLengthLimit], [openImagesCapture] is the ordered
    fallback over the four constructors taken as probes in the order
    still-image, directory, video, camera: it returns the first reader whose
    construction succeeds; every constructor failure is one of the two
    classes, "not this kind" or "could not be opened", recorded on its own
    list before the next kind is tried; and the constructors the trace shows
    as attempted are an initial segment of that order, ending with the kind
    of the reader returned, or all four when none opens. *)
Theorem openImagesCapture_ordered_fallback `{Library} (input : string) (loop : bool)
    (initialImageId readLengthLimit : Z) (cameraResolution : Size) :
  readLengthLimit <> 0 ->
  let run := openImagesCapture input loop initialImageId readLengthLimit cameraResolution in
  let probes := probes_in_order input loop initialImageId readLengthLimit cameraResolution in
  run = resolve_spec probes [] []
  /\ Forall (fun p => exists result, outcome_of p = Return result) probes
  /\ exists j : nat,
       (1 <= j <= 4)%nat
       /\ attempts (trace_of run) = firstn j all_kinds
       /\ match outcome_of run with
          | Return reader => nth_error all_kinds (j - 1) = Some (kind_of reader)
          | Throw _ => j = 4%nat
          | OutOfFuel => False
          end.
Proof.
  intros Hlimit run probes. subst run probes.
  pose proof (upcast_shape IMAGE IsImreadWrapper _ (ImreadWrapper_ctor_shape input loop)) as S1.
  pose proof (upcast_shape DIR IsDirReader _
                (DirReader_ctor_shape input loop initialImageId readLengthLimit)) as S2.
  pose proof (upcast_shape VIDEO IsVideoCapWrapper _
                (VideoCapWrapper_ctor_shape input loop initialImageId readLengthLimit)) as S3.
  pose proof (upcast_shape CAMERA IsCameraCapWrapper _
                (CameraCapWrapper_ctor_shape input loop initialImageId readLengthLimit
                   cameraResolution)) as S4.
  rewrite openImagesCapture_unfold by assumption.
  split; [reflexivity |]. split.
  - unfold probes_in_order. repeat constructor; eapply probe_returns; eassumption.
  - unfold probes_in_order.
    apply resolve_spec_attempts; try assumption;
      apply upcast_kind; reflexivity.
Qed.

Lemma openImagesCapture_ordered_fallback_witness :
  let run := @openImagesCapture Sim.demo_library "photos" false 1 5 Sim.resolution in
  5 <> 0
  /\ attempts (trace_of run) = [IMAGE; DIR]
  /\ run = resolve_spec (@probes_in_order Sim.demo_library "photos" false 1 5 Sim.resolution) [] [].
Proof.
  split; [lia |]. split; [reflexivity |].
  apply (@openImagesCapture_ordered_fallback Sim.demo_library "photos" false 1 5
           Sim.resolution).
  lia.
Defined.

(** The text of each "not this kind" diagnostic. *)
Lemma ImreadWrapper_ctor_invalid `{Library} (input : string) (loop : bool) (what : string) :
  outcome_of (ImreadWrapper.ctor input loop) = Throw (InvalidInput what) ->
  what = ("Can't find the image by " ++ input)%string.
Proof.
  unfold ImreadWrapper.ctor, outcome_of.
  destruct (file_good input); simpl.
  - destruct (has_data (imread input)); simpl; intros Hw; inversion Hw.
  - intros Hw. now inversion Hw.
Qed.

Lemma DirReader_ctor_invalid `{Library} (input : string) (loop : bool)
    (initialImageId readLengthLimit : Z) (what : string) :
  outcome_of (DirReader.ctor input loop initialImageId readLengthLimit)
  = Throw (InvalidInput what) ->
  what = ("Can't find the dir by " ++ input)%string.
Proof.
  unfold DirReader.ctor, outcome_of. rewrite bind_call. cbn [snd].
  destruct (opendir_entries input) as [entries |]; simpl;
    [| intros Hw; now inversion Hw].
  destruct (filter DirReader.not_dot_entry entries) as [| n rest]; simpl;
    [intros Hw; inversion Hw |].
  set (names := NameSort.sort (n :: rest)).
  destruct (ctor_scan_shape (DirReader.fuel_for names 0) input names initialImageId 0 0
              ltac:(unfold DirReader.fuel_for; lia)) as [_ [found Hout]].
  unfold outcome_of in Hout.
  destruct (DirReader.ctor_scan _ _ _ _ _ _) as [tr o]. cbn [snd] in Hout. subst o.
  destruct found as [fileId |]; simpl; intros Hw; inversion Hw.
Qed.

Lemma VideoCapWrapper_ctor_invalid `{Library} (input : string) (loop : bool)
    (initialImageId readLengthLimit : Z) (what : string) :
  outcome_of (VideoCapWrapper.ctor input loop initialImageId readLengthLimit)
  = Throw (InvalidInput what) ->
  what = ("Can't open the video from " ++ input)%string.
Proof.
  unfold VideoCapWrapper.ctor, outcome_of. rewrite bind_call. cbn [snd].
  destruct (cap_open input VideoCapture_new) as [[|] cap]; simpl;
    [| intros Hw; now inversion Hw].
  destruct (cap_set _ _ cap) as [[|] cap']; simpl; intros Hw; inversion Hw.
Qed.

Lemma CameraCapWrapper_ctor_invalid `{Library} (input : string) (loop : bool)
    (initialImageId readLengthLimit : Z) (cameraResolution : Size) (what : string) :
  outcome_of (CameraCapWrapper.ctor input loop initialImageId readLengthLimit
                cameraResolution)
  = Throw (InvalidInput what) ->
  what = ("Can't find the camera " ++ input)%string.
Proof.
  unfold CameraCapWrapper.ctor, outcome_of. rewrite bind_call. cbn [snd].
  destruct (stoi input) as [index | |]; simpl;
    [| intros Hw; now inversion Hw | intros Hw; now inversion Hw].
  destruct (cap_open_index index VideoCapture_new) as [[|] cap]; simpl;
    intros Hw; inversion Hw.
Qed.

(** The chain of four [try] blocks when every constructor fails. *)
Lemma fallback_chain_all_fail {R : Type} (m1 m2 m3 m4 : M R) :
  failed (outcome_of m1) -> failed (outcome_of m2) ->
  failed (outcome_of m3) -> failed (outcome_of m4) ->
  let invalidInputs :=
    invalid_diagnostic (outcome_of m1) ++ invalid_diagnostic (outcome_of m2)
    ++ invalid_diagnostic (outcome_of m3) ++ invalid_diagnostic (outcome_of m4) in
  let openErrors :=
    open_diagnostic (outcome_of m1) ++ open_diagnostic (outcome_of m2)
    ++ open_diagnostic (outcome_of m3) ++ open_diagnostic (outcome_of m4) in
  resolve_spec [probe m1; probe m2; probe m3; probe m4] [] []
  = (trace_of m1 ++ trace_of m2 ++ trace_of m3 ++ trace_of m4,
     Throw (runtime_error
              (errorsInfo_of
                 match openErrors with [] => invalidInputs | _ :: _ => openErrors end))).
Proof.
  unfold failed, outcome_of, trace_of.
  destruct m1 as [tr1 o1], m2 as [tr2 o2], m3 as [tr3 o3], m4 as [tr4 o4].
  cbn [fst snd].
  intros [[w1 ->] | [w1 ->]] [[w2 ->] | [w2 ->]] [[w3 ->] | [w3 ->]] [[w4 ->] | [w4 ->]];
    simpl; now rewrite ?app_nil_r.
Qed.

Lemma upcast_failed {A B : Type} (f : A -> B) (m : M A) :
  failed (outcome_of m) ->
  failed (outcome_of (upcast f m))
  /\ invalid_diagnostic (outcome_of (upcast f m)) = invalid_diagnostic (outcome_of m)
  /\ open_diagnostic (outcome_of (upcast f m)) = open_diagnostic (outcome_of m).
Proof.
  unfold failed. rewrite upcast_outcome.
  intros [[w ->] | [w ->]]; simpl; eauto 6.
Qed.

Lemma c_str_whole (s : string) :
  ~ In Ascii.zero (list_ascii_of_string s) -> c_str s = s.
Proof.
  induction s as [| c rest IH]; intros Hnul; [reflexivity |].
  cbn [c_str list_ascii_of_string In] in *.
  destruct (Ascii.eqb c Ascii.zero) eqn:Hc.
  - apply Ascii.eqb_eq in Hc. exfalso. apply Hnul. left. now symmetry.
  - rewrite IH; [reflexivity | intros Hin; apply Hnul; now right].
Qed.

(** C3. When all four constructions fail, [openImagesCapture] throws one
    [runtime_error] whose message is the concatenation (each diagnostic
    closed by a line feed) of the [OpenError] diagnostics if there is at
    least one, and otherwise of the [InvalidInput] diagnostics, a diagnostic
    being the [what()] of the exception caught; when no constructor reported
    [OpenError], that is when the input matches no kind at all, the message
    holds the four "not this kind" diagnostics, one for each kind probed, in
    probe order: each names the input as [what()] shows it, whole when it
    holds no NUL byte and cut at the first one otherwise. *)
Theorem openImagesCapture_all_fail `{Library} (input : string) (loop : bool)
    (initialImageId readLengthLimit : Z) (cameraResolution : Size) :
  readLengthLimit <> 0 ->
  let o1 := outcome_of (ImreadWrapper.ctor input loop) in
  let o2 := outcome_of (DirReader.ctor input loop initialImageId readLengthLimit) in
  let o3 := outcome_of (VideoCapWrapper.ctor input loop initialImageId readLengthLimit) in
  let o4 := outcome_of (CameraCapWrapper.ctor input loop initialImageId readLengthLimit
                          cameraResolution) in
  failed o1 -> failed o2 -> failed o3 -> failed o4 ->
  let invalidInputs :=
    invalid_diagnostic o1 ++ invalid_diagnostic o2
    ++ invalid_diagnostic o3 ++ invalid_diagnostic o4 in
  let openErrors :=
    open_diagnostic o1 ++ open_diagnostic o2 ++ open_diagnostic o3 ++ open_diagnostic o4 in
  let diagnostics := match openErrors with [] => invalidInputs | _ :: _ => openErrors end in
  outcome_of (openImagesCapture input loop initialImageId readLengthLimit cameraResolution)
  = Throw (runtime_error
             (String.concat EmptyString
                (map (fun m => (m ++ newline)%string) diagnostics)))
  /\ (openErrors = [] ->
      diagnostics = [ ("Can't find the image by " ++ c_str input)%string;
                      ("Can't find the dir by " ++ c_str input)%string;
                      ("Can't open the video from " ++ c_str input)%string;
                      ("Can't find the camera " ++ c_str input)%string ])
  /\ (openErrors = [] ->
      ~ In Ascii.zero (list_ascii_of_string input) ->
      diagnostics = [ ("Can't find the image by " ++ input)%string;
                      ("Can't find the dir by " ++ input)%string;
                      ("Can't open the video from " ++ input)%string;
                      ("Can't find the camera " ++ input)%string ]).
Proof.
  intros Hlimit o1 o2 o3 o4 F1 F2 F3 F4 invalidInputs openErrors diagnostics.
  assert (Hcut : openErrors = [] ->
      diagnostics = [ ("Can't find the image by " ++ c_str input)%string;
                      ("Can't find the dir by " ++ c_str input)%string;
                      ("Can't open the video from " ++ c_str input)%string;
                      ("Can't find the camera " ++ c_str input)%string ]).
  { subst diagnostics openErrors invalidInputs.
    pose proof (ImreadWrapper_ctor_invalid input loop) as W1.
    pose proof (DirReader_ctor_invalid input loop initialImageId readLengthLimit) as W2.
    pose proof (VideoCapWrapper_ctor_invalid input loop initialImageId readLengthLimit) as W3.
    pose proof (CameraCapWrapper_ctor_invalid input loop initialImageId readLengthLimit
                  cameraResolution) as W4.
    fold o1 in W1. fold o2 in W2. fold o3 in W3. fold o4 in W4.
    unfold failed in F1, F2, F3, F4.
    destruct F1 as [[w1 E1] | [w1 E1]]; rewrite E1 in *;
    destruct F2 as [[w2 E2] | [w2 E2]]; rewrite E2 in *;
    destruct F3 as [[w3 E3] | [w3 E3]]; rewrite E3 in *;
    destruct F4 as [[w4 E4] | [w4 E4]]; rewrite E4 in *;
    cbn [invalid_diagnostic open_diagnostic app e_what];
    intros Hnone; try discriminate Hnone.
    rewrite (W1 w1 eq_refl), (W2 w2 eq_refl), (W3 w3 eq_refl), (W4 w4 eq_refl).
    reflexivity. }
  split; [| split; [exact Hcut |]].
  - rewrite openImagesCapture_unfold by assumption. unfold probes_in_order.
    destruct (upcast_failed IsImreadWrapper _ F1) as [G1 [I1 O1]].
    destruct (upcast_failed IsDirReader _ F2) as [G2 [I2 O2]].
    destruct (upcast_failed IsVideoCapWrapper _ F3) as [G3 [I3 O3]].
    destruct (upcast_failed IsCameraCapWrapper _ F4) as [G4 [I4 O4]].
    rewrite (fallback_chain_all_fail _ _ _ _ G1 G2 G3 G4).
    unfold outcome_of at 1. cbn [snd].
    rewrite I1, I2, I3, I4, O1, O2, O3, O4.
    now rewrite errorsInfo_of_concat.
  - intros Hnone Hwhole. rewrite (Hcut Hnone), (c_str_whole input Hwhole). reflexivity.
Qed.

Lemma openImagesCapture_all_fail_witness :
  5 <> 0
  /\ outcome_of (@openImagesCapture Sim.demo_library "nothing" true 1 5 Sim.resolution)
     = Throw (runtime_error
                (String.concat EmptyString
                   (map (fun m => (m ++ newline)%string)
                      [ "Can't find the image by nothing";
                        "Can't find the dir by nothing";
                        "Can't open the video from nothing";
                        "Can't find the camera nothing" ]%string)))
  /\ outcome_of (@openImagesCapture Sim.demo_library
                   (String "a" (String Ascii.zero "b")) true 1 5 Sim.resolution)
     = Throw (runtime_error
                (String.concat EmptyString
                   (map (fun m => (m ++ newline)%string)
                      [ "Can't find the image by a";
                        "Can't find the dir by a";
                        "Can't open the video from a";
                        "Can't find the camera a" ]%string))).
Proof.
  split; [lia |]. split.
  - apply (@openImagesCapture_all_fail Sim.demo_library "nothing" true 1 5 Sim.resolution).
    + lia.
    + left. eexists. reflexivity.
    + left. eexists. reflexivity.
    + left. eexists. reflexivity.
    + left. eexists. reflexivity.
  - apply (@openImagesCapture_all_fail Sim.demo_library
             (String "a" (String Ascii.zero "b")) true 1 5 Sim.resolution).
    + lia.
    + left. eexists. reflexivity.
    + left. eexists. reflexivity.
    + left. eexists. reflexivity.
    + left. eexists. reflexivity.
Defined.

(** ** [ImreadWrapper] *)

(** Once the image has been handed out, a non-looping reader stays empty. *)
Lemma ImreadWrapper_spent (image : Mat) (n : nat) :
  reads ImreadWrapper.read n (ImreadWrapper.mk false image false)
  = (repeat (ret Mat_empty) n, ImreadWrapper.mk false image false).
Proof.
  induction n as [| n IH]; [reflexivity |].
  cbn [reads]. unfold ImreadWrapper.read at 1.
  cbn [ImreadWrapper.loop ImreadWrapper.canRead]. now rewrite IH.
Qed.

(** C4. A [SingleImageReader] constructed with [loop = false] returns on its
    first [read()] a copy of the decoded image, which is not empty, and on
    every later call, however many, the empty frame. *)
Theorem ImreadWrapper_read_once `{Library} (input : string) (r : ImreadWrapper.t) :
  outcome_of (ImreadWrapper.ctor input false) = Return r ->
  fst (ImreadWrapper.read r) = ret (clone (imread input))
  /\ has_data (clone (imread input)) = true
  /\ forall n : nat,
       fst (reads ImreadWrapper.read n (snd (ImreadWrapper.read r)))
       = repeat (ret Mat_empty) n.
Proof.
  unfold ImreadWrapper.ctor, outcome_of. rewrite bind_call. cbn [snd].
  destruct (file_good input); simpl; [| discriminate].
  destruct (has_data (imread input)) eqn:Hdata; simpl; [| discriminate].
  intros Hr. inversion Hr; subst r; clear Hr.
  assert (Hfirst : ImreadWrapper.read (ImreadWrapper.mk false (imread input) true)
                   = (ret (clone (imread input)),
                      ImreadWrapper.mk false (imread input) false))
    by reflexivity.
  rewrite Hfirst. cbn [fst snd].
  repeat split; [exact Hdata |].
  intros n. now rewrite ImreadWrapper_spent.
Qed.

Lemma ImreadWrapper_read_once_witness :
  outcome_of (@ImreadWrapper.ctor Sim.demo_library "img.png" false)
  = Return (ImreadWrapper.mk false Sim.frameA true)
  /\ fst (ImreadWrapper.read (ImreadWrapper.mk false Sim.frameA true)) = ret Sim.frameA
  /\ fst (reads ImreadWrapper.read 3
            (snd (ImreadWrapper.read (ImreadWrapper.mk false Sim.frameA true))))
     = [ret Mat_empty; ret Mat_empty; ret Mat_empty].
Proof.
  split; [reflexivity |].
  pose proof (@ImreadWrapper_read_once Sim.demo_library "img.png"
                (ImreadWrapper.mk false Sim.frameA true) eq_refl) as [Hfirst [_ Hrest]].
  split; [exact Hfirst | exact (Hrest 3%nat)].
Defined.

(** ** [DirReader]: the loops, one entry at a time *)

Lemma skipn_nth_cons {A : Type} (d : A) (l : list A) (i : nat) :
  (i < List.length l)%nat -> skipn i l = nth i l d :: skipn (S i) l.
Proof.
  revert i. induction l as [| a l IH]; intros [| i] Hi; simpl in *; try lia.
  - reflexivity.
  - apply IH. lia.
Qed.

Lemma decodable_step `{Library} (input : string) (names : list string) (f : Z) :
  0 <= f < Z.of_nat (List.length names) ->
  decodable input (skipn (Z.to_nat f) names)
  = (if has_data (imread (DirReader.path_of input names f))
     then [imread (DirReader.path_of input names f)] else [])
    ++ decodable input (skipn (Z.to_nat (f + 1)) names).
Proof.
  intros Hf. unfold decodable, DirReader.path_of, vec_at.
  rewrite (skipn_nth_cons EmptyString names (Z.to_nat f)) by lia.
  replace (Z.to_nat (f + 1)) with (S (Z.to_nat f)) by lia.
  cbn [map filter].
  destruct (has_data _); reflexivity.
Qed.

Lemma decodable_end `{Library} (input : string) (names : list string) (f : Z) :
  Z.of_nat (List.length names) <= f ->
  decodable input (skipn (Z.to_nat f) names) = [].
Proof.
  intros Hf. rewrite skipn_all2 by lia. reflexivity.
Qed.

(** The first loop of [read]: below the limit it delivers the next frame in
    front of the cursor, or runs to the end of the listing when there is
    none; at the limit it does nothing. *)
Lemma read_scan_spec `{Library} (fuel : nat) (lp : bool) (names : list string)
    (f n k L : Z) (input : string) :
  Z.of_nat (List.length names) <= SIZE_MAX ->
  0 <= f <= Z.of_nat (List.length names) ->
  in_size_t n -> in_size_t L ->
  (Z.to_nat (Z.of_nat (List.length names) - f) <= fuel)%nat ->
  let self := DirReader.mk lp names f n k L input in
  exists (tr : list Call) (f' : Z),
    f <= f' <= Z.of_nat (List.length names)
    /\ attempts tr = []
    /\ if n <? L then
         match remaining self with
         | img :: rest =>
             DirReader.read_scan fuel self
             = (tr, Return (Some img, DirReader.mk lp names f' (n + 1) k L input))
             /\ has_data img = true
             /\ decodable input (skipn (Z.to_nat f') names) = rest
         | [] =>
             DirReader.read_scan fuel self
             = (tr, Return (None, DirReader.mk lp names f' n k L input))
             /\ f' = Z.of_nat (List.length names)
         end
       else
         DirReader.read_scan fuel self = (tr, Return (None, self)) /\ f' = f.
Proof.
  intros Hlen Hf Hn HL. revert f Hf.
  unfold remaining. cbn [DirReader.input DirReader.fileId DirReader.names].
  induction fuel as [| fuel IH]; intros f Hf Hfuel;
    cbn [DirReader.read_scan DirReader.fileId DirReader.names DirReader.nextImgId
         DirReader.readLengthLimit DirReader.input];
    rewrite (vec_size_fits names Hlen);
    destruct (n <? L) eqn:HnL;
    try (rewrite andb_false_r; exists [], f; repeat split; auto; lia).
  - (* no fuel: the cursor is at the end *)
    assert (f = Z.of_nat (List.length names)) by lia. subst f.
    rewrite Z.ltb_irrefl. cbn [andb]. rewrite decodable_end by lia.
    exists [], (Z.of_nat (List.length names)). repeat split; auto; lia.
  - destruct (f <? Z.of_nat (List.length names)) eqn:Hlt; cbn [andb].
    + apply Z.ltb_lt in Hlt. apply Z.ltb_lt in HnL.
      unfold in_size_t in *.
      rewrite bind_call. cbv zeta.
      unfold DirReader.set_fileId, DirReader.set_nextImgId.
      cbn [DirReader.fileId DirReader.names DirReader.nextImgId DirReader.loop
           DirReader.readLengthLimit DirReader.input DirReader.initialImageId].
      rewrite (size_incr_below f (Z.of_nat (List.length names))) by lia.
      rewrite (decodable_step input names f) by lia.
      destruct (has_data (imread (DirReader.path_of input names f))) eqn:Hdata.
      * rewrite (size_incr_below n L) by lia.
        exists [call_imread (DirReader.path_of input names f)], (f + 1).
        cbn [app]. repeat split; auto; lia.
      * destruct (IH (f + 1) ltac:(lia) ltac:(lia)) as [tr [f' [Hf' [Htr Hspec]]]].
        cbn [app].
        exists (call_imread (DirReader.path_of input names f) :: tr), f'.
        split; [lia |]. split; [exact Htr |].
        destruct (decodable input (skipn (Z.to_nat (f + 1)) names)) as [| img rest].
        -- destruct Hspec as [-> ->]. auto.
        -- destruct Hspec as [-> [Himg Hrest]]. auto.
    + apply Z.ltb_ge in Hlt. rewrite decodable_end by lia.
      exists [], f. repeat split; auto; lia.
Qed.

Lemma skipn_decodable_cons {A : Type} (a : A) (l : list A) (k c : Z) :
  0 <= c < k -> skipn (Z.to_nat (k - c)) (a :: l) = skipn (Z.to_nat (k - (c + 1))) l.
Proof.
  intros Hc. replace (Z.to_nat (k - c)) with (S (Z.to_nat (k - (c + 1)))) by lia.
  reflexivity.
Qed.

(** The loop of the [if (loop)] block: from a cursor [f] with [c] frames
    already skipped, it delivers the frame [k - c] places further on among
    those in front of the cursor, or runs to the end of the listing. *)
Lemma restart_scan_spec `{Library} (fuel : nat) (lp : bool) (names : list string)
    (n k L : Z) (input : string) (f c : Z) :
  Z.of_nat (List.length names) <= SIZE_MAX ->
  0 <= f <= Z.of_nat (List.length names) ->
  in_size_t k -> 0 <= c <= k -> c <= f ->
  (Z.to_nat (Z.of_nat (List.length names) - f) <= fuel)%nat ->
  let self := DirReader.mk lp names f n k L input in
  exists (tr : list Call) (f' : Z),
    f <= f' <= Z.of_nat (List.length names)
    /\ attempts tr = []
    /\ match skipn (Z.to_nat (k - c)) (remaining self) with
       | img :: rest =>
           DirReader.restart_scan fuel self c
           = (tr, Return (Some img, DirReader.mk lp names f' 1 k L input))
           /\ has_data img = true
           /\ decodable input (skipn (Z.to_nat f') names) = rest
       | [] =>
           DirReader.restart_scan fuel self c
           = (tr, Return (None, DirReader.mk lp names f' n k L input))
           /\ f' = Z.of_nat (List.length names)
       end.
Proof.
  intros Hlen Hf Hk Hc Hcf Hfuel. revert f c Hf Hc Hcf Hfuel.
  unfold remaining. cbn [DirReader.input DirReader.fileId DirReader.names].
  unfold in_size_t in Hk.
  induction fuel as [| fuel IH]; intros f c Hf Hc Hcf Hfuel;
    cbn [DirReader.restart_scan DirReader.fileId DirReader.names DirReader.nextImgId
         DirReader.readLengthLimit DirReader.input DirReader.initialImageId];
    rewrite (vec_size_fits names Hlen).
  - assert (f = Z.of_nat (List.length names)) by lia. subst f.
    rewrite Z.ltb_irrefl, decodable_end by lia. rewrite skipn_nil.
    exists [], (Z.of_nat (List.length names)). repeat split; auto; lia.
  - destruct (f <? Z.of_nat (List.length names)) eqn:Hlt.
    + apply Z.ltb_lt in Hlt.
      rewrite bind_call. cbv zeta.
      unfold DirReader.set_fileId, DirReader.set_nextImgId.
      cbn [DirReader.fileId DirReader.names DirReader.nextImgId DirReader.loop
           DirReader.readLengthLimit DirReader.input DirReader.initialImageId].
      rewrite (size_incr_below f (Z.of_nat (List.length names))) by lia.
      rewrite (decodable_step input names f) by lia.
      destruct (has_data (imread (DirReader.path_of input names f))) eqn:Hdata; cbn [app].
      * rewrite size_sub_one_incr by lia.
        destruct (c >=? k) eqn:Hck.
        -- apply Z.geb_le in Hck. assert (c = k) by lia. subst c.
           rewrite Z.sub_diag. cbn [Z.to_nat skipn].
           exists [call_imread (DirReader.path_of input names f)], (f + 1).
           repeat split; auto; lia.
        -- assert (Hlt' : c < k) by (rewrite Z.geb_leb in Hck; apply Z.leb_gt in Hck; lia).
           rewrite skipn_decodable_cons by lia.
           rewrite (size_incr_below c k) by lia.
           destruct (IH (f + 1) (c + 1) ltac:(lia) ltac:(lia) ltac:(lia) ltac:(lia))
             as [tr [f' [Hf' [Htr Hspec]]]].
           exists (call_imread (DirReader.path_of input names f) :: tr), f'.
           split; [lia |]. split; [exact Htr |].
           destruct (skipn _ _) as [| img rest].
           ++ destruct Hspec as [-> ->]. auto.
           ++ destruct Hspec as [-> [Himg Hrest]]. auto.
      * destruct (IH (f + 1) c ltac:(lia) ltac:(lia) ltac:(lia) ltac:(lia))
          as [tr [f' [Hf' [Htr Hspec]]]].
        exists (call_imread (DirReader.path_of input names f) :: tr), f'.
        split; [lia |]. split; [exact Htr |].
        destruct (skipn _ _) as [| img rest].
        -- destruct Hspec as [-> ->]. auto.
        -- destruct Hspec as [-> [Himg Hrest]]. auto.
    + apply Z.ltb_ge in Hlt. rewrite decodable_end by lia. rewrite skipn_nil.
      exists [], f. repeat split; auto; lia.
Qed.

(** The loop of the constructor: it stops with the cursor on the frame
    [k - c] places further on, or runs off the listing. *)
Lemma ctor_scan_spec `{Library} (fuel : nat) (input : string) (names : list string)
    (k f c : Z) :
  Z.of_nat (List.length names) <= SIZE_MAX ->
  0 <= f <= Z.of_nat (List.length names) ->
  in_size_t k -> 0 <= c <= k -> c <= f ->
  (Z.to_nat (Z.of_nat (List.length names) - f) <= fuel)%nat ->
  exists tr : list Call,
    match skipn (Z.to_nat (k - c)) (decodable input (skipn (Z.to_nat f) names)) with
    | img :: rest =>
        exists f' : Z,
          f <= f' < Z.of_nat (List.length names)
          /\ DirReader.ctor_scan fuel input names k f c = (tr, Return (Some f'))
          /\ decodable input (skipn (Z.to_nat f') names) = img :: rest
    | [] => DirReader.ctor_scan fuel input names k f c = (tr, Return None)
    end.
Proof.
  intros Hlen Hf Hk Hc Hcf Hfuel. revert f c Hf Hc Hcf Hfuel.
  unfold in_size_t in Hk.
  induction fuel as [| fuel IH]; intros f c Hf Hc Hcf Hfuel;
    cbn [DirReader.ctor_scan]; rewrite (vec_size_fits names Hlen).
  - assert (f = Z.of_nat (List.length names)) by lia. subst f.
    rewrite Z.ltb_irrefl, decodable_end by lia. rewrite skipn_nil.
    exists []. reflexivity.
  - destruct (f <? Z.of_nat (List.length names)) eqn:Hlt.
    + apply Z.ltb_lt in Hlt.
      rewrite bind_call. cbv zeta.
      rewrite (size_incr_below f (Z.of_nat (List.length names))) by lia.
      rewrite (decodable_step input names f) by lia.
      destruct (has_data (imread (DirReader.path_of input names f))) eqn:Hdata; cbn [app].
      * rewrite size_sub_one_incr by lia.
        destruct (c >=? k) eqn:Hck.
        -- apply Z.geb_le in Hck. assert (c = k) by lia. subst c.
           rewrite Z.sub_diag. cbn [Z.to_nat skipn].
           exists [call_imread (DirReader.path_of input names f)], f.
           split; [lia |]. split; [reflexivity |].
           rewrite (decodable_step input names f) by lia. now rewrite Hdata.
        -- assert (Hlt' : c < k) by (rewrite Z.geb_leb in Hck; apply Z.leb_gt in Hck; lia).
           rewrite skipn_decodable_cons by lia.
           rewrite (size_incr_below c k) by lia.
           destruct (IH (f + 1) (c + 1) ltac:(lia) ltac:(lia) ltac:(lia) ltac:(lia))
             as [tr Hspec].
           exists (call_imread (DirReader.path_of input names f) :: tr).
           destruct (skipn _ _) as [| img rest].
           ++ now rewrite Hspec.
           ++ destruct Hspec as [f' [Hf' [-> Hrest]]]. exists f'.
              split; [lia |]. auto.
      * destruct (IH (f + 1) c ltac:(lia) ltac:(lia) ltac:(lia) ltac:(lia))
          as [tr Hspec].
        exists (call_imread (DirReader.path_of input names f) :: tr).
        destruct (skipn _ _) as [| img rest].
        -- now rewrite Hspec.
        -- destruct Hspec as [f' [Hf' [-> Hrest]]]. exists f'.
           split; [lia |]. auto.
    + apply Z.ltb_ge in Hlt. rewrite decodable_end by lia. rewrite skipn_nil.
      exists []. reflexivity.
Qed.

(** ** [DirReader]: one [read()] *)

(** Without looping, a [read()] hands out the head of the pending frames, or
    the empty frame when nothing is pending. *)
Lemma DirReader_read_nonloop `{Library} (self : DirReader.t) :
  well_formed self -> DirReader.loop self = false ->
  exists (tr : list Call) (self' : DirReader.t),
    DirReader.read self = ((tr, Return (hd Mat_empty (pending self))), self')
    /\ attempts tr = []
    /\ well_formed self' /\ DirReader.loop self' = false
    /\ same_reader self self'
    /\ pending self' = tl (pending self)
    /\ DirReader.readLengthLimit self' = DirReader.readLengthLimit self
    /\ DirReader.nextImgId self <= DirReader.nextImgId self'
    /\ (DirReader.nextImgId self' <= DirReader.readLengthLimit self
        \/ DirReader.nextImgId self' = DirReader.nextImgId self).
Proof.
  destruct self as [lp names f n k L input].
  unfold well_formed, same_reader, pending, remaining, DirReader.read, DirReader.read_body.
  cbn [DirReader.names DirReader.fileId DirReader.nextImgId DirReader.initialImageId
       DirReader.readLengthLimit DirReader.input DirReader.loop].
  intros (Hlen & Hf & Hn & Hk & HL) ->.
  unfold DirReader.fuel_for. rewrite (vec_size_fits names Hlen).
  destruct (read_scan_spec (Z.to_nat (Z.of_nat (List.length names) - f))
              false names f n k L input Hlen Hf Hn HL (Nat.le_refl _))
    as [tr [f' [Hf' [Htr Hspec]]]].
  unfold remaining in Hspec.
  cbn [DirReader.names DirReader.fileId DirReader.input] in Hspec.
  unfold in_size_t in *.
  destruct (n <? L) eqn:HnL.
  - apply Z.ltb_lt in HnL.
    replace (Z.to_nat (L - n)) with (S (Z.to_nat (L - (n + 1)))) by lia.
    destruct (decodable input (skipn (Z.to_nat f) names)) as [| img rest].
    + destruct Hspec as [-> ->]. cbn [bind run_method DirReader.loop ret].
      rewrite app_nil_r.
      eexists tr, _. split; [reflexivity |].
      cbn [DirReader.names DirReader.fileId DirReader.nextImgId DirReader.initialImageId
           DirReader.readLengthLimit DirReader.input DirReader.loop firstn hd tl].
      rewrite decodable_end by lia. rewrite firstn_nil.
      repeat split; auto; lia.
    + destruct Hspec as [-> [Himg Hrest]]. cbn [bind run_method DirReader.loop ret].
      rewrite app_nil_r.
      eexists tr, _. split; [reflexivity |].
      cbn [DirReader.names DirReader.fileId DirReader.nextImgId DirReader.initialImageId
           DirReader.readLengthLimit DirReader.input DirReader.loop firstn hd tl].
      rewrite Hrest.
      repeat split; auto; lia.
  - apply Z.ltb_ge in HnL. destruct Hspec as [-> ->].
    cbn [bind run_method DirReader.loop ret]. rewrite app_nil_r.
    replace (Z.to_nat (L - n)) with 0%nat by lia. cbn [firstn hd tl].
    eexists tr, _. split; [reflexivity |].
    cbn [DirReader.names DirReader.fileId DirReader.nextImgId DirReader.initialImageId
         DirReader.readLengthLimit DirReader.input DirReader.loop].
    replace (Z.to_nat (L - n)) with 0%nat by lia. cbn [firstn hd tl].
    repeat split; auto; lia.
Qed.

Lemma then_empty_cons (n : nat) (img : Mat) (l : list Mat) :
  then_empty (S n) (img :: l) = img :: then_empty n l.
Proof.
  unfold then_empty. cbn [app firstn]. f_equal.
  rewrite !firstn_app. f_equal.
  replace (repeat Mat_empty (S n)) with (repeat Mat_empty n ++ [Mat_empty])
    by (rewrite <- repeat_cons; reflexivity).
  rewrite firstn_app, repeat_length.
  replace (n - List.length l - n)%nat with 0%nat by lia.
  cbn [firstn]. now rewrite app_nil_r.
Qed.

Lemma then_empty_nil (n : nat) : then_empty n [] = repeat Mat_empty n.
Proof.
  unfold then_empty. cbn [app]. rewrite <- (repeat_length Mat_empty n) at 1.
  apply firstn_all.
Qed.

(** Without looping, [n] calls hand out the pending frames in order and
    then empty frames. *)
Lemma DirReader_reads_nonloop `{Library} (n : nat) (self : DirReader.t) :
  well_formed self -> DirReader.loop self = false ->
  map outcome_of (fst (reads DirReader.read n self))
  = map Return (then_empty n (pending self)).
Proof.
  revert self. induction n as [| n IH]; intros self Hwf Hloop; [reflexivity |].
  destruct (DirReader_read_nonloop self Hwf Hloop)
    as (tr & self' & Hread & _ & Hwf' & Hloop' & _ & Hpending & _).
  cbn [reads]. rewrite Hread.
  specialize (IH self' Hwf' Hloop'). rewrite Hpending in IH.
  destruct (reads DirReader.read n self') as [ms self''].
  cbn [fst map outcome_of snd] in *. rewrite IH.
  destruct (pending self) as [| img rest]; cbn [hd tl].
  - rewrite !then_empty_nil. reflexivity.
  - rewrite then_empty_cons. reflexivity.
Qed.

(** ** [DirReader]: construction and the non-looping pass *)

Lemma sorted_listing_length (entries : list string) :
  (List.length (sorted_listing entries) <= List.length entries)%nat.
Proof.
  unfold sorted_listing.
  rewrite <- (Permutation_length (NameSort.Permuted_sort _)).
  apply filter_length_le.
Qed.

Lemma decodable_has_data `{Library} (input : string) (names : list string) :
  Forall (fun img => has_data img = true) (decodable input names).
Proof.
  unfold decodable. apply Forall_forall. intros img Hin.
  now apply filter_In in Hin.
Qed.

Lemma Forall_firstn_skipn {A : Type} (P : A -> Prop) (a b : nat) (l : list A) :
  Forall P l -> Forall P (firstn a (skipn b l)).
Proof.
  intros Hl. apply Forall_forall. intros x Hin.
  rewrite Forall_forall in Hl. apply Hl.
  rewrite <- (firstn_skipn b l). apply in_or_app. right.
  rewrite <- (firstn_skipn a (skipn b l)). apply in_or_app. now left.
Qed.

(** A successful construction leaves the cursor on the frame of index
    [initialImageId] among the decodable entries of the sorted listing. *)
Lemma DirReader_ctor_spec `{Library} (input : string) (lp : bool) (k L : Z)
    (entries : list string) (r : DirReader.t) :
  in_size_t k -> in_size_t L ->
  opendir_entries input = Some entries ->
  Z.of_nat (List.length entries) <= SIZE_MAX ->
  outcome_of (DirReader.ctor input lp k L) = Return r ->
  well_formed r
  /\ DirReader.loop r = lp
  /\ DirReader.names r = sorted_listing entries
  /\ DirReader.input r = input
  /\ DirReader.nextImgId r = 0
  /\ DirReader.initialImageId r = k
  /\ DirReader.readLengthLimit r = L
  /\ remaining r = skipn (Z.to_nat k) (decodable input (sorted_listing entries))
  /\ remaining r <> [].
Proof.
  intros Hk HL Hopen Hfits.
  pose proof (sorted_listing_length entries) as Hlen.
  unfold DirReader.ctor, outcome_of, sorted_listing in *.
  rewrite bind_call, Hopen. cbn [snd].
  destruct (filter DirReader.not_dot_entry entries) as [| e rest]; [discriminate |].
  set (names := NameSort.sort (e :: rest)) in *.
  assert (Hnames : Z.of_nat (List.length names) <= SIZE_MAX) by lia.
  unfold DirReader.fuel_for. rewrite (vec_size_fits names Hnames).
  destruct (ctor_scan_spec (Z.to_nat (Z.of_nat (List.length names) - 0)) input names k 0 0
              Hnames ltac:(lia) Hk ltac:(unfold in_size_t in Hk; lia) ltac:(lia)
              (Nat.le_refl _)) as [tr Hspec].
  rewrite Z.sub_0_r in Hspec. cbn [Z.to_nat skipn] in Hspec.
  destruct (skipn (Z.to_nat k) (decodable input names)) as [| img more] eqn:Hskip.
  - rewrite Hspec. cbn. discriminate.
  - destruct Hspec as [f' [Hf' [-> Hrem]]]. cbn [bind ret throw snd fst app].
    intros Hr. inversion Hr; subst r; clear Hr.
    unfold well_formed, remaining, in_size_t in *.
    cbn [DirReader.names DirReader.fileId DirReader.nextImgId DirReader.initialImageId
         DirReader.readLengthLimit DirReader.input DirReader.loop].
    rewrite Hrem.
    repeat split; auto; try lia; try discriminate.
Qed.

Lemma firstn_min_length {A : Type} (a : Z) (l : list A) :
  0 <= a ->
  firstn (Z.to_nat a) l = firstn (Z.to_nat (Z.min a (Z.of_nat (List.length l)))) l.
Proof.
  intros Ha. destruct (Z_le_gt_dec a (Z.of_nat (List.length l))) as [Hle | Hgt].
  - now rewrite Z.min_l.
  - rewrite Z.min_r by lia. rewrite Nat2Z.id.
    rewrite firstn_all. apply firstn_all2. lia.
Qed.

(** C5. A [DirectoryReader] constructed with [loop = false] over a directory
    whose sorted listing holds [N] decodable images, with
    [initialImageId = k] and [readLengthLimit = L], exists only if [N > k];
    its [read()] calls return exactly [min(L, N - k)] frames, none of them
    empty: the decodable images in lexicographically sorted filename order
    from the one of index [k] on; every later call returns the empty
    frame. *)
Theorem DirReader_nonloop_sequence `{Library} (input : string) (k L : Z)
    (entries : list string) (r : DirReader.t) :
  in_size_t k -> in_size_t L ->
  opendir_entries input = Some entries ->
  Z.of_nat (List.length entries) <= SIZE_MAX ->
  outcome_of (DirReader.ctor input false k L) = Return r ->
  let listing := sorted_listing entries in
  let images := decodable input listing in
  let N := Z.of_nat (List.length images) in
  let delivered := firstn (Z.to_nat (Z.min L (N - k))) (skipn (Z.to_nat k) images) in
  k < N
  /\ Sorted (fun a b => String.leb a b = true) listing
  /\ Permutation (filter DirReader.not_dot_entry entries) listing
  /\ Z.of_nat (List.length delivered) = Z.min L (N - k)
  /\ Forall (fun img => has_data img = true) delivered
  /\ forall n : nat,
       map outcome_of (fst (reads DirReader.read n r))
       = map Return (then_empty n delivered).
Proof.
  intros Hk HL Hopen Hfits Hctor listing images N delivered.
  destruct (DirReader_ctor_spec input false k L entries r Hk HL Hopen Hfits Hctor)
    as (Hwf & Hloop & Hnames & Hinput & Hnext & Hinit & Hlimit & Hrem & Hsome).
  fold listing in Hrem. fold images in Hrem.
  unfold in_size_t in Hk, HL.
  assert (HkN : k < N).
  { subst N. rewrite Hrem in Hsome.
    destruct (Z_lt_le_dec k (Z.of_nat (List.length images))) as [Hlt | Hge]; [exact Hlt |].
    exfalso. apply Hsome. apply skipn_all2. lia. }
  assert (Hskiplen : Z.of_nat (List.length (skipn (Z.to_nat k) images)) = N - k)
    by (rewrite length_skipn; subst N; lia).
  split; [exact HkN |].
  split; [exact (NameSort.Sorted_sort _) |].
  split; [exact (NameSort.Permuted_sort _) |].
  split.
  { subst delivered. rewrite length_firstn. lia. }
  split.
  { subst delivered images. apply Forall_firstn_skipn, decodable_has_data. }
  intros n. rewrite (DirReader_reads_nonloop n r Hwf Hloop).
  unfold pending. rewrite Hlimit, Hnext, Hrem, Z.sub_0_r.
  rewrite (firstn_min_length L) by lia. rewrite Hskiplen.
  reflexivity.
Qed.

Lemma DirReader_nonloop_sequence_witness :
  let r := DirReader.mk false ["a.png"; "b.png"; "c.png"; "notes.txt"]%string 1 0 1 5
             "photos"%string in
  outcome_of (@DirReader.ctor Sim.demo_library "photos" false 1 5) = Return r
  /\ map outcome_of (fst (reads (@DirReader.read Sim.demo_library) 4 r))
     = [Return Sim.frameB; Return Sim.frameC; Return Mat_empty; Return Mat_empty].
Proof.
  split; [reflexivity |].
  refine (proj2 (proj2 (proj2 (proj2 (proj2
    (@DirReader_nonloop_sequence Sim.demo_library "photos" 1 5
       [".."; "c.png"; "notes.txt"; "."; "a.png"; "b.png"]%string _ _ _ eq_refl _ eq_refl)))))
    4%nat);
    unfold in_size_t, SIZE_MAX; simpl; lia.
Defined.

(** ** [DirReader]: the looping [read()] *)

(** The [if (loop)] block: a new pass from cursor 0. *)
Lemma DirReader_new_pass `{Library} (names : list string) (fA n k L : Z) (input : string) :
  Z.of_nat (List.length names) <= SIZE_MAX ->
  in_size_t n -> in_size_t k -> in_size_t L ->
  exists (tr : list Call) (frame : Mat) (self' : DirReader.t),
    (again <- DirReader.restart_scan
                (DirReader.fuel_for
                   (DirReader.names
                      (DirReader.set_fileId 0 (DirReader.mk true names fA n k L input)))
                   (DirReader.fileId
                      (DirReader.set_fileId 0 (DirReader.mk true names fA n k L input))))
                (DirReader.set_fileId 0 (DirReader.mk true names fA n k L input)) 0 ;;
     match again with
     | (Some img, self) => ret (img, self)
     | (None, self) => ret (Mat_empty, self)
     end)
    = (tr, Return (frame, self'))
    /\ attempts tr = []
    /\ well_formed self'
    /\ same_reader (DirReader.mk true names fA n k L input) self'
    /\ match skipn (Z.to_nat k) (decodable input names) with
       | img :: rest =>
           frame = img /\ has_data img = true
           /\ DirReader.nextImgId self' = 1 /\ remaining self' = rest
       | [] => frame = Mat_empty /\ DirReader.nextImgId self' = n
       end.
Proof.
  intros Hlen Hn Hk HL.
  unfold DirReader.set_fileId, DirReader.fuel_for.
  cbn [DirReader.names DirReader.fileId DirReader.nextImgId DirReader.initialImageId
       DirReader.readLengthLimit DirReader.input DirReader.loop].
  rewrite (vec_size_fits names Hlen).
  destruct (restart_scan_spec (Z.to_nat (Z.of_nat (List.length names) - 0))
              true names n k L input 0 0 Hlen ltac:(lia) Hk
              ltac:(unfold in_size_t in Hk; lia) ltac:(lia) (Nat.le_refl _))
    as [tr [f' [Hf' [Htr Hspec]]]].
  unfold remaining in Hspec.
  cbn [DirReader.names DirReader.fileId DirReader.input] in Hspec.
  rewrite Z.sub_0_r in Hspec. cbn [Z.to_nat skipn] in Hspec.
  unfold well_formed, same_reader, remaining, in_size_t in *.
  destruct (skipn (Z.to_nat k) (decodable input names)) as [| img rest].
  - destruct Hspec as [-> ->]. cbn [bind ret]. rewrite app_nil_r.
    eexists tr, _, _. split; [reflexivity |].
    cbn [DirReader.names DirReader.fileId DirReader.nextImgId DirReader.initialImageId
         DirReader.readLengthLimit DirReader.input DirReader.loop].
    repeat split; auto; lia.
  - destruct Hspec as [-> [Himg Hrest]]. cbn [bind ret]. rewrite app_nil_r.
    eexists tr, _, _. split; [reflexivity |].
    cbn [DirReader.names DirReader.fileId DirReader.nextImgId DirReader.initialImageId
         DirReader.readLengthLimit DirReader.input DirReader.loop].
    repeat split; auto; unfold SIZE_MAX in *; lia.
Qed.

(** With looping, a [read()] hands out the head of the pending frames; when
    nothing is pending it starts a new pass from cursor 0, hands out the
    first frame of the pass and sets the counter to 1. *)
Lemma DirReader_read_loop `{Library} (self : DirReader.t) :
  well_formed self -> DirReader.loop self = true ->
  exists (tr : list Call) (frame : Mat) (self' : DirReader.t),
    DirReader.read self = ((tr, Return frame), self')
    /\ attempts tr = []
    /\ well_formed self' /\ same_reader self self'
    /\ match pending self with
       | img :: rest =>
           frame = img /\ pending self' = rest
           /\ DirReader.nextImgId self < DirReader.readLengthLimit self
           /\ DirReader.nextImgId self' = DirReader.nextImgId self + 1
       | [] =>
           match pass_frames self with
           | img :: rest =>
               frame = img /\ has_data img = true
               /\ DirReader.nextImgId self' = 1 /\ remaining self' = rest
           | [] =>
               frame = Mat_empty
               /\ DirReader.nextImgId self' = DirReader.nextImgId self
           end
       end.
Proof.
  destruct self as [lp names f n k L input].
  intros Hwf Hloop. cbn [DirReader.loop] in Hloop. subst lp.
  pose proof Hwf as (Hlen & Hf & Hn & Hk & HL).
  cbn [DirReader.names DirReader.fileId DirReader.nextImgId DirReader.initialImageId
       DirReader.readLengthLimit DirReader.input DirReader.loop] in Hlen, Hf, Hn, Hk, HL.
  destruct (read_scan_spec (Z.to_nat (Z.of_nat (List.length names) - f))
              true names f n k L input Hlen Hf Hn HL (Nat.le_refl _))
    as [tr [f' [Hf' [Htr Hspec]]]].
  assert (Hnew : forall fA,
    DirReader.read_scan (Z.to_nat (Z.of_nat (List.length names) - f))
      (DirReader.mk true names f n k L input)
    = (tr, Return (None, DirReader.mk true names fA n k L input)) ->
    exists (tr0 : list Call) (frame : Mat) (self' : DirReader.t),
      DirReader.read (DirReader.mk true names f n k L input) = ((tr0, Return frame), self')
      /\ attempts tr0 = []
      /\ well_formed self'
      /\ same_reader (DirReader.mk true names f n k L input) self'
      /\ match pass_frames (DirReader.mk true names f n k L input) with
         | img :: rest =>
             frame = img /\ has_data img = true
             /\ DirReader.nextImgId self' = 1 /\ remaining self' = rest
         | [] => frame = Mat_empty /\ DirReader.nextImgId self' = n
         end).
  { intros fA Hscan.
    destruct (DirReader_new_pass names fA n k L input Hlen Hn Hk HL)
      as (tr2 & frame & self' & Hagain & Htr2 & Hwf' & Hsame & Hcases).
    unfold DirReader.read, DirReader.read_body, DirReader.fuel_for in *.
    cbn [DirReader.names DirReader.fileId] in *.
    rewrite (vec_size_fits names Hlen), Hscan.
    cbn [bind DirReader.loop]. rewrite Hagain. cbn [run_method].
    exists (tr ++ tr2), frame, self'.
    rewrite attempts_app, Htr, Htr2.
    split; [reflexivity |]. split; [reflexivity |]. split; [exact Hwf' |].
    split; [exact Hsame |]. exact Hcases. }
  unfold pending, remaining in *.
  cbn [DirReader.names DirReader.fileId DirReader.nextImgId DirReader.initialImageId
       DirReader.readLengthLimit DirReader.input DirReader.loop] in *.
  unfold in_size_t in Hn, HL.
  destruct (n <? L) eqn:HnL.
  - apply Z.ltb_lt in HnL.
    replace (Z.to_nat (L - n)) with (S (Z.to_nat (L - (n + 1)))) by lia.
    destruct (decodable input (skipn (Z.to_nat f) names)) as [| img rest].
    + destruct Hspec as [Hscan ->]. cbn [firstn]. exact (Hnew _ Hscan).
    + destruct Hspec as [Hscan [Himg Hrest]]. cbn [firstn].
      unfold DirReader.read, DirReader.read_body, DirReader.fuel_for.
      cbn [DirReader.names DirReader.fileId].
      rewrite (vec_size_fits names Hlen), Hscan.
      cbn [bind ret run_method]. rewrite app_nil_r.
      eexists tr, _, _. split; [reflexivity |].
      unfold well_formed, same_reader, in_size_t in *.
      cbn [DirReader.names DirReader.fileId DirReader.nextImgId DirReader.initialImageId
           DirReader.readLengthLimit DirReader.input DirReader.loop].
      rewrite Hrest.
      repeat split; auto; lia.
  - apply Z.ltb_ge in HnL. destruct Hspec as [Hscan ->].
    replace (Z.to_nat (L - n)) with 0%nat by lia. cbn [firstn]. exact (Hnew _ Hscan).
Qed.

Lemma skipn_nth_error {A : Type} (l : list A) (i : nat) (x : A) :
  nth_error l i = Some x -> skipn i l = x :: skipn (S i) l.
Proof.
  revert i. induction l as [| a l IH]; intros [| i] Hx; simpl in *; try discriminate.
  - now inversion Hx.
  - now apply IH.
Qed.

(** A looping reader whose pass is exhausted starts a new one. *)
Lemma DirReader_read_exhausted `{Library} (self : DirReader.t) (img : Mat) :
  well_formed self ->
  DirReader.loop self = true ->
  (DirReader.readLengthLimit self <= DirReader.nextImgId self \/ remaining self = []) ->
  nth_error (decodable (DirReader.input self) (DirReader.names self))
            (Z.to_nat (DirReader.initialImageId self)) = Some img ->
  exists (tr : list Call) (self' : DirReader.t),
    DirReader.read self = ((tr, Return img), self')
    /\ has_data img = true
    /\ DirReader.nextImgId self' = 1
    /\ remaining self'
       = skipn (S (Z.to_nat (DirReader.initialImageId self)))
               (decodable (DirReader.input self) (DirReader.names self)).
Proof.
  intros Hwf Hloop Hexhausted Hkth.
  destruct (DirReader_read_loop self Hwf Hloop)
    as (tr & frame & self' & Hread & _ & Hwf' & Hsame & Hcases).
  assert (Hpending : pending self = []).
  { unfold pending. destruct Hexhausted as [Hlimit | Hnone].
    - replace (Z.to_nat (DirReader.readLengthLimit self - DirReader.nextImgId self))
        with 0%nat by lia. reflexivity.
    - rewrite Hnone. apply firstn_nil. }
  rewrite Hpending in Hcases. unfold pass_frames in Hcases.
  rewrite (skipn_nth_error _ _ _ Hkth) in Hcases.
  destruct Hcases as (-> & Hdata & Hone & Hrem).
  exists tr, self'. auto.
Qed.

(** A [read()] keeps a [DirReader] well formed and leaves what was fixed at
    construction. *)
Lemma DirReader_read_wf `{Library} (self : DirReader.t) :
  well_formed self ->
  well_formed (snd (DirReader.read self)) /\ same_reader self (snd (DirReader.read self)).
Proof.
  intros Hwf. destruct (DirReader.loop self) eqn:Hloop.
  - destruct (DirReader_read_loop self Hwf Hloop)
      as (tr & frame & self' & Hread & _ & Hwf' & Hsame & _).
    rewrite Hread. auto.
  - destruct (DirReader_read_nonloop self Hwf Hloop)
      as (tr & self' & Hread & _ & Hwf' & _ & Hsame & _).
    rewrite Hread. auto.
Qed.

Lemma same_reader_trans (a b c : DirReader.t) :
  same_reader a b -> same_reader b c -> same_reader a c.
Proof.
  unfold same_reader. intros (H1 & H2 & H3 & H4 & H5) (K1 & K2 & K3 & K4 & K5).
  repeat split; congruence.
Qed.

Lemma DirReader_reads_wf `{Library} (n : nat) (self : DirReader.t) :
  well_formed self ->
  well_formed (after_reads DirReader.read n self)
  /\ same_reader self (after_reads DirReader.read n self).
Proof.
  intros Hwf.
  apply (after_reads_invariant DirReader.read
           (fun s => well_formed s /\ same_reader self s)).
  - intros s [Hs Hsame]. destruct (DirReader_read_wf s Hs) as [Hs' Hsame'].
    split; [exact Hs' | eapply same_reader_trans; eassumption].
  - split; [exact Hwf | unfold same_reader; auto].
Qed.

(** C6. In a [DirectoryReader] constructed with [loop = true] and
    [initialImageId = k], once a pass is exhausted (the counter has reached
    [readLengthLimit], or no decodable entry is left in front of the
    cursor) the next [read()] starts again at cursor 0, skips the first [k]
    decodable images and the undecodable entries among them, returns the
    decodable image of index [k] of the sorted listing and leaves the
    counter at 1, with the cursor right behind the entry it returned. *)
Theorem DirReader_loop_restart `{Library} (input : string) (k L : Z)
    (entries : list string) (r : DirReader.t) (n : nat) :
  in_size_t k -> in_size_t L ->
  opendir_entries input = Some entries ->
  Z.of_nat (List.length entries) <= SIZE_MAX ->
  outcome_of (DirReader.ctor input true k L) = Return r ->
  let images := decodable input (sorted_listing entries) in
  let self := after_reads DirReader.read n r in
  (L <= DirReader.nextImgId self \/ remaining self = []) ->
  exists (img : Mat) (tr : list Call) (self' : DirReader.t),
    nth_error images (Z.to_nat k) = Some img
    /\ has_data img = true
    /\ DirReader.read self = ((tr, Return img), self')
    /\ DirReader.nextImgId self' = 1
    /\ remaining self' = skipn (S (Z.to_nat k)) images.
Proof.
  intros Hk HL Hopen Hfits Hctor images self Hexhausted.
  destruct (DirReader_ctor_spec input true k L entries r Hk HL Hopen Hfits Hctor)
    as (Hwf & Hloop & Hnames & Hinput & _ & Hinit & Hlimit & Hrem & Hsome).
  destruct (DirReader_reads_wf n r Hwf) as [Hwf' Hsame]. fold self in Hwf', Hsame.
  destruct Hsame as (Hloop' & Hnames' & Hinit' & Hlimit' & Hinput').
  rewrite Hloop in Hloop'. rewrite Hnames in Hnames'. rewrite Hinit in Hinit'.
  rewrite Hlimit in Hlimit'. rewrite Hinput in Hinput'.
  fold images in Hrem.
  destruct (nth_error images (Z.to_nat k)) as [img |] eqn:Hkth.
  - destruct (DirReader_read_exhausted self img Hwf' Hloop')
      as (tr & self' & Hread & Hdata & Hone & Hrest).
    + now rewrite Hlimit'.
    + now rewrite Hinput', Hnames', Hinit'.
    + rewrite Hinput', Hnames', Hinit' in Hrest. exists img, tr, self'. auto.
  - exfalso. apply Hsome. rewrite Hrem.
    apply skipn_all2. now apply nth_error_None.
Qed.

Lemma DirReader_loop_restart_witness :
  let names := ["a.png"; "b.png"; "c.png"; "notes.txt"]%string in
  let r := DirReader.mk true names 1 0 1 5 "photos"%string in
  let self := DirReader.mk true names 3 2 1 5 "photos"%string in
  outcome_of (@DirReader.ctor Sim.demo_library "photos" true 1 5) = Return r
  /\ after_reads (@DirReader.read Sim.demo_library) 2 r = self
  /\ @remaining Sim.demo_library self = []
  /\ exists tr self',
       @DirReader.read Sim.demo_library self = ((tr, Return Sim.frameB), self')
       /\ DirReader.nextImgId self' = 1
       /\ @remaining Sim.demo_library self' = [Sim.frameC].
Proof.
  cbv zeta. split; [reflexivity |]. split; [reflexivity |]. split; [reflexivity |].
  destruct (@DirReader_loop_restart Sim.demo_library "photos" 1 5
              [".."; "c.png"; "notes.txt"; "."; "a.png"; "b.png"]%string
              (DirReader.mk true ["a.png"; "b.png"; "c.png"; "notes.txt"]%string 1 0 1 5
                 "photos"%string) 2%nat)
    as (img & tr & self' & Hkth & _ & Hread & Hone & Hrest).
  - unfold in_size_t, SIZE_MAX. lia.
  - unfold in_size_t, SIZE_MAX. lia.
  - reflexivity.
  - unfold SIZE_MAX. simpl. lia.
  - reflexivity.
  - right. reflexivity.
  - exists tr, self'. inversion Hkth; subst img. auto.
Defined.

(** ** [VideoCapWrapper] *)

Lemma geb_false_lt (a b : Z) : a < b -> (a >=? b) = false.
Proof. intros Hlt. rewrite Z.geb_leb. apply Z.leb_gt. exact Hlt. Qed.

Lemma geb_true_le (a b : Z) : b <= a -> (a >=? b) = true.
Proof. intros Hle. rewrite Z.geb_leb. apply Z.leb_le. exact Hle. Qed.

(** C7 (as the code has it). In a [VideoReader] with [loop = true] whose
    counter is below the limit, when the decode of the next frame fails
    inside a [read()] call and the re-seek to the start offset succeeds,
    that same call seeks to [initialImageId], sets the counter to 1 and
    returns the frame decoded there, so that delivery continues from the
    start offset; when the re-seek fails, the call increments the counter
    and returns the frame of the failed decode. *)
Theorem VideoCapWrapper_read_reseek `{Library} (self : VideoCapWrapper.t)
    (img1 : Mat) (cap1 cap2 : VideoCapture) (positioned : bool) :
  VideoCapWrapper.loop self = true ->
  VideoCapWrapper.nextImgId self < VideoCapWrapper.readLengthLimit self ->
  cap_read (VideoCapWrapper.cap self) = (false, img1, cap1) ->
  cap_set CAP_PROP_POS_FRAMES (VideoCapWrapper.initialImageId self) cap1
  = (positioned, cap2) ->
  VideoCapWrapper.read self
  = if positioned then
      (([call_cap_read;
         call_cap_set CAP_PROP_POS_FRAMES (VideoCapWrapper.initialImageId self);
         call_cap_read],
        Return (snd (fst (cap_read cap2)))),
       VideoCapWrapper.mk _ true (snd (cap_read cap2)) 1
         (VideoCapWrapper.initialImageId self) (VideoCapWrapper.readLengthLimit self))
    else
      (([call_cap_read;
         call_cap_set CAP_PROP_POS_FRAMES (VideoCapWrapper.initialImageId self)],
        Return img1),
       VideoCapWrapper.mk _ true cap2 (size_incr (VideoCapWrapper.nextImgId self))
         (VideoCapWrapper.initialImageId self) (VideoCapWrapper.readLengthLimit self)).
Proof.
  destruct self as [lp cap n init L].
  cbn [VideoCapWrapper.loop VideoCapWrapper.cap VideoCapWrapper.nextImgId
       VideoCapWrapper.initialImageId VideoCapWrapper.readLengthLimit].
  intros -> Hlt Hread Hset.
  unfold VideoCapWrapper.read, VideoCapWrapper.read_body.
  cbn [VideoCapWrapper.loop VideoCapWrapper.cap VideoCapWrapper.nextImgId
       VideoCapWrapper.initialImageId VideoCapWrapper.readLengthLimit].
  rewrite (geb_false_lt _ _ Hlt).
  unfold VideoCapWrapper.grab, VideoCapWrapper.seek_start, VideoCapWrapper.set_cap,
    VideoCapWrapper.set_nextImgId.
  cbn [VideoCapWrapper.loop VideoCapWrapper.cap VideoCapWrapper.nextImgId
       VideoCapWrapper.initialImageId VideoCapWrapper.readLengthLimit].
  rewrite Hread. cbn [bind call ret negb andb app].
  cbn [VideoCapWrapper.loop VideoCapWrapper.cap VideoCapWrapper.nextImgId
       VideoCapWrapper.initialImageId VideoCapWrapper.readLengthLimit].
  rewrite Hset. destruct positioned.
  - cbn [bind call ret app VideoCapWrapper.cap].
    destruct (cap_read cap2) as [[decoded img] cap3]. reflexivity.
  - reflexivity.
Qed.

Lemma VideoCapWrapper_read_reseek_witness :
  let lib := Sim.demo_library in
  exists r0 r2 : @VideoCapWrapper.t lib,
    outcome_of (@VideoCapWrapper.ctor lib "clip.avi" true 1 5) = Return r0
    /\ map outcome_of (fst (reads (@VideoCapWrapper.read lib) 2 r0))
       = [Return Sim.frameB; Return Sim.frameC]
    /\ after_reads (@VideoCapWrapper.read lib) 2 r0 = r2
    /\ VideoCapWrapper.nextImgId r2 = 2
    /\ outcome_of (fst (@VideoCapWrapper.read lib r2)) = Return Sim.frameB
    /\ VideoCapWrapper.nextImgId (snd (@VideoCapWrapper.read lib r2)) = 1.
Proof.
  intros lib.
  set (clip := Sim.mkSession [Sim.frameA; Sim.frameB; Sim.frameC]).
  exists (VideoCapWrapper.mk lib true (clip 1%nat true false) 0 (double_of_Z 1) 5),
         (VideoCapWrapper.mk lib true (clip 3%nat true false) 2 (double_of_Z 1) 5).
  split; [reflexivity |]. split; [reflexivity |]. split; [reflexivity |].
  split; [reflexivity |].
  rewrite (@VideoCapWrapper_read_reseek lib
             (VideoCapWrapper.mk lib true (clip 3%nat true false) 2 (double_of_Z 1) 5)
             Mat_empty (clip 3%nat true false) (clip 1%nat true false) true
             eq_refl ltac:(simpl; lia) eq_refl eq_refl).
  split; reflexivity.
Defined.

(** C7 (as stated) fails where the session cannot seek back: the stream
    "stream" opens and accepts the initial seek to frame 0; its first
    [read()] delivers the only frame; in the second the decode fails at
    frame index 1 with looping enabled and the counter below the limit, the
    re-seek is refused, and the reader neither returns to its start offset
    nor resets its counter to 1, in that call or in the next ones. *)
Lemma VideoCapWrapper_reseek_refused_counterexample :
  let lib := Sim.demo_library in
  let stream := Sim.mkSession [Sim.frameA] in
  let r0 := VideoCapWrapper.mk lib true (stream 0%nat false false) 0 (double_of_Z 0) 5 in
  let r1 := VideoCapWrapper.mk lib true (stream 1%nat false false) 1 (double_of_Z 0) 5 in
  let r2 := VideoCapWrapper.mk lib true (stream 1%nat false false) 2 (double_of_Z 0) 5 in
  let r3 := VideoCapWrapper.mk lib true (stream 1%nat false false) 3 (double_of_Z 0) 5 in
  @VideoCapWrapper.ctor lib "stream" true 0 5
  = ([call_cap_open "stream"; call_cap_set CAP_PROP_POS_FRAMES (double_of_Z 0)], Return r0)
  /\ @VideoCapWrapper.read lib r0 = (([call_cap_read], Return Sim.frameA), r1)
  /\ VideoCapWrapper.loop r1 = true
  /\ VideoCapWrapper.nextImgId r1 < VideoCapWrapper.readLengthLimit r1
  /\ @cap_read lib (VideoCapWrapper.cap r1) = (false, Mat_empty, stream 1%nat false false)
  /\ @VideoCapWrapper.read lib r1
     = (([call_cap_read; call_cap_set CAP_PROP_POS_FRAMES (double_of_Z 0)],
         Return Mat_empty), r2)
  /\ VideoCapWrapper.nextImgId r2 <> 1
  /\ @VideoCapWrapper.read lib r2
     = (([call_cap_read; call_cap_set CAP_PROP_POS_FRAMES (double_of_Z 0)],
         Return Mat_empty), r3)
  /\ VideoCapWrapper.nextImgId r3 <> 1.
Proof.
  cbv zeta. repeat split; try reflexivity; simpl; lia.
Qed.

(** ** [CameraCapWrapper] *)

(** At its limit a camera returns the empty frame and touches nothing. *)
Lemma CameraCapWrapper_read_at_limit `{Library} (self : CameraCapWrapper.t) :
  CameraCapWrapper.readLengthLimit self <= CameraCapWrapper.nextImgId self ->
  CameraCapWrapper.read self = (([], Return Mat_empty), self).
Proof.
  intros Hle. unfold CameraCapWrapper.read. now rewrite (geb_true_le _ _ Hle).
Qed.

(** C8. In a [CameraReader] whose counter has not reached its limit, a failed
    capture makes [read()] throw the error "The image can't be captured from
    the camera" after that single capture attempt: it is not retried and the
    empty frame is not returned.  Once the counter has reached the limit,
    [read()] returns the empty frame without any capture attempt and leaves
    the reader as it was. *)
Theorem CameraCapWrapper_read_failure `{Library} (self : CameraCapWrapper.t) :
  (CameraCapWrapper.nextImgId self < CameraCapWrapper.readLengthLimit self ->
   forall (img : Mat) (cap' : VideoCapture),
     cap_read (CameraCapWrapper.cap self) = (false, img, cap') ->
     CameraCapWrapper.read self
     = (([call_cap_read],
         Throw (runtime_error "The image can't be captured from the camera")),
        CameraCapWrapper.set_cap cap' self))
  /\ (CameraCapWrapper.readLengthLimit self <= CameraCapWrapper.nextImgId self ->
      CameraCapWrapper.read self = (([], Return Mat_empty), self)).
Proof.
  unfold CameraCapWrapper.read. split.
  - intros Hlt img cap' Hread. rewrite (geb_false_lt _ _ Hlt), Hread. reflexivity.
  - intros Hle. rewrite (geb_true_le _ _ Hle). reflexivity.
Qed.

Lemma CameraCapWrapper_read_failure_witness :
  let lib := Sim.demo_library in
  let camera1 := Sim.mkSession [Sim.frameB] in
  let r0 := CameraCapWrapper.mk lib false (camera1 0%nat false false) 0 (double_of_Z 0) 5 in
  let r1 := CameraCapWrapper.mk lib false (camera1 1%nat false false) 1 (double_of_Z 0) 5 in
  let full := CameraCapWrapper.mk lib false (camera1 1%nat false false) 1 (double_of_Z 0) 1 in
  outcome_of (@CameraCapWrapper.ctor lib "1" false 0 5 Sim.resolution) = Return r0
  /\ @CameraCapWrapper.read lib r0 = (([call_cap_read], Return Sim.frameB), r1)
  /\ @CameraCapWrapper.read lib r1
     = (([call_cap_read],
         Throw (runtime_error "The image can't be captured from the camera")), r1)
  /\ @CameraCapWrapper.read lib full = (([], Return Mat_empty), full).
Proof.
  cbv zeta. split; [reflexivity |]. split; [reflexivity |]. split.
  - apply (proj1 (@CameraCapWrapper_read_failure Sim.demo_library
                    (CameraCapWrapper.mk Sim.demo_library false
                       (Sim.mkSession [Sim.frameB] 1%nat false false) 1 (double_of_Z 0) 5))
                 ltac:(simpl; lia) Mat_empty
                 (Sim.mkSession [Sim.frameB] 1%nat false false) eq_refl).
  - apply (proj2 (@CameraCapWrapper_read_failure Sim.demo_library
                    (CameraCapWrapper.mk Sim.demo_library false
                       (Sim.mkSession [Sim.frameB] 1%nat false false) 1 (double_of_Z 0) 1))
                 ltac:(simpl; lia)).
Defined.

(** One [read()] of a camera: the limit and the loop flag stay, the counter
    stays or goes up by one, and it goes up only below the limit. *)
Lemma CameraCapWrapper_read_step `{Library} (self : CameraCapWrapper.t) :
  in_size_t (CameraCapWrapper.nextImgId self) ->
  in_size_t (CameraCapWrapper.readLengthLimit self) ->
  let self' := snd (CameraCapWrapper.read self) in
  CameraCapWrapper.loop self' = CameraCapWrapper.loop self
  /\ CameraCapWrapper.readLengthLimit self' = CameraCapWrapper.readLengthLimit self
  /\ (CameraCapWrapper.nextImgId self' = CameraCapWrapper.nextImgId self
      \/ (CameraCapWrapper.nextImgId self < CameraCapWrapper.readLengthLimit self
          /\ CameraCapWrapper.nextImgId self' = CameraCapWrapper.nextImgId self + 1)).
Proof.
  destruct self as [lp cap n init L].
  unfold CameraCapWrapper.read, CameraCapWrapper.set_cap, CameraCapWrapper.set_nextImgId,
    in_size_t.
  cbn [CameraCapWrapper.loop CameraCapWrapper.cap CameraCapWrapper.nextImgId
       CameraCapWrapper.initialImageId CameraCapWrapper.readLengthLimit].
  intros Hn HL.
  destruct (n >=? L) eqn:Hge; cbn [snd].
  - cbn [CameraCapWrapper.loop CameraCapWrapper.nextImgId CameraCapWrapper.readLengthLimit].
    auto.
  - rewrite Z.geb_leb in Hge. apply Z.leb_gt in Hge.
    destruct (cap_read cap) as [[[|] img] cap']; cbn [negb snd];
      cbn [CameraCapWrapper.loop CameraCapWrapper.nextImgId
           CameraCapWrapper.readLengthLimit]; auto.
    rewrite (size_incr_below n L) by lia. auto.
Qed.

(** The counter after [n] calls is at most [n] above where it started, and
    never above the limit. *)
Lemma CameraCapWrapper_reads_counter `{Library} (n : nat) (self : CameraCapWrapper.t) :
  in_size_t (CameraCapWrapper.nextImgId self) ->
  in_size_t (CameraCapWrapper.readLengthLimit self) ->
  let self' := after_reads CameraCapWrapper.read n self in
  CameraCapWrapper.loop self' = CameraCapWrapper.loop self
  /\ CameraCapWrapper.readLengthLimit self' = CameraCapWrapper.readLengthLimit self
  /\ CameraCapWrapper.nextImgId self <= CameraCapWrapper.nextImgId self'
     <= CameraCapWrapper.nextImgId self + Z.of_nat n
  /\ (CameraCapWrapper.nextImgId self <= CameraCapWrapper.readLengthLimit self ->
      CameraCapWrapper.nextImgId self' <= CameraCapWrapper.readLengthLimit self).
Proof.
  revert self. induction n as [| n IH]; intros self Hn HL.
  - cbn. repeat split; lia.
  - rewrite after_reads_S.
    destruct (CameraCapWrapper_read_step self Hn HL) as (Hloop & Hlimit & Hcount).
    set (self1 := snd (CameraCapWrapper.read self)) in *.
    assert (Hn1 : in_size_t (CameraCapWrapper.nextImgId self1))
      by (unfold in_size_t in *; lia).
    assert (HL1 : in_size_t (CameraCapWrapper.readLengthLimit self1))
      by (rewrite Hlimit; exact HL).
    destruct (IH self1 Hn1 HL1) as (Hloop' & Hlimit' & Hcount' & Hbound').
    cbv zeta. rewrite Hloop', Hlimit', Hloop, Hlimit.
    rewrite Hlimit in Hbound'.
    repeat split; try lia.
Qed.

Lemma CameraCapWrapper_ctor_fields `{Library} (input : string) (loop : bool)
    (initialImageId readLengthLimit : Z) (cameraResolution : Size)
    (r : CameraCapWrapper.t) :
  outcome_of (CameraCapWrapper.ctor input loop initialImageId readLengthLimit
                cameraResolution) = Return r ->
  CameraCapWrapper.loop r = loop
  /\ CameraCapWrapper.nextImgId r = 0
  /\ CameraCapWrapper.readLengthLimit r = (if loop then SIZE_MAX else readLengthLimit).
Proof.
  unfold CameraCapWrapper.ctor, outcome_of. rewrite bind_call. cbn [snd].
  destruct (stoi input) as [index | |]; try discriminate.
  rewrite bind_call. cbn [snd].
  destruct (cap_open_index index VideoCapture_new) as [[|] cap]; try discriminate.
  unfold CameraCapWrapper.configure. cbn.
  intros Hr. inversion Hr; subst r. auto.
Qed.

(** C10. A [CameraReader] constructed with [loop = true] has its effective
    frame limit set at construction to [SIZE_MAX], the maximum [size_t]
    value.  Every [read()] call made while fewer than [SIZE_MAX] calls have
    gone before attempts one capture and either returns the captured frame or
    throws the capture error, so that, captured frames not being empty, the
    empty frame is not returned while looping.  The empty end-of-stream
    result belongs to the limit [SIZE_MAX] itself: [read()] returns it,
    without a capture, only in a state whose counter equals [SIZE_MAX]. *)
Theorem CameraCapWrapper_loop_never_empty `{Library} (input : string)
    (initialImageId readLengthLimit : Z) (cameraResolution : Size)
    (r : CameraCapWrapper.t) :
  outcome_of (CameraCapWrapper.ctor input true initialImageId readLengthLimit
                cameraResolution) = Return r ->
  CameraCapWrapper.readLengthLimit r = SIZE_MAX
  /\ (forall n : nat,
        Z.of_nat n < SIZE_MAX ->
        let self := after_reads CameraCapWrapper.read n r in
        fst (CameraCapWrapper.read self)
        = (let '(captured, img, _) := cap_read (CameraCapWrapper.cap self) in
           if captured then ([call_cap_read], Return img)
           else ([call_cap_read],
                 Throw (runtime_error "The image can't be captured from the camera")))
        /\ ((forall cap img cap', cap_read cap = (true, img, cap') -> has_data img = true) ->
            forall img, outcome_of (fst (CameraCapWrapper.read self)) = Return img ->
                        has_data img = true))
  /\ (forall n : nat,
        let self := after_reads CameraCapWrapper.read n r in
        CameraCapWrapper.nextImgId self = SIZE_MAX ->
        CameraCapWrapper.read self = (([], Return Mat_empty), self)).
Proof.
  intros Hctor.
  destruct (CameraCapWrapper_ctor_fields _ _ _ _ _ _ Hctor) as (Hloop & Hzero & Hlimit).
  assert (Hrange : in_size_t (CameraCapWrapper.nextImgId r))
    by (rewrite Hzero; unfold in_size_t, SIZE_MAX; lia).
  assert (Hrange' : in_size_t (CameraCapWrapper.readLengthLimit r))
    by (rewrite Hlimit; unfold in_size_t, SIZE_MAX; lia).
  split; [exact Hlimit |]. split.
  - intros n Hn self.
    destruct (CameraCapWrapper_reads_counter n r Hrange Hrange')
      as (_ & Hlimit' & Hcount & _).
    fold self in Hlimit', Hcount.
    assert (Hbelow : CameraCapWrapper.nextImgId self
                     < CameraCapWrapper.readLengthLimit self)
      by (rewrite Hlimit', Hlimit; lia).
    assert (Hread : fst (CameraCapWrapper.read self)
       = (let '(captured, img, _) := cap_read (CameraCapWrapper.cap self) in
          if captured then ([call_cap_read], Return img)
          else ([call_cap_read],
                Throw (runtime_error "The image can't be captured from the camera")))).
    { unfold CameraCapWrapper.read. rewrite (geb_false_lt _ _ Hbelow).
      destruct (cap_read (CameraCapWrapper.cap self)) as [[[|] img] cap']; reflexivity. }
    split; [exact Hread |].
    intros Hcontract img. rewrite Hread.
    destruct (cap_read (CameraCapWrapper.cap self)) as [[[|] img'] cap'] eqn:Hcap;
      cbn [outcome_of snd]; intros Himg; inversion Himg; subst.
    eapply Hcontract, Hcap.
  - intros n self Hfull.
    destruct (CameraCapWrapper_reads_counter n r Hrange Hrange') as (_ & Hlimit' & _).
    fold self in Hlimit'.
    apply CameraCapWrapper_read_at_limit. rewrite Hlimit', Hlimit, Hfull. lia.
Qed.

Lemma CameraCapWrapper_loop_never_empty_witness :
  let lib := Sim.demo_library in
  let camera := Sim.mkSession [Sim.frameA] 0 false true in
  let r := CameraCapWrapper.mk lib true camera 0 (double_of_Z 0) SIZE_MAX in
  outcome_of (@CameraCapWrapper.ctor lib "0" true 0 5 Sim.resolution) = Return r
  /\ 7 < SIZE_MAX
  /\ fst (@CameraCapWrapper.read lib (after_reads (@CameraCapWrapper.read lib) 7 r))
     = ([call_cap_read], Return Sim.frameA).
Proof.
  cbv zeta. split; [reflexivity |]. split; [reflexivity |].
  exact (proj1 (proj1 (proj2 (@CameraCapWrapper_loop_never_empty Sim.demo_library "0" 0 5
                                Sim.resolution _ eq_refl)) 7%nat eq_refl)).
Defined.

(** ** The frame limit, reader by reader *)

(** One [read()] of a [DirReader] keeps the reader well formed and the
    counter within a limit of at least 1. *)
Lemma DirReader_read_inv `{Library} (self : DirReader.t) :
  well_formed self ->
  1 <= DirReader.readLengthLimit self ->
  DirReader.nextImgId self <= DirReader.readLengthLimit self ->
  let self' := snd (DirReader.read self) in
  well_formed self' /\ same_reader self self'
  /\ DirReader.nextImgId self' <= DirReader.readLengthLimit self.
Proof.
  intros Hwf Hone Hbound. destruct (DirReader.loop self) eqn:Hloop.
  - destruct (DirReader_read_loop self Hwf Hloop)
      as (tr & frame & self' & Hread & _ & Hwf' & Hsame & Hcases).
    rewrite Hread. cbn [snd]. split; [exact Hwf' |]. split; [exact Hsame |].
    destruct (pending self) as [| img rest].
    + destruct (pass_frames self) as [| img rest].
      * destruct Hcases as [_ ->]. exact Hbound.
      * destruct Hcases as (_ & _ & -> & _). exact Hone.
    + destruct Hcases as (_ & _ & Hlt & ->). lia.
  - destruct (DirReader_read_nonloop self Hwf Hloop)
      as (tr & self' & Hread & _ & Hwf' & _ & Hsame & _ & _ & _ & Hcount).
    rewrite Hread. cbn [snd]. split; [exact Hwf' |]. split; [exact Hsame |].
    destruct Hcount as [Hle | ->]; assumption.
Qed.

Lemma DirReader_reads_inv `{Library} (n : nat) (self : DirReader.t) :
  well_formed self ->
  1 <= DirReader.readLengthLimit self ->
  DirReader.nextImgId self <= DirReader.readLengthLimit self ->
  let self' := after_reads DirReader.read n self in
  well_formed self' /\ same_reader self self'
  /\ DirReader.nextImgId self' <= DirReader.readLengthLimit self.
Proof.
  intros Hwf Hone Hbound.
  apply (after_reads_invariant DirReader.read
           (fun s => well_formed s /\ same_reader self s
                     /\ DirReader.nextImgId s <= DirReader.readLengthLimit self)).
  - intros s (Hs & Hsame & Hle).
    pose proof Hsame as (_ & _ & _ & HL & _).
    destruct (DirReader_read_inv s Hs) as (Hs' & Hsame' & Hle'); try (rewrite HL; assumption).
    rewrite HL in Hle'.
    split; [exact Hs' |]. split; [eapply same_reader_trans; eassumption | exact Hle'].
  - split; [exact Hwf |]. split; [| exact Hbound]. unfold same_reader. auto.
Qed.

(** At the limit a non-looping [DirReader] does nothing and returns the
    empty frame. *)
Lemma DirReader_read_at_limit `{Library} (self : DirReader.t) :
  DirReader.loop self = false ->
  DirReader.readLengthLimit self <= DirReader.nextImgId self ->
  DirReader.read self = (([], Return Mat_empty), self).
Proof.
  intros Hloop Hle. unfold DirReader.read, DirReader.read_body.
  assert (Hscan : forall fuel, DirReader.read_scan fuel self = ret (None, self)).
  { intros fuel.
    assert (Hguard : (DirReader.nextImgId self <? DirReader.readLengthLimit self) = false)
      by (apply Z.ltb_ge; exact Hle).
    destruct fuel; cbn [DirReader.read_scan]; rewrite Hguard, andb_false_r; reflexivity. }
  rewrite Hscan. cbn [bind ret]. rewrite Hloop. reflexivity.
Qed.

Ltac video_simpl :=
  cbn [bind ret call fst snd app run_method
       VideoCapWrapper.cap VideoCapWrapper.loop VideoCapWrapper.nextImgId
       VideoCapWrapper.initialImageId VideoCapWrapper.readLengthLimit].

(** One [read()] of a [VideoCapWrapper]: the configuration stays, and the
    counter stays within a limit of at least 1. *)
Lemma VideoCapWrapper_read_inv `{Library} (self : VideoCapWrapper.t) :
  in_size_t (VideoCapWrapper.nextImgId self) ->
  in_size_t (VideoCapWrapper.readLengthLimit self) ->
  let self' := snd (VideoCapWrapper.read self) in
  VideoCapWrapper.loop self' = VideoCapWrapper.loop self
  /\ VideoCapWrapper.readLengthLimit self' = VideoCapWrapper.readLengthLimit self
  /\ VideoCapWrapper.initialImageId self' = VideoCapWrapper.initialImageId self
  /\ in_size_t (VideoCapWrapper.nextImgId self')
  /\ (1 <= VideoCapWrapper.readLengthLimit self ->
      VideoCapWrapper.nextImgId self <= VideoCapWrapper.readLengthLimit self ->
      VideoCapWrapper.nextImgId self' <= VideoCapWrapper.readLengthLimit self).
Proof.
  destruct self as [lp cap n init L].
  unfold VideoCapWrapper.read, VideoCapWrapper.read_body, VideoCapWrapper.grab,
    VideoCapWrapper.seek_start, VideoCapWrapper.set_cap, VideoCapWrapper.set_nextImgId,
    in_size_t.
  video_simpl.
  intros Hn HL.
  assert (Hone : 0 <= 1 <= SIZE_MAX) by (unfold SIZE_MAX; lia).
  destruct (n >=? L) eqn:Hge.
  - destruct lp; [| video_simpl; repeat split; auto; lia].
    destruct (cap_set CAP_PROP_POS_FRAMES init cap) as [[|] cap1];
      [| video_simpl; repeat split; auto; lia].
    video_simpl.
    destruct (cap_read cap1) as [[decoded img] cap2].
    video_simpl. repeat split; auto; lia.
  - rewrite Z.geb_leb in Hge. apply Z.leb_gt in Hge.
    destruct (cap_read cap) as [[decoded img] cap1].
    video_simpl.
    destruct (negb decoded && lp) eqn:Hretry.
    + destruct (cap_set CAP_PROP_POS_FRAMES init cap1) as [[|] cap2].
      * video_simpl.
        destruct (cap_read cap2) as [[decoded' img'] cap3].
        video_simpl. repeat split; auto; lia.
      * video_simpl.
        rewrite (size_incr_below n L) by lia. repeat split; auto; lia.
    + video_simpl.
      rewrite (size_incr_below n L) by lia. repeat split; auto; lia.
Qed.

Lemma VideoCapWrapper_reads_inv `{Library} (n : nat) (self : VideoCapWrapper.t) :
  in_size_t (VideoCapWrapper.nextImgId self) ->
  in_size_t (VideoCapWrapper.readLengthLimit self) ->
  1 <= VideoCapWrapper.readLengthLimit self ->
  VideoCapWrapper.nextImgId self <= VideoCapWrapper.readLengthLimit self ->
  let self' := after_reads VideoCapWrapper.read n self in
  VideoCapWrapper.loop self' = VideoCapWrapper.loop self
  /\ VideoCapWrapper.readLengthLimit self' = VideoCapWrapper.readLengthLimit self
  /\ VideoCapWrapper.initialImageId self' = VideoCapWrapper.initialImageId self
  /\ in_size_t (VideoCapWrapper.nextImgId self')
  /\ VideoCapWrapper.nextImgId self' <= VideoCapWrapper.readLengthLimit self.
Proof.
  intros Hn HL Hone Hbound.
  apply (after_reads_invariant VideoCapWrapper.read
           (fun s => VideoCapWrapper.loop s = VideoCapWrapper.loop self
                     /\ VideoCapWrapper.readLengthLimit s = VideoCapWrapper.readLengthLimit self
                     /\ VideoCapWrapper.initialImageId s = VideoCapWrapper.initialImageId self
                     /\ in_size_t (VideoCapWrapper.nextImgId s)
                     /\ VideoCapWrapper.nextImgId s <= VideoCapWrapper.readLengthLimit self)).
  - intros s (Hloop & Hlimit & Hinit & Hrange & Hle).
    destruct (VideoCapWrapper_read_inv s Hrange) as (Hloop' & Hlimit' & Hinit' & Hrange' & Hle').
    { rewrite Hlimit. exact HL. }
    rewrite Hlimit in Hle'.
    repeat split; try congruence; try apply Hrange'. apply Hle'; assumption.
  - repeat split; auto; apply Hn.
Qed.

(** At the limit a [VideoCapWrapper] returns the empty frame, unless it
    loops and the seek back to the start offset succeeds. *)
Lemma VideoCapWrapper_read_at_limit `{Library} (self : VideoCapWrapper.t) :
  VideoCapWrapper.readLengthLimit self <= VideoCapWrapper.nextImgId self ->
  VideoCapWrapper.read self
  = if VideoCapWrapper.loop self then
      let '(positioned, cap1) :=
        cap_set CAP_PROP_POS_FRAMES (VideoCapWrapper.initialImageId self)
                (VideoCapWrapper.cap self) in
      if positioned then
        (([call_cap_set CAP_PROP_POS_FRAMES (VideoCapWrapper.initialImageId self);
           call_cap_read],
          Return (snd (fst (cap_read cap1)))),
         VideoCapWrapper.mk _ true (snd (cap_read cap1)) 1
           (VideoCapWrapper.initialImageId self) (VideoCapWrapper.readLengthLimit self))
      else
        (([call_cap_set CAP_PROP_POS_FRAMES (VideoCapWrapper.initialImageId self)],
          Return Mat_empty),
         VideoCapWrapper.set_cap cap1 self)
    else (([], Return Mat_empty), self).
Proof.
  destruct self as [lp cap n init L].
  cbn [VideoCapWrapper.loop VideoCapWrapper.cap VideoCapWrapper.nextImgId
       VideoCapWrapper.initialImageId VideoCapWrapper.readLengthLimit].
  intros Hle.
  unfold VideoCapWrapper.read, VideoCapWrapper.read_body, VideoCapWrapper.grab,
    VideoCapWrapper.seek_start, VideoCapWrapper.set_cap, VideoCapWrapper.set_nextImgId.
  cbn [VideoCapWrapper.loop VideoCapWrapper.cap VideoCapWrapper.nextImgId
       VideoCapWrapper.initialImageId VideoCapWrapper.readLengthLimit].
  rewrite (geb_true_le _ _ Hle).
  destruct lp; [| reflexivity].
  destruct (cap_set CAP_PROP_POS_FRAMES init cap) as [[|] cap1]; [| reflexivity].
  cbn [bind call ret app VideoCapWrapper.cap].
  destruct (cap_read cap1) as [[decoded img] cap2]. reflexivity.
Qed.

Lemma pass_frames_same `{Library} (self self' : DirReader.t) :
  same_reader self self' -> pass_frames self' = pass_frames self.
Proof.
  unfold same_reader, pass_frames. intros (_ & -> & -> & _ & ->). reflexivity.
Qed.

(** C9 (as the code has it). Along every sequence of [read()] calls the
    counter of a reader never exceeds its limit: [readLengthLimit], at least
    1, for a [DirectoryReader] and a [VideoReader]; the effective limit for a
    [CameraReader], which is [readLengthLimit] without looping and
    [SIZE_MAX] with it.  Once the counter has reached the limit, a
    non-looping reader returns the empty frame and does nothing else; a
    looping [DirectoryReader] starts a new pass at its initial offset with
    the counter at 1; a looping [VideoReader] does so when the seek back to
    its initial offset succeeds and returns the empty frame when it does
    not; a [CameraReader] is never rewound and returns the empty frame. *)
Theorem readers_respect_limit `{Library} :
  (forall (self : DirReader.t) (n : nat),
     well_formed self ->
     1 <= DirReader.readLengthLimit self ->
     DirReader.nextImgId self <= DirReader.readLengthLimit self ->
     let s := after_reads DirReader.read n self in
     DirReader.nextImgId s <= DirReader.readLengthLimit self
     /\ (DirReader.readLengthLimit self <= DirReader.nextImgId s ->
         if DirReader.loop self then
           forall img rest, pass_frames self = img :: rest ->
             exists tr s',
               DirReader.read s = ((tr, Return img), s')
               /\ DirReader.nextImgId s' = 1 /\ remaining s' = rest
         else DirReader.read s = (([], Return Mat_empty), s)))
  /\ (forall (self : VideoCapWrapper.t) (n : nat),
        in_size_t (VideoCapWrapper.nextImgId self) ->
        in_size_t (VideoCapWrapper.readLengthLimit self) ->
        1 <= VideoCapWrapper.readLengthLimit self ->
        VideoCapWrapper.nextImgId self <= VideoCapWrapper.readLengthLimit self ->
        let s := after_reads VideoCapWrapper.read n self in
        VideoCapWrapper.nextImgId s <= VideoCapWrapper.readLengthLimit self
        /\ (VideoCapWrapper.readLengthLimit self <= VideoCapWrapper.nextImgId s ->
            VideoCapWrapper.read s
            = if VideoCapWrapper.loop self then
                let '(positioned, cap1) :=
                  cap_set CAP_PROP_POS_FRAMES (VideoCapWrapper.initialImageId self)
                          (VideoCapWrapper.cap s) in
                if positioned then
                  (([call_cap_set CAP_PROP_POS_FRAMES (VideoCapWrapper.initialImageId self);
                     call_cap_read],
                    Return (snd (fst (cap_read cap1)))),
                   VideoCapWrapper.mk _ true (snd (cap_read cap1)) 1
                     (VideoCapWrapper.initialImageId self)
                     (VideoCapWrapper.readLengthLimit self))
                else
                  (([call_cap_set CAP_PROP_POS_FRAMES (VideoCapWrapper.initialImageId self)],
                    Return Mat_empty),
                   VideoCapWrapper.set_cap cap1 s)
              else (([], Return Mat_empty), s)))
  /\ (forall (self : CameraCapWrapper.t) (n : nat),
        in_size_t (CameraCapWrapper.nextImgId self) ->
        in_size_t (CameraCapWrapper.readLengthLimit self) ->
        CameraCapWrapper.nextImgId self <= CameraCapWrapper.readLengthLimit self ->
        let s := after_reads CameraCapWrapper.read n self in
        CameraCapWrapper.nextImgId s <= CameraCapWrapper.readLengthLimit self
        /\ (CameraCapWrapper.readLengthLimit self <= CameraCapWrapper.nextImgId s ->
            CameraCapWrapper.read s = (([], Return Mat_empty), s)))
  /\ (forall (input : string) (loop : bool) (initialImageId readLengthLimit : Z)
             (cameraResolution : Size) (r : CameraCapWrapper.t),
        outcome_of (CameraCapWrapper.ctor input loop initialImageId readLengthLimit
                      cameraResolution) = Return r ->
        CameraCapWrapper.nextImgId r = 0
        /\ CameraCapWrapper.readLengthLimit r
           = (if loop then SIZE_MAX else readLengthLimit)).
Proof.
  split; [| split; [| split]].
  - intros self n Hwf Hone Hbound s.
    destruct (DirReader_reads_inv n self Hwf Hone Hbound) as (Hwf' & Hsame & Hle).
    fold s in Hwf', Hsame, Hle.
    split; [exact Hle |]. intros Hfull.
    pose proof Hsame as (Hloop & _ & _ & HL & _).
    destruct (DirReader.loop self) eqn:Hlp.
    + intros img rest Hpass.
      destruct (DirReader_read_loop s Hwf' Hloop)
        as (tr & frame & s' & Hread & _ & _ & _ & Hcases).
      assert (Hpending : pending s = []).
      { unfold pending. rewrite HL.
        replace (Z.to_nat (DirReader.readLengthLimit self - DirReader.nextImgId s))
          with 0%nat by lia. reflexivity. }
      rewrite Hpending, (pass_frames_same self s Hsame), Hpass in Hcases.
      destruct Hcases as (-> & _ & Hcount & Hrem).
      exists tr, s'. auto.
    + apply DirReader_read_at_limit; [exact Hloop | rewrite HL; exact Hfull].
  - intros self n Hn HL Hone Hbound s.
    destruct (VideoCapWrapper_reads_inv n self Hn HL Hone Hbound)
      as (Hloop & Hlimit & Hinit & _ & Hle).
    fold s in Hloop, Hlimit, Hinit, Hle.
    split; [exact Hle |]. intros Hfull.
    rewrite VideoCapWrapper_read_at_limit by (rewrite Hlimit; exact Hfull).
    now rewrite Hloop, Hlimit, Hinit.
  - intros self n Hn HL Hbound s.
    destruct (CameraCapWrapper_reads_counter n self Hn HL) as (_ & Hlimit & _ & Hle).
    fold s in Hlimit, Hle.
    split; [exact (Hle Hbound) |]. intros Hfull.
    apply CameraCapWrapper_read_at_limit. rewrite Hlimit. exact Hfull.
  - intros input loop k L res r Hctor.
    destruct (CameraCapWrapper_ctor_fields _ _ _ _ _ _ Hctor) as (_ & Hzero & Hlimit).
    auto.
Qed.

Lemma readers_respect_limit_witness :
  let lib := Sim.demo_library in
  let names := ["a.png"; "b.png"; "c.png"; "notes.txt"]%string in
  let dir := DirReader.mk false names 1 0 1 2 "photos"%string in
  let clip := Sim.mkSession [Sim.frameA; Sim.frameB; Sim.frameC] in
  let video := VideoCapWrapper.mk lib true (clip 0%nat true false) 0 (double_of_Z 0) 2 in
  let camera :=
    CameraCapWrapper.mk lib false (Sim.mkSession [Sim.frameA] 0 false true) 0
      (double_of_Z 0) 2 in
  (DirReader.nextImgId (after_reads (@DirReader.read lib) 3 dir) = 2
   /\ @DirReader.read lib (after_reads (@DirReader.read lib) 3 dir)
      = (([], Return Mat_empty), after_reads (@DirReader.read lib) 3 dir))
  /\ (VideoCapWrapper.nextImgId (after_reads (@VideoCapWrapper.read lib) 2 video) = 2
      /\ @VideoCapWrapper.read lib (after_reads (@VideoCapWrapper.read lib) 2 video)
         = (([call_cap_set CAP_PROP_POS_FRAMES (double_of_Z 0); call_cap_read],
             Return Sim.frameA),
            VideoCapWrapper.mk lib true (clip 1%nat true false) 1 (double_of_Z 0) 2))
  /\ (CameraCapWrapper.nextImgId (after_reads (@CameraCapWrapper.read lib) 2 camera) = 2
      /\ @CameraCapWrapper.read lib (after_reads (@CameraCapWrapper.read lib) 2 camera)
         = (([], Return Mat_empty), after_reads (@CameraCapWrapper.read lib) 2 camera)).
Proof.
  cbv zeta.
  destruct (@readers_respect_limit Sim.demo_library) as (Hdir & Hvideo & Hcamera & _).
  split; [| split].
  - split; [reflexivity |].
    refine (proj2 (Hdir (DirReader.mk false ["a.png"; "b.png"; "c.png"; "notes.txt"]%string
                           1 0 1 2 "photos"%string) 3%nat _ _ _) _).
    + unfold well_formed, in_size_t, SIZE_MAX. simpl. lia.
    + simpl. lia.
    + simpl. lia.
    + apply Z.leb_le. reflexivity.
  - split; [reflexivity |].
    refine (proj2 (Hvideo (VideoCapWrapper.mk Sim.demo_library true
                             (Sim.mkSession [Sim.frameA; Sim.frameB; Sim.frameC]
                                0%nat true false) 0 (double_of_Z 0) 2) 2%nat _ _ _ _) _);
      try (apply Z.leb_le; reflexivity);
      unfold in_size_t, SIZE_MAX; simpl; lia.
  - split; [reflexivity |].
    refine (proj2 (Hcamera (CameraCapWrapper.mk Sim.demo_library false
                              (Sim.mkSession [Sim.frameA] 0 false true) 0
                              (double_of_Z 0) 2) 2%nat _ _ _) _);
      try (apply Z.leb_le; reflexivity);
      unfold in_size_t, SIZE_MAX; simpl; lia.
Defined.

(** C9 (as stated) fails for two looping readers.  The live camera 0, opened
    with [loop = true] and [readLengthLimit = 1], delivers a frame on each
    of three calls: its counter goes to 3, above the limit it was given, and
    it is never rewound.  The stream "stream", opened with [loop = true] and
    [readLengthLimit = 1], reaches the limit with its first frame; on the
    next call the seek back is refused, and the reader returns the empty
    frame instead of resuming at its start offset. *)
Lemma readers_limit_counterexample :
  let lib := Sim.demo_library in
  let live := Sim.mkSession [Sim.frameA] 0 false true in
  let camera := CameraCapWrapper.mk lib true live 0 (double_of_Z 0) SIZE_MAX in
  let stream := Sim.mkSession [Sim.frameA] in
  let video0 := VideoCapWrapper.mk lib true (stream 0%nat false false) 0 (double_of_Z 0) 1 in
  let video1 := VideoCapWrapper.mk lib true (stream 1%nat false false) 1 (double_of_Z 0) 1 in
  (outcome_of (@CameraCapWrapper.ctor lib "0" true 0 1 Sim.resolution) = Return camera
   /\ fst (reads (@CameraCapWrapper.read lib) 3 camera)
      = [([call_cap_read], Return Sim.frameA);
         ([call_cap_read], Return Sim.frameA);
         ([call_cap_read], Return Sim.frameA)]
   /\ CameraCapWrapper.nextImgId (after_reads (@CameraCapWrapper.read lib) 3 camera) = 3
   /\ 1 < 3)
  /\ (outcome_of (@VideoCapWrapper.ctor lib "stream" true 0 1) = Return video0
      /\ @VideoCapWrapper.read lib video0 = (([call_cap_read], Return Sim.frameA), video1)
      /\ VideoCapWrapper.nextImgId video1 = VideoCapWrapper.readLengthLimit video1
      /\ @VideoCapWrapper.read lib video1
         = (([call_cap_set CAP_PROP_POS_FRAMES (double_of_Z 0)], Return Mat_empty),
            video1)).
Proof.
  cbv zeta. repeat split.
Qed.

(** * Further properties of the readers and of the resolver *)

(** ** [ImreadWrapper] with looping *)

(** X1. A [SingleImageReader] constructed with [loop = true] returns a copy
    of the decoded image, which is not empty, on every [read()], however
    many, makes no library call and never changes. *)
Theorem ImreadWrapper_loop_forever `{Library} (input : string) (r : ImreadWrapper.t)
    (n : nat) :
  outcome_of (ImreadWrapper.ctor input true) = Return r ->
  reads ImreadWrapper.read n r = (repeat (ret (clone (imread input))) n, r)
  /\ has_data (clone (imread input)) = true.
Proof.
  unfold ImreadWrapper.ctor, outcome_of. rewrite bind_call. cbn [snd].
  destruct (file_good input); simpl; [| discriminate].
  destruct (has_data (imread input)) eqn:Hdata; simpl; [| discriminate].
  intros Hr. inversion Hr; subst r; clear Hr.
  split; [| exact Hdata].
  induction n as [| n IH]; [reflexivity |].
  cbn [reads]. unfold ImreadWrapper.read at 1. cbn [ImreadWrapper.loop ImreadWrapper.img].
  now rewrite IH.
Qed.

Lemma ImreadWrapper_loop_forever_witness :
  outcome_of (@ImreadWrapper.ctor Sim.demo_library "img.png" true)
  = Return (ImreadWrapper.mk true Sim.frameA true)
  /\ fst (reads ImreadWrapper.read 3 (ImreadWrapper.mk true Sim.frameA true))
     = [ret Sim.frameA; ret Sim.frameA; ret Sim.frameA].
Proof.
  split; [reflexivity |].
  now rewrite (proj1 (@ImreadWrapper_loop_forever Sim.demo_library "img.png"
                        (ImreadWrapper.mk true Sim.frameA true) 3 eq_refl)).
Defined.

(** ** No [read()] but the camera's throws *)

(** The first loop of [read] ends, whatever the state it starts from. *)
Lemma read_scan_returns `{Library} (fuel : nat) (self : DirReader.t) :
  (Z.to_nat (vec_size (DirReader.names self) - DirReader.fileId self) <= fuel)%nat ->
  exists tr found self',
    DirReader.read_scan fuel self = (tr, Return (found, self'))
    /\ DirReader.loop self' = DirReader.loop self
    /\ DirReader.names self' = DirReader.names self
    /\ DirReader.input self' = DirReader.input self.
Proof.
  revert self. induction fuel as [| fuel IH]; intros self Hfuel;
    cbn [DirReader.read_scan];
    destruct (DirReader.fileId self <? vec_size (DirReader.names self)) eqn:Hlt;
    cbn [andb]; try (eexists _, _, _; split; [reflexivity | auto]; fail).
  - apply Z.ltb_lt in Hlt. lia.
  - destruct (DirReader.nextImgId self <? DirReader.readLengthLimit self);
      [| eexists _, _, _; split; [reflexivity | auto]].
    apply Z.ltb_lt in Hlt.
    pose proof (vec_size_range (DirReader.names self)) as Hsz. unfold in_size_t in Hsz.
    pose proof (size_incr_progress _ _ Hlt ltac:(lia)) as Hstep.
    rewrite bind_call. cbv zeta.
    destruct (has_data _).
    + eexists _, _, _. split; [reflexivity | auto].
    + destruct (IH (DirReader.set_fileId (size_incr (DirReader.fileId self)) self))
        as (tr & found & self' & Hscan & Hloop & Hnames & Hinput).
      { cbn [DirReader.set_fileId DirReader.names DirReader.fileId]. lia. }
      rewrite Hscan. cbn [fst snd]. eexists _, _, _. split; [reflexivity | auto].
Qed.

(** So does the loop of the [if (loop)] block. *)
Lemma restart_scan_returns `{Library} (fuel : nat) (self : DirReader.t) (readImgs : Z) :
  (Z.to_nat (vec_size (DirReader.names self) - DirReader.fileId self) <= fuel)%nat ->
  exists tr found self',
    DirReader.restart_scan fuel self readImgs = (tr, Return (found, self')).
Proof.
  revert self readImgs. induction fuel as [| fuel IH]; intros self readImgs Hfuel;
    cbn [DirReader.restart_scan];
    destruct (DirReader.fileId self <? vec_size (DirReader.names self)) eqn:Hlt;
    try (eexists _, _, _; reflexivity).
  - apply Z.ltb_lt in Hlt. lia.
  - apply Z.ltb_lt in Hlt.
    pose proof (vec_size_range (DirReader.names self)) as Hsz. unfold in_size_t in Hsz.
    pose proof (size_incr_progress _ _ Hlt ltac:(lia)) as Hstep.
    rewrite bind_call. cbv zeta.
    assert (Hnext : forall c,
      exists tr found self',
        DirReader.restart_scan fuel
          (DirReader.set_fileId (size_incr (DirReader.fileId self)) self) c
        = (tr, Return (found, self'))).
    { intros c. apply IH. cbn [DirReader.set_fileId DirReader.names DirReader.fileId]. lia. }
    destruct (has_data _).
    + destruct (size_sub (size_incr readImgs) 1 >=? _).
      * eexists _, _, _. reflexivity.
      * destruct (Hnext (size_incr readImgs)) as (tr & found & self' & ->).
        eexists _, _, _. reflexivity.
    + destruct (Hnext readImgs) as (tr & found & self' & ->).
      eexists _, _, _. reflexivity.
Qed.

Lemma DirReader_read_returns `{Library} (self : DirReader.t) :
  exists tr frame self', DirReader.read self = ((tr, Return frame), self').
Proof.
  unfold DirReader.read, DirReader.read_body, DirReader.fuel_for.
  destruct (read_scan_returns _ self (Nat.le_refl _))
    as (tr & found & self1 & -> & Hloop & Hnames).
  cbn [bind]. destruct found as [img |].
  - eexists _, _, _. reflexivity.
  - destruct (DirReader.loop self1).
    + destruct (restart_scan_returns
                  (Z.to_nat (vec_size (DirReader.names (DirReader.set_fileId 0 self1))
                             - DirReader.fileId (DirReader.set_fileId 0 self1)))
                  (DirReader.set_fileId 0 self1) 0 (Nat.le_refl _))
        as (tr2 & found2 & self2 & Hagain).
      cbv zeta. rewrite Hagain. cbn [bind].
      destruct found2; eexists _, _, _; reflexivity.
    + eexists _, _, _. reflexivity.
Qed.

Lemma VideoCapWrapper_read_returns `{Library} (self : VideoCapWrapper.t) :
  exists tr frame self', VideoCapWrapper.read self = ((tr, Return frame), self').
Proof.
  destruct self as [lp cap n init L].
  unfold VideoCapWrapper.read, VideoCapWrapper.read_body, VideoCapWrapper.grab,
    VideoCapWrapper.seek_start, VideoCapWrapper.set_cap, VideoCapWrapper.set_nextImgId.
  video_simpl.
  destruct (n >=? L).
  - destruct lp; [| eexists _, _, _; reflexivity].
    destruct (cap_set CAP_PROP_POS_FRAMES init cap) as [[|] cap1]; video_simpl;
      [| eexists _, _, _; reflexivity].
    destruct (cap_read cap1) as [[decoded img] cap2]. eexists _, _, _. reflexivity.
  - destruct (cap_read cap) as [[decoded img] cap1]. video_simpl.
    destruct (negb decoded && lp); [| eexists _, _, _; reflexivity].
    destruct (cap_set CAP_PROP_POS_FRAMES init cap1) as [[|] cap2]; video_simpl;
      [| eexists _, _, _; reflexivity].
    destruct (cap_read cap2) as [[decoded' img'] cap3]. eexists _, _, _. reflexivity.
Qed.

(** X2. Whatever the state of a reader, [read()] comes back: it returns a
    frame, or, for a camera only, throws the error "The image can't be
    captured from the camera".  The loops of [DirReader::read] always end,
    and the reader that made the call keeps its kind. *)
Theorem read_returns_or_camera_fails `{Library} (self : ImagesCapture) :
  kind_of (snd (read self)) = kind_of self
  /\ ((exists frame, outcome_of (fst (read self)) = Return frame)
      \/ (kind_of self = CAMERA
          /\ outcome_of (fst (read self))
             = Throw (runtime_error "The image can't be captured from the camera"))).
Proof.
  destruct self as [r | r | r | r]; cbn [read kind_of].
  - destruct (ImreadWrapper.read r) as [m r'] eqn:Hread. cbn [kind_of snd fst].
    split; [reflexivity |]. left.
    unfold ImreadWrapper.read in Hread.
    destruct (ImreadWrapper.loop r); [| destruct (ImreadWrapper.canRead r)];
      inversion Hread; subst; eexists; reflexivity.
  - destruct (DirReader_read_returns r) as (tr & frame & r' & ->).
    cbn [kind_of snd fst outcome_of]. split; [reflexivity |]. left. eexists; reflexivity.
  - destruct (VideoCapWrapper_read_returns r) as (tr & frame & r' & ->).
    cbn [kind_of snd fst outcome_of]. split; [reflexivity |]. left. eexists; reflexivity.
  - unfold CameraCapWrapper.read.
    destruct (CameraCapWrapper.nextImgId r >=? CameraCapWrapper.readLengthLimit r).
    + split; [reflexivity |]. left. eexists; reflexivity.
    + destruct (cap_read (CameraCapWrapper.cap r)) as [[[|] img] cap'];
        (split; [reflexivity |]); [left; eexists; reflexivity | right; split; reflexivity].
Qed.

(** ** What [openImagesCapture] can end with *)

Lemma append_nonempty_l (a b : string) : a <> EmptyString -> (a ++ b)%string <> EmptyString.
Proof. destruct a; [congruence | discriminate]. Qed.

Lemma errorsInfo_of_nonempty (message : string) (rest : list string) :
  errorsInfo_of (message :: rest) <> EmptyString.
Proof.
  rewrite errorsInfo_of_concat. cbn [map String.concat].
  assert (Hline : (message ++ newline)%string <> EmptyString)
    by (destruct message; discriminate).
  destruct (map _ rest); [exact Hline | now apply append_nonempty_l].
Qed.

Lemma resolve_spec_outcome {R : Type} (m1 m2 m3 m4 : M R) :
  ((exists r, outcome_of m1 = Return r) \/ failed (outcome_of m1)) ->
  ((exists r, outcome_of m2 = Return r) \/ failed (outcome_of m2)) ->
  ((exists r, outcome_of m3 = Return r) \/ failed (outcome_of m3)) ->
  ((exists r, outcome_of m4 = Return r) \/ failed (outcome_of m4)) ->
  let run := resolve_spec [probe m1; probe m2; probe m3; probe m4] [] [] in
  (exists reader, outcome_of run = Return reader)
  \/ (exists what, outcome_of run = Throw (runtime_error what) /\ what <> EmptyString).
Proof.
  unfold failed, outcome_of.
  destruct m1 as [tr1 o1], m2 as [tr2 o2], m3 as [tr3 o3], m4 as [tr4 o4].
  cbn [snd].
  intros [[r1 ->] | [[w1 ->] | [w1 ->]]];
    [intros _ _ _; left; eexists; reflexivity | |];
    (intros [[r2 ->] | [[w2 ->] | [w2 ->]]];
     [intros _ _; left; eexists; reflexivity | |]);
    (intros [[r3 ->] | [[w3 ->] | [w3 ->]]];
     [intros _; left; eexists; reflexivity | |]);
    (intros [[r4 ->] | [[w4 ->] | [w4 ->]]];
     [left; eexists; reflexivity | |]);
    right; eexists; (split; [reflexivity |]); apply errorsInfo_of_nonempty.
Qed.

(** X3. For every input and configuration, [openImagesCapture] either
    returns a reader, and then [readLengthLimit] is not 0, or throws a
    [runtime_error] with a non-empty message.  [InvalidInput] and
    [OpenError] never leave it, and it always ends. *)
Theorem openImagesCapture_outcome `{Library} (input : string) (loop : bool)
    (initialImageId readLengthLimit : Z) (cameraResolution : Size) :
  let run := openImagesCapture input loop initialImageId readLengthLimit cameraResolution in
  (exists reader, outcome_of run = Return reader /\ readLengthLimit <> 0)
  \/ (exists what, outcome_of run = Throw (runtime_error what) /\ what <> EmptyString).
Proof.
  destruct (Z.eq_dec readLengthLimit 0) as [-> | Hlimit].
  - right. eexists. split; [reflexivity | discriminate].
  - cbv zeta. rewrite openImagesCapture_unfold by assumption. unfold probes_in_order.
    destruct (resolve_spec_outcome
                (upcast IsImreadWrapper (ImreadWrapper.ctor input loop))
                (upcast IsDirReader
                   (DirReader.ctor input loop initialImageId readLengthLimit))
                (upcast IsVideoCapWrapper
                   (VideoCapWrapper.ctor input loop initialImageId readLengthLimit))
                (upcast IsCameraCapWrapper
                   (CameraCapWrapper.ctor input loop initialImageId readLengthLimit
                      cameraResolution)))
      as [[reader Hreader] | Hthrow].
    + apply (upcast_shape IMAGE), ImreadWrapper_ctor_shape.
    + apply (upcast_shape DIR), DirReader_ctor_shape.
    + apply (upcast_shape VIDEO), VideoCapWrapper_ctor_shape.
    + apply (upcast_shape CAMERA), CameraCapWrapper_ctor_shape.
    + left. exists reader. auto.
    + right. exact Hthrow.
Qed.

(** X4. A path that opens as a file and decodes as an image is always
    resolved to a single-image reader, after the two library calls of its
    constructor and no other: no directory, video or camera is tried, and
    [initialImageId], [readLengthLimit] (when not 0) and the camera
    resolution have no effect on the result. *)
Theorem openImagesCapture_image_first `{Library} (input : string) (loop : bool)
    (initialImageId readLengthLimit : Z) (cameraResolution : Size) :
  readLengthLimit <> 0 ->
  file_good input = true ->
  has_data (imread input) = true ->
  openImagesCapture input loop initialImageId readLengthLimit cameraResolution
  = ([call_ifstream input; call_imread input],
     Return (IsImreadWrapper (ImreadWrapper.mk loop (imread input) true))).
Proof.
  intros Hlimit Hgood Hdata. unfold openImagesCapture, ImreadWrapper.ctor.
  destruct (readLengthLimit =? 0) eqn:Hz; [apply Z.eqb_eq in Hz; contradiction |].
  rewrite Hgood. cbn [negb]. rewrite Hdata. reflexivity.
Qed.

Lemma openImagesCapture_image_first_witness :
  5 <> 0
  /\ @openImagesCapture Sim.demo_library "img.png" true 7 5 Sim.resolution
     = ([call_ifstream "img.png"; call_imread "img.png"],
        Return (@IsImreadWrapper Sim.demo_library (ImreadWrapper.mk true Sim.frameA true))).
Proof.
  split; [lia |].
  apply (@openImagesCapture_image_first Sim.demo_library "img.png" true 7 5 Sim.resolution);
    [lia | reflexivity | reflexivity].
Defined.

(** ** [fps()] *)

(** X5. [fps()] of a single-image, directory or camera reader is strictly
    positive: 1 for the first two; for a camera it is the rate the device
    reports whenever that rate is above 0, that is a positive finite number
    or plus infinity, and 30 in every other case, that is when the device
    reports 0 of either sign, a negative rate or a NaN. *)
Theorem fps_positive_unless_video `{Library} (self : ImagesCapture) :
  kind_of self <> VIDEO ->
  SFltb (double_of_Z 0) (fps self) = true
  /\ match self with
     | IsCameraCapWrapper r =>
         let reported := cap_get CAP_PROP_FPS (CameraCapWrapper.cap r) in
         (SFltb (double_of_Z 0) reported = true -> fps self = reported)
         /\ (SFltb (double_of_Z 0) reported = false -> fps self = double_of_Z 30)
         /\ fps self = match reported with
                       | S754_finite false _ _ | S754_infinity false => reported
                       | _ => double_of_Z 30
                       end
     | _ => fps self = double_of_Z 1
     end.
Proof.
  destruct self as [r | r | r | r]; cbn [kind_of fps]; intros Hkind.
  - split; reflexivity.
  - split; reflexivity.
  - contradiction.
  - unfold CameraCapWrapper.fps. cbv zeta.
    destruct (SFltb (double_of_Z 0) (cap_get CAP_PROP_FPS (CameraCapWrapper.cap r)))
      eqn:Hreported.
    + split; [exact Hreported |]. split; [reflexivity |]. split; [discriminate |].
      destruct (cap_get CAP_PROP_FPS (CameraCapWrapper.cap r)) as [[|] | [|] | | [|] m e];
        try discriminate Hreported; reflexivity.
    + split; [reflexivity |]. split; [discriminate |]. split; [reflexivity |].
      destruct (cap_get CAP_PROP_FPS (CameraCapWrapper.cap r)) as [[|] | [|] | | [|] m e];
        try discriminate Hreported; reflexivity.
Qed.

Lemma fps_positive_unless_video_witness :
  let session := Sim.mkSession [Sim.frameA] 0 false true in
  let rated := Sim.demo_library in
  let unrated := Sim.rated_library (double_of_Z 0) in
  let broken := Sim.rated_library S754_nan in
  let reversed := Sim.rated_library (double_of_Z (-25)) in
  let camera :=
    @IsCameraCapWrapper rated
      (CameraCapWrapper.mk rated true session 0 (double_of_Z 0) SIZE_MAX) in
  @kind_of rated camera <> VIDEO
  /\ @fps rated camera = double_of_Z 25
  /\ @fps unrated
       (@IsCameraCapWrapper unrated
          (CameraCapWrapper.mk unrated true session 0 (double_of_Z 0) SIZE_MAX))
     = double_of_Z 30
  /\ @fps broken
       (@IsCameraCapWrapper broken
          (CameraCapWrapper.mk broken true session 0 (double_of_Z 0) SIZE_MAX))
     = double_of_Z 30
  /\ @fps reversed
       (@IsCameraCapWrapper reversed
          (CameraCapWrapper.mk reversed true session 0 (double_of_Z 0) SIZE_MAX))
     = double_of_Z 30
  /\ SFltb (double_of_Z 0) (@fps rated camera) = true.
Proof.
  cbv zeta. split; [discriminate |].
  split; [exact (proj1 (proj2 (@fps_positive_unless_video Sim.demo_library
                                 (IsCameraCapWrapper _) ltac:(discriminate))) eq_refl) |].
  split; [exact (proj1 (proj2 (proj2 (@fps_positive_unless_video
                                        (Sim.rated_library (double_of_Z 0))
                                        (IsCameraCapWrapper _) ltac:(discriminate))))
                   eq_refl) |].
  split; [exact (proj1 (proj2 (proj2 (@fps_positive_unless_video
                                        (Sim.rated_library S754_nan)
                                        (IsCameraCapWrapper _) ltac:(discriminate))))
                   eq_refl) |].
  split; [exact (proj1 (proj2 (proj2 (@fps_positive_unless_video
                                        (Sim.rated_library (double_of_Z (-25)))
                                        (IsCameraCapWrapper _) ltac:(discriminate))))
                   eq_refl) |].
  apply (@fps_positive_unless_video Sim.demo_library). discriminate.
Defined.

(** ** [DirReader]: how construction ends *)

Lemma skipn_nil_iff_length {A : Type} (l : list A) (i : nat) :
  skipn i l = [] <-> (List.length l <= i)%nat.
Proof.
  split.
  - intros Hnil. pose proof (length_skipn i l) as Hlen. rewrite Hnil in Hlen.
    cbn in Hlen. lia.
  - apply skipn_all2.
Qed.

(** X6. For a directory that can be listed, the constructor of [DirReader]
    throws [OpenError] "The dir ... is empty" when the listing holds nothing
    but "." and ".."; otherwise it succeeds exactly when the sorted listing
    holds more than [initialImageId] decodable images, with the counter at 0
    and the cursor in front of the image of that index, and else throws
    [OpenError] "Can't read the first image from ...". *)
Theorem DirReader_ctor_outcome `{Library} (input : string) (lp : bool) (k L : Z)
    (entries : list string) :
  in_size_t k ->
  opendir_entries input = Some entries ->
  Z.of_nat (List.length entries) <= SIZE_MAX ->
  let images := decodable input (sorted_listing entries) in
  let made := outcome_of (DirReader.ctor input lp k L) in
  match filter DirReader.not_dot_entry entries with
  | [] => made = Throw (OpenError ("The dir " ++ input ++ " is empty")%string)
  | _ :: _ =>
      if k <? Z.of_nat (List.length images) then
        exists r,
          made = Return r
          /\ DirReader.names r = sorted_listing entries
          /\ DirReader.nextImgId r = 0
          /\ remaining r = skipn (Z.to_nat k) images
      else made = Throw (OpenError ("Can't read the first image from " ++ input)%string)
  end.
Proof.
  intros Hk Hopen Hfits.
  pose proof (sorted_listing_length entries) as Hlen.
  unfold DirReader.ctor, outcome_of, sorted_listing in *.
  rewrite bind_call, Hopen. cbn [snd].
  destruct (filter DirReader.not_dot_entry entries) as [| e rest]; [reflexivity |].
  set (names := NameSort.sort (e :: rest)) in *.
  assert (Hnames : Z.of_nat (List.length names) <= SIZE_MAX) by lia.
  unfold DirReader.fuel_for. rewrite (vec_size_fits names Hnames).
  destruct (ctor_scan_spec (Z.to_nat (Z.of_nat (List.length names) - 0)) input names k 0 0
              Hnames ltac:(lia) Hk ltac:(unfold in_size_t in Hk; lia) ltac:(lia)
              (Nat.le_refl _)) as [tr Hspec].
  rewrite Z.sub_0_r in Hspec. cbn [Z.to_nat skipn] in Hspec.
  unfold in_size_t in Hk.
  destruct (skipn (Z.to_nat k) (decodable input names)) as [| img more] eqn:Hskip.
  - assert (Hfew : (List.length (decodable input names) <= Z.to_nat k)%nat)
      by (apply skipn_nil_iff_length; exact Hskip).
    replace (k <? Z.of_nat (List.length (decodable input names))) with false
      by (symmetry; apply Z.ltb_ge; lia).
    rewrite Hspec. reflexivity.
  - assert (Hmany : ~ (List.length (decodable input names) <= Z.to_nat k)%nat)
      by (rewrite <- skipn_nil_iff_length, Hskip; discriminate).
    replace (k <? Z.of_nat (List.length (decodable input names))) with true
      by (symmetry; apply Z.ltb_lt; lia).
    destruct Hspec as [f' [Hf' [-> Hrem]]]. cbn [bind ret throw snd fst app].
    eexists. split; [reflexivity |].
    unfold remaining.
    cbn [DirReader.names DirReader.fileId DirReader.nextImgId DirReader.input].
    auto.
Qed.

Lemma DirReader_ctor_outcome_witness :
  let lib := Sim.demo_library in
  outcome_of (@DirReader.ctor lib "empty" false 0 5)
  = Throw (OpenError "The dir empty is empty")
  /\ outcome_of (@DirReader.ctor lib "photos" false 3 5)
     = Throw (OpenError "Can't read the first image from photos")
  /\ exists r, outcome_of (@DirReader.ctor lib "photos" false 2 5) = Return r
               /\ @remaining lib r = [Sim.frameC].
Proof.
  cbv zeta. split; [| split].
  - apply (@DirReader_ctor_outcome Sim.demo_library "empty" false 0 5 ["."; ".."]%string);
      [unfold in_size_t, SIZE_MAX; lia | reflexivity | unfold SIZE_MAX; simpl; lia].
  - apply (@DirReader_ctor_outcome Sim.demo_library "photos" false 3 5
             [".."; "c.png"; "notes.txt"; "."; "a.png"; "b.png"]%string);
      [unfold in_size_t, SIZE_MAX; lia | reflexivity | unfold SIZE_MAX; simpl; lia].
  - destruct (@DirReader_ctor_outcome Sim.demo_library "photos" false 2 5
                [".."; "c.png"; "notes.txt"; "."; "a.png"; "b.png"]%string)
      as (r & Hmade & _ & _ & Hrem);
      [unfold in_size_t, SIZE_MAX; lia | reflexivity | unfold SIZE_MAX; simpl; lia |].
    exists r. split; [exact Hmade | exact Hrem].
Defined.

(** ** [DirReader]: the frames of a looping reader *)

Lemma concat_repeat_length {A : Type} (pass : list A) (n : nat) :
  pass <> [] -> (n <= List.length (List.concat (repeat pass n)))%nat.
Proof.
  intros Hpass. induction n as [| n IH]; [cbn; lia |].
  cbn [repeat List.concat]. rewrite length_app.
  destruct pass as [| a pass]; [congruence | cbn [List.length]; lia].
Qed.

Lemma firstn_app_enough {A : Type} (n : nat) (l extra : list A) :
  (n <= List.length l)%nat -> firstn n (l ++ extra) = firstn n l.
Proof.
  intros Hn. rewrite firstn_app.
  replace (n - List.length l)%nat with 0%nat by lia.
  cbn [firstn]. apply app_nil_r.
Qed.

Lemma concat_repeat_snoc {A : Type} (pass : list A) (n : nat) :
  List.concat (repeat pass (S n)) = List.concat (repeat pass n) ++ pass.
Proof.
  induction n as [| n IH]; [cbn [repeat List.concat app]; apply app_nil_r |].
  cbn [repeat List.concat] in *. rewrite <- app_assoc. f_equal. exact IH.
Qed.

(** The frames of a looping reader are the pending ones followed by whole
    passes. *)
Lemma cycle_frames_concat (pass pending : list Mat) (n : nat) :
  pass <> [] ->
  cycle_frames pass pending n = firstn n (pending ++ List.concat (repeat pass n)).
Proof.
  intros Hpass. revert pending. induction n as [| n IH]; intros pending; [reflexivity |].
  assert (Hmore : forall l : list Mat,
    firstn n (l ++ List.concat (repeat pass (S n))) = firstn n (l ++ List.concat (repeat pass n))).
  { intros l. rewrite concat_repeat_snoc, app_assoc.
    apply firstn_app_enough. rewrite length_app.
    pose proof (concat_repeat_length pass n Hpass). lia. }
  cbn [cycle_frames]. destruct pending as [| img rest].
  - destruct pass as [| img rest]; [congruence |].
    cbn [hd tl app repeat List.concat firstn]. now rewrite IH.
  - cbn [app firstn]. now rewrite IH, Hmore.
Qed.

Lemma DirReader_reads_loop `{Library} (n : nat) (self : DirReader.t)
    (pass : list Mat) :
  well_formed self -> DirReader.loop self = true ->
  1 <= DirReader.readLengthLimit self ->
  pass_frames self <> [] ->
  pass = firstn (Z.to_nat (DirReader.readLengthLimit self)) (pass_frames self) ->
  map outcome_of (fst (reads DirReader.read n self))
  = map Return (cycle_frames pass (pending self) n).
Proof.
  revert self. induction n as [| n IH]; intros self Hwf Hloop Hone Hsome Hpass;
    [reflexivity |].
  destruct (DirReader_read_loop self Hwf Hloop)
    as (tr & frame & self' & Hread & _ & Hwf' & Hsame & Hcases).
  pose proof Hsame as (Hloop' & _ & _ & HL' & _).
  pose proof (pass_frames_same self self' Hsame) as Hframes.
  specialize (IH self' Hwf' ltac:(congruence) ltac:(lia) ltac:(congruence)
                ltac:(rewrite HL', Hframes; exact Hpass)).
  cbn [reads]. rewrite Hread.
  destruct (reads DirReader.read n self') as [ms self''].
  cbn [fst map outcome_of snd cycle_frames] in *. rewrite IH.
  destruct (pending self) as [| img rest].
  - destruct (pass_frames self) as [| img rest] eqn:Hpf; [congruence |].
    destruct Hcases as (-> & _ & Hcount & Hrem).
    assert (Hfirst : pass = img :: firstn (Z.to_nat (DirReader.readLengthLimit self - 1)) rest).
    { rewrite Hpass.
      replace (Z.to_nat (DirReader.readLengthLimit self))
        with (S (Z.to_nat (DirReader.readLengthLimit self - 1))) by lia.
      reflexivity. }
    assert (Hpending' : pending self' = tl pass).
    { unfold pending. rewrite Hrem, HL', Hcount, Hfirst. reflexivity. }
    assert (Hhd : hd Mat_empty pass = img) by (rewrite Hfirst; reflexivity).
    rewrite Hpending'. cbn [map]. now rewrite Hhd.
  - destruct Hcases as (-> & -> & _). reflexivity.
Qed.

(** X7. A [DirectoryReader] constructed with [loop = true] and a limit of at
    least 1 never returns the empty frame: its [read()] calls return, over
    and over, the frames of one pass, namely the first
    [min(readLengthLimit, N - k)] decodable images of the sorted listing from
    index [k = initialImageId] on. *)
Theorem DirReader_loop_cycle `{Library} (input : string) (k L : Z)
    (entries : list string) (r : DirReader.t) (n : nat) :
  in_size_t k -> in_size_t L -> 1 <= L ->
  opendir_entries input = Some entries ->
  Z.of_nat (List.length entries) <= SIZE_MAX ->
  outcome_of (DirReader.ctor input true k L) = Return r ->
  let images := decodable input (sorted_listing entries) in
  let pass := firstn (Z.to_nat L) (skipn (Z.to_nat k) images) in
  pass <> []
  /\ map outcome_of (fst (reads DirReader.read n r))
     = map Return (firstn n (List.concat (repeat pass n)))
  /\ Forall (fun frame => has_data frame = true) (firstn n (List.concat (repeat pass n))).
Proof.
  intros Hk HL Hone Hopen Hfits Hctor images pass.
  destruct (DirReader_ctor_spec input true k L entries r Hk HL Hopen Hfits Hctor)
    as (Hwf & Hloop & Hnames & Hinput & Hnext & Hinit & Hlimit & Hrem & Hsome).
  fold images in Hrem.
  assert (Hframes : pass_frames r = skipn (Z.to_nat k) images)
    by (unfold pass_frames; now rewrite Hinit, Hinput, Hnames).
  assert (Hpending : pending r = pass)
    by (unfold pending; now rewrite Hlimit, Hnext, Hrem, Z.sub_0_r).
  assert (Hpass : pass <> []).
  { subst pass. rewrite Hrem in Hsome.
    destruct (skipn (Z.to_nat k) images) as [| img rest]; [congruence |].
    replace (Z.to_nat L) with (S (Z.to_nat (L - 1))) by lia. discriminate. }
  split; [exact Hpass |]. split.
  - rewrite (DirReader_reads_loop n r pass Hwf Hloop); try (rewrite Hlimit; assumption).
    + rewrite Hpending, (cycle_frames_concat pass pass n Hpass). f_equal.
      change (pass ++ List.concat (repeat pass n)) with (List.concat (repeat pass (S n))).
      rewrite concat_repeat_snoc.
      apply firstn_app_enough, concat_repeat_length, Hpass.
    + rewrite Hframes. now rewrite <- Hrem.
    + now rewrite Hlimit, Hframes.
  - assert (Hall : Forall (fun frame => has_data frame = true) pass)
      by (subst pass images; apply Forall_firstn_skipn, decodable_has_data).
    assert (Hconcat : forall m x, In x (List.concat (repeat pass m)) -> In x pass).
    { induction m as [| m IHm]; cbn [repeat List.concat]; intros x Hx; [contradiction |].
      apply in_app_or in Hx. destruct Hx; auto. }
    apply Forall_forall. intros frame Hin.
    rewrite Forall_forall in Hall. apply Hall, (Hconcat n).
    rewrite <- (firstn_skipn n (List.concat (repeat pass n))).
    apply in_or_app. now left.
Qed.

Lemma DirReader_loop_cycle_witness :
  let r := DirReader.mk true ["a.png"; "b.png"; "c.png"; "notes.txt"]%string 1 0 1 5
             "photos"%string in
  outcome_of (@DirReader.ctor Sim.demo_library "photos" true 1 5) = Return r
  /\ map outcome_of (fst (reads (@DirReader.read Sim.demo_library) 5 r))
     = [Return Sim.frameB; Return Sim.frameC; Return Sim.frameB; Return Sim.frameC;
        Return Sim.frameB].
Proof.
  cbv zeta. split; [reflexivity |].
  refine (proj1 (proj2
    (@DirReader_loop_cycle Sim.demo_library "photos" 1 5
       [".."; "c.png"; "notes.txt"; "."; "a.png"; "b.png"]%string _ 5%nat
       _ _ _ eq_refl _ eq_refl)));
    unfold in_size_t, SIZE_MAX; simpl; lia.
Defined.

(** ** [DirReader]: the cursor and the files it decodes *)

(** One [read()]: the cursor stays within the listing, and it moves back
    only when a new pass starts. *)
Lemma DirReader_read_cursor `{Library} (self : DirReader.t) :
  well_formed self ->
  let self' := snd (DirReader.read self) in
  0 <= DirReader.fileId self' <= Z.of_nat (List.length (DirReader.names self))
  /\ (DirReader.fileId self' < DirReader.fileId self ->
      DirReader.loop self = true /\ DirReader.nextImgId self' = 1).
Proof.
  destruct self as [lp names f n k L input].
  intros (Hlen & Hf & Hn & Hk & HL).
  cbn [DirReader.names DirReader.fileId DirReader.nextImgId DirReader.initialImageId
       DirReader.readLengthLimit DirReader.input DirReader.loop] in *.
  destruct (read_scan_spec (Z.to_nat (Z.of_nat (List.length names) - f))
              lp names f n k L input Hlen Hf Hn HL (Nat.le_refl _))
    as [tr [f' [Hf' [_ Hspec]]]].
  assert (Hnone : forall fA,
    f <= fA <= Z.of_nat (List.length names) ->
    DirReader.read_scan (Z.to_nat (Z.of_nat (List.length names) - f))
      (DirReader.mk lp names f n k L input)
    = (tr, Return (None, DirReader.mk lp names fA n k L input)) ->
    let self' := snd (DirReader.read (DirReader.mk lp names f n k L input)) in
    0 <= DirReader.fileId self' <= Z.of_nat (List.length names)
    /\ (DirReader.fileId self' < f -> lp = true /\ DirReader.nextImgId self' = 1)).
  { intros fA HfA Hscan.
    unfold DirReader.read, DirReader.read_body, DirReader.fuel_for.
    cbn [DirReader.names DirReader.fileId].
    rewrite (vec_size_fits names Hlen), Hscan. cbn [bind DirReader.loop].
    destruct lp.
    - unfold DirReader.set_fileId.
      cbn [DirReader.names DirReader.fileId DirReader.nextImgId DirReader.initialImageId
           DirReader.readLengthLimit DirReader.input DirReader.loop].
      rewrite (vec_size_fits names Hlen).
      destruct (restart_scan_spec (Z.to_nat (Z.of_nat (List.length names) - 0))
                  true names n k L input 0 0 Hlen ltac:(lia) Hk
                  ltac:(unfold in_size_t in Hk; lia) ltac:(lia) (Nat.le_refl _))
        as [tr2 [f2 [Hf2 [_ Hspec2]]]].
      unfold remaining in Hspec2.
      cbn [DirReader.names DirReader.fileId DirReader.input] in Hspec2.
      rewrite Z.sub_0_r in Hspec2. cbn [Z.to_nat skipn] in Hspec2.
      destruct (skipn (Z.to_nat k) (decodable input names)) as [| img rest].
      + destruct Hspec2 as [-> ->]. cbn [bind ret run_method snd DirReader.fileId].
        split; [lia | intros Hlt; exfalso; lia].
      + destruct Hspec2 as [-> _].
        cbn [bind ret run_method snd DirReader.fileId DirReader.nextImgId]. split; [lia | auto].
    - cbn [ret run_method snd DirReader.fileId]. split; [lia | intros Hlt; exfalso; lia]. }
  unfold remaining in Hspec.
  cbn [DirReader.names DirReader.fileId DirReader.input] in Hspec.
  destruct (n <? L).
  - destruct (decodable input (skipn (Z.to_nat f) names)) as [| img rest].
    + destruct Hspec as [Hscan ->].
      apply (Hnone (Z.of_nat (List.length names)) ltac:(lia) Hscan).
    + destruct Hspec as [Hscan _].
      unfold DirReader.read, DirReader.read_body, DirReader.fuel_for.
      cbn [DirReader.names DirReader.fileId].
      rewrite (vec_size_fits names Hlen), Hscan.
      cbn [bind ret run_method snd DirReader.fileId].
      split; [lia | intros Hlt; exfalso; lia].
  - destruct Hspec as [Hscan ->]. apply (Hnone f ltac:(lia) Hscan).
Qed.

(** X8. The cursor of a [DirReader] never leaves its listing, and within a
    pass it never moves back: after any number of [read()] calls, one more
    call puts the cursor before where it was only if the reader loops and
    that call started a new pass (counter at 1); without looping the cursor
    never decreases. *)
Theorem DirReader_cursor_monotone `{Library} (self : DirReader.t) (n : nat) :
  well_formed self ->
  let s := after_reads DirReader.read n self in
  let s' := snd (DirReader.read s) in
  0 <= DirReader.fileId s' <= Z.of_nat (List.length (DirReader.names self))
  /\ (DirReader.fileId s' < DirReader.fileId s ->
      DirReader.loop self = true /\ DirReader.nextImgId s' = 1)
  /\ (DirReader.loop self = false -> DirReader.fileId self <= DirReader.fileId s).
Proof.
  intros Hwf s s'.
  destruct (DirReader_reads_wf n self Hwf) as [Hs Hsame]. fold s in Hs, Hsame.
  destruct (DirReader_read_cursor s Hs) as [Hrange Hback]. fold s' in Hrange, Hback.
  destruct Hsame as (Hloop & Hnames & _).
  rewrite Hnames in Hrange. rewrite Hloop in Hback.
  split; [exact Hrange |]. split; [exact Hback |].
  intros Hnoloop. subst s.
  apply (after_reads_invariant DirReader.read
           (fun t => well_formed t /\ same_reader self t
                     /\ DirReader.fileId self <= DirReader.fileId t)).
  - intros t (Ht & Hsame_t & Hle).
    destruct (DirReader_read_wf t Ht) as [Ht' Hsame'].
    destruct (DirReader_read_cursor t Ht) as [_ Hback_t].
    split; [exact Ht' |]. split; [eapply same_reader_trans; eassumption |].
    destruct (Z_lt_le_dec (DirReader.fileId (snd (DirReader.read t))) (DirReader.fileId t))
      as [Hlt | Hge]; [| lia].
    destruct (Hback_t Hlt) as [Hloop_t _].
    destruct Hsame_t as (Hl & _). congruence.
  - split; [exact Hwf |]. split; [unfold same_reader; auto | lia].
Qed.

Lemma DirReader_cursor_monotone_witness :
  let lib := Sim.demo_library in
  let r := DirReader.mk true ["a.png"; "b.png"; "c.png"; "notes.txt"]%string 1 0 1 5
             "photos"%string in
  DirReader.fileId (after_reads (@DirReader.read lib) 2 r) = 3
  /\ DirReader.fileId (snd (@DirReader.read lib (after_reads (@DirReader.read lib) 2 r))) = 2
  /\ DirReader.nextImgId (snd (@DirReader.read lib (after_reads (@DirReader.read lib) 2 r)))
     = 1.
Proof.
  cbv zeta. split; [reflexivity |]. split; [reflexivity |].
  refine (proj2 (proj1 (proj2
    (@DirReader_cursor_monotone Sim.demo_library
       (DirReader.mk true ["a.png"; "b.png"; "c.png"; "notes.txt"]%string 1 0 1 5
          "photos"%string) 2%nat _)) _)).
  - unfold well_formed, in_size_t, SIZE_MAX. simpl. lia.
  - apply Z.ltb_lt. reflexivity.
Defined.

Lemma vec_size_le_length {A : Type} (v : list A) :
  vec_size v <= Z.of_nat (List.length v).
Proof.
  unfold vec_size, size_t_wrap. apply Z.mod_le; lia.
Qed.

Lemma vec_at_listed (names : list string) (i : Z) :
  0 <= i < vec_size names -> In (vec_at names i) names.
Proof.
  intros Hi. pose proof (vec_size_le_length names). unfold vec_at.
  apply nth_In. lia.
Qed.

(** The first loop of [read] decodes entries of the listing only. *)
Lemma read_scan_listed `{Library} (fuel : nat) (self : DirReader.t) :
  0 <= DirReader.fileId self ->
  Forall (decodes_listed self) (fst (DirReader.read_scan fuel self)).
Proof.
  revert self. induction fuel as [| fuel IH]; intros self Hf;
    cbn [DirReader.read_scan];
    destruct (DirReader.fileId self <? vec_size (DirReader.names self)) eqn:Hlt;
    cbn [andb]; try (constructor; fail).
  - destruct (DirReader.nextImgId self <? DirReader.readLengthLimit self);
      cbn [fst out_of_fuel ret]; constructor.
  - destruct (DirReader.nextImgId self <? DirReader.readLengthLimit self);
      [| constructor].
    apply Z.ltb_lt in Hlt.
    pose proof (vec_size_range (DirReader.names self)) as Hsz. unfold in_size_t in Hsz.
    rewrite bind_call. cbn [fst]. constructor.
    + exists (vec_at (DirReader.names self) (DirReader.fileId self)).
      split; [apply vec_at_listed; lia | reflexivity].
    + cbv zeta. destruct (has_data _); [constructor |].
      apply (IH (DirReader.set_fileId (size_incr (DirReader.fileId self)) self)).
      cbn [DirReader.set_fileId DirReader.fileId].
      rewrite (size_incr_below _ (vec_size (DirReader.names self))); lia.
Qed.

(** So does the loop of the [if (loop)] block. *)
Lemma restart_scan_listed `{Library} (fuel : nat) (self : DirReader.t) (readImgs : Z) :
  0 <= DirReader.fileId self ->
  Forall (decodes_listed self) (fst (DirReader.restart_scan fuel self readImgs)).
Proof.
  revert self readImgs. induction fuel as [| fuel IH]; intros self readImgs Hf;
    cbn [DirReader.restart_scan];
    destruct (DirReader.fileId self <? vec_size (DirReader.names self)) eqn:Hlt;
    try (constructor; fail).
  apply Z.ltb_lt in Hlt.
  pose proof (vec_size_range (DirReader.names self)) as Hsz. unfold in_size_t in Hsz.
  rewrite bind_call. cbn [fst]. constructor.
  - exists (vec_at (DirReader.names self) (DirReader.fileId self)).
    split; [apply vec_at_listed; lia | reflexivity].
  - assert (Hnext : forall c,
      Forall (decodes_listed self)
        (fst (DirReader.restart_scan fuel
                (DirReader.set_fileId (size_incr (DirReader.fileId self)) self) c))).
    { intros c.
      apply (IH (DirReader.set_fileId (size_incr (DirReader.fileId self)) self)).
      cbn [DirReader.set_fileId DirReader.fileId].
      rewrite (size_incr_below _ (vec_size (DirReader.names self))); lia. }
    cbv zeta. destruct (has_data _); [| apply Hnext].
    destruct (size_sub (size_incr readImgs) 1 >=? _); [constructor | apply Hnext].
Qed.

Lemma DirReader_read_listed `{Library} (self : DirReader.t) :
  0 <= DirReader.fileId self ->
  Forall (decodes_listed self) (trace_of (fst (DirReader.read self))).
Proof.
  intros Hf. unfold DirReader.read, DirReader.read_body, DirReader.fuel_for.
  pose proof (read_scan_listed
                (Z.to_nat (vec_size (DirReader.names self) - DirReader.fileId self))
                self Hf) as Hfirst.
  destruct (read_scan_returns _ self (Nat.le_refl _))
    as (tr & found & self1 & Hscan & Hloop & Hnames & Hinput).
  rewrite Hscan in *. cbn [fst] in Hfirst. cbn [bind].
  destruct found as [img |].
  - cbn [ret run_method fst trace_of]. now rewrite app_nil_r.
  - destruct (DirReader.loop self1).
    + cbv zeta.
      pose proof (restart_scan_listed
                    (Z.to_nat (vec_size (DirReader.names (DirReader.set_fileId 0 self1))
                               - DirReader.fileId (DirReader.set_fileId 0 self1)))
                    (DirReader.set_fileId 0 self1) 0 ltac:(cbn; lia)) as Hsecond.
      destruct (restart_scan_returns
                  (Z.to_nat (vec_size (DirReader.names (DirReader.set_fileId 0 self1))
                             - DirReader.fileId (DirReader.set_fileId 0 self1)))
                  (DirReader.set_fileId 0 self1) 0 (Nat.le_refl _))
        as (tr2 & found2 & self2 & Hagain).
      rewrite Hagain in *. cbn [fst] in Hsecond. cbn [bind].
      assert (Hboth : Forall (decodes_listed self) (tr ++ tr2)).
      { apply Forall_app. split; [exact Hfirst |].
        revert Hsecond. apply Forall_impl. intros c (name & Hin & Hc).
        exists name. cbn [DirReader.set_fileId DirReader.names DirReader.input] in Hin, Hc.
        rewrite Hnames in Hin. rewrite Hinput in Hc. auto. }
      destruct found2; cbn [ret run_method fst trace_of]; now rewrite app_nil_r.
    + cbn [ret run_method fst trace_of]. now rewrite app_nil_r.
Qed.

Lemma reads_Forall {S : Type} (read : S -> M Mat * S) (P : S -> Prop)
    (Q : M Mat -> Prop) :
  (forall self, P self -> Q (fst (read self)) /\ P (snd (read self))) ->
  forall (n : nat) (self : S), P self -> Forall Q (fst (reads read n self)).
Proof.
  intros Hstep n. induction n as [| n IH]; intros self Hself; [constructor |].
  cbn [reads]. destruct (Hstep self Hself) as [Hq Hp].
  destruct (read self) as [m self1]. cbn [fst snd] in Hq, Hp.
  specialize (IH self1 Hp). destruct (reads read n self1) as [ms self2].
  cbn [fst] in *. constructor; assumption.
Qed.

(** X9. A [DirReader] works on the listing taken at construction: every
    library call made by any of its [read()] calls decodes a file
    [input/name] whose [name] is an entry, other than "." and "..", that
    the directory had when the reader was constructed.  It never lists the
    directory again and never decodes any other path. *)
Theorem DirReader_decodes_only_listing `{Library} (input : string) (lp : bool) (k L : Z)
    (entries : list string) (r : DirReader.t) (n : nat) :
  in_size_t k -> in_size_t L ->
  opendir_entries input = Some entries ->
  Z.of_nat (List.length entries) <= SIZE_MAX ->
  outcome_of (DirReader.ctor input lp k L) = Return r ->
  Forall (fun m : M Mat =>
            Forall (fun c : Call =>
                      exists name : string,
                        In name entries
                        /\ DirReader.not_dot_entry name = true
                        /\ c = call_imread (input ++ "/" ++ name)%string)
                   (trace_of m))
         (fst (reads DirReader.read n r)).
Proof.
  intros Hk HL Hopen Hfits Hctor.
  destruct (DirReader_ctor_spec input lp k L entries r Hk HL Hopen Hfits Hctor)
    as (Hwf & _ & Hnames & Hinput & _).
  apply (reads_Forall DirReader.read (fun s => well_formed s /\ same_reader r s)).
  - intros s [Hs Hsame]. split.
    + pose proof Hs as (_ & Hcursor & _).
      pose proof (DirReader_read_listed s ltac:(lia)) as Hlisted.
      revert Hlisted. apply Forall_impl. intros c (name & Hin & Hc).
      destruct Hsame as (_ & Hn & _ & _ & Hi).
      rewrite Hn, Hnames in Hin. rewrite Hi, Hinput in Hc.
      unfold sorted_listing in Hin.
      apply (Permutation_in _ (Permutation_sym (NameSort.Permuted_sort _))) in Hin.
      apply filter_In in Hin. exists name. tauto.
    + destruct (DirReader_read_wf s Hs) as [Hs' Hsame'].
      split; [exact Hs' | eapply same_reader_trans; eassumption].
  - split; [exact Hwf | unfold same_reader; auto].
Qed.

Lemma DirReader_decodes_only_listing_witness :
  let r := DirReader.mk true ["a.png"; "b.png"; "c.png"; "notes.txt"]%string 1 0 1 5
             "photos"%string in
  outcome_of (@DirReader.ctor Sim.demo_library "photos" true 1 5) = Return r
  /\ map trace_of (fst (reads (@DirReader.read Sim.demo_library) 3 r))
     = [[call_imread "photos/b.png"]; [call_imread "photos/c.png"];
        [call_imread "photos/notes.txt"; call_imread "photos/a.png";
         call_imread "photos/b.png"]]
  /\ Forall (fun m : M Mat =>
               Forall (fun c : Call =>
                         exists name : string,
                           In name [".."; "c.png"; "notes.txt"; "."; "a.png"; "b.png"]%string
                           /\ DirReader.not_dot_entry name = true
                           /\ c = call_imread ("photos" ++ "/" ++ name)%string)
                      (trace_of m))
            (fst (reads (@DirReader.read Sim.demo_library) 3 r)).
Proof.
  cbv zeta. split; [reflexivity |]. split; [reflexivity |].
  apply (@DirReader_decodes_only_listing Sim.demo_library "photos" true 1 5
           [".."; "c.png"; "notes.txt"; "."; "a.png"; "b.png"]%string);
    try reflexivity; unfold in_size_t, SIZE_MAX; simpl; lia.
Defined.

(** ** [VideoCapWrapper] without looping *)

(** X10. A [VideoReader] that does not loop passes the decoder through for
    what is left of its limit: each of its next [readLengthLimit - counter]
    [read()] calls makes exactly one [cap.read] and returns the frame that
    call left, empty or not, and counts it; every later call returns the
    empty frame without touching the session.  It never seeks. *)
Theorem VideoCapWrapper_nonloop_reads `{Library} (self : VideoCapWrapper.t) (n : nat) :
  VideoCapWrapper.loop self = false ->
  in_size_t (VideoCapWrapper.nextImgId self) ->
  in_size_t (VideoCapWrapper.readLengthLimit self) ->
  VideoCapWrapper.nextImgId self <= VideoCapWrapper.readLengthLimit self ->
  let budget :=
    Z.to_nat (VideoCapWrapper.readLengthLimit self - VideoCapWrapper.nextImgId self) in
  let decoded := decode_run (Nat.min n budget) (VideoCapWrapper.cap self) in
  reads VideoCapWrapper.read n self
  = (fst decoded ++ repeat (ret Mat_empty) (n - budget),
     VideoCapWrapper.mk _ false (snd decoded)
       (VideoCapWrapper.nextImgId self + Z.of_nat (Nat.min n budget))
       (VideoCapWrapper.initialImageId self) (VideoCapWrapper.readLengthLimit self)).
Proof.
  revert self. induction n as [| n IH]; intros self Hloop Hn HL Hle.
  - destruct self as [lp cap c init L]. cbn in Hloop. subst lp.
    cbn [reads Nat.min decode_run fst snd repeat app Nat.sub VideoCapWrapper.cap
         VideoCapWrapper.nextImgId VideoCapWrapper.initialImageId
         VideoCapWrapper.readLengthLimit Z.of_nat].
    now rewrite Z.add_0_r.
  - destruct self as [lp cap c init L]. cbn in Hloop. subst lp.
    cbn [VideoCapWrapper.cap VideoCapWrapper.nextImgId VideoCapWrapper.initialImageId
         VideoCapWrapper.readLengthLimit] in *.
    unfold in_size_t in Hn, HL.
    destruct (Z_lt_le_dec c L) as [Hlt | Hge].
    + (* below the limit: one decode *)
      destruct (cap_read cap) as [[ok img] cap1] eqn:Hcap.
      assert (Hread : VideoCapWrapper.read (VideoCapWrapper.mk _ false cap c init L)
                      = (([call_cap_read], Return img),
                         VideoCapWrapper.mk _ false cap1 (c + 1) init L)).
      { unfold VideoCapWrapper.read, VideoCapWrapper.read_body, VideoCapWrapper.grab,
          VideoCapWrapper.set_cap, VideoCapWrapper.set_nextImgId.
        video_simpl. rewrite (geb_false_lt _ _ Hlt), Hcap. video_simpl.
        rewrite andb_false_r. video_simpl.
        rewrite (size_incr_below c L) by lia. reflexivity. }
      cbn [reads]. rewrite Hread.
      rewrite (IH (VideoCapWrapper.mk _ false cap1 (c + 1) init L));
        try reflexivity; unfold in_size_t;
        cbn [VideoCapWrapper.cap VideoCapWrapper.nextImgId VideoCapWrapper.initialImageId
             VideoCapWrapper.readLengthLimit]; try lia.
      replace (Z.to_nat (L - c)) with (S (Z.to_nat (L - (c + 1)))) by lia.
      cbn [Nat.min Nat.sub decode_run]. rewrite Hcap.
      destruct (decode_run _ cap1) as [ms cap2]. cbn [fst snd app].
      f_equal. f_equal. lia.
    + (* at the limit: nothing happens *)
      assert (Hread : VideoCapWrapper.read (VideoCapWrapper.mk _ false cap c init L)
                      = (ret Mat_empty, VideoCapWrapper.mk _ false cap c init L)).
      { rewrite VideoCapWrapper_read_at_limit by (cbn; lia). reflexivity. }
      cbn [reads]. rewrite Hread.
      rewrite (IH (VideoCapWrapper.mk _ false cap c init L));
        try reflexivity; unfold in_size_t;
        cbn [VideoCapWrapper.cap VideoCapWrapper.nextImgId VideoCapWrapper.initialImageId
             VideoCapWrapper.readLengthLimit]; try lia.
      replace (Z.to_nat (L - c)) with 0%nat by lia.
      rewrite !Nat.min_0_r, !Nat.sub_0_r. reflexivity.
Qed.

Lemma VideoCapWrapper_nonloop_reads_witness :
  let lib := Sim.demo_library in
  let clip := Sim.mkSession [Sim.frameA; Sim.frameB; Sim.frameC] in
  let r := VideoCapWrapper.mk lib false (clip 2%nat true false) 0 (double_of_Z 2) 3 in
  outcome_of (@VideoCapWrapper.ctor lib "clip.avi" false 2 3) = Return r
  /\ reads (@VideoCapWrapper.read lib) 5 r
     = ([([call_cap_read], Return Sim.frameC);
         ([call_cap_read], Return Mat_empty);
         ([call_cap_read], Return Mat_empty);
         ret Mat_empty; ret Mat_empty],
        VideoCapWrapper.mk lib false (clip 3%nat true false) 3 (double_of_Z 2) 3).
Proof.
  cbv zeta. split; [reflexivity |].
  rewrite (@VideoCapWrapper_nonloop_reads Sim.demo_library
             (VideoCapWrapper.mk Sim.demo_library false
                (Sim.mkSession [Sim.frameA; Sim.frameB; Sim.frameC] 2%nat true false)
                0 (double_of_Z 2) 3) 5%nat eq_refl);
    [reflexivity | | | ]; unfold in_size_t, SIZE_MAX; simpl; lia.
Defined.

(** ** [CameraCapWrapper]: what the counter counts *)

Lemma deliveries_cons (m : M Mat) (ms : list (M Mat)) :
  deliveries (m :: ms) = ((if is_delivery m then 1 else 0) + deliveries ms)%nat.
Proof. unfold deliveries. cbn [filter]. destruct (is_delivery m); reflexivity. Qed.

(** X11. The counter of a [CameraReader] counts the captured frames it has
    handed out and nothing else: after any sequence of [read()] calls it has
    grown by the number of calls that returned a captured frame; a failed
    capture, which throws, and the empty frame returned at the limit leave
    it as it is.  A camera that starts within its limit therefore never
    hands out more frames than the limit leaves. *)
Theorem CameraCapWrapper_counter_counts `{Library} (self : CameraCapWrapper.t) (n : nat) :
  in_size_t (CameraCapWrapper.nextImgId self) ->
  in_size_t (CameraCapWrapper.readLengthLimit self) ->
  let results := fst (reads CameraCapWrapper.read n self) in
  CameraCapWrapper.nextImgId (after_reads CameraCapWrapper.read n self)
  = CameraCapWrapper.nextImgId self + Z.of_nat (deliveries results)
  /\ (CameraCapWrapper.nextImgId self <= CameraCapWrapper.readLengthLimit self ->
      Z.of_nat (deliveries results)
      <= CameraCapWrapper.readLengthLimit self - CameraCapWrapper.nextImgId self).
Proof.
  intros Hn HL results.
  assert (Hcount : CameraCapWrapper.nextImgId (after_reads CameraCapWrapper.read n self)
                   = CameraCapWrapper.nextImgId self + Z.of_nat (deliveries results)).
  { subst results. revert self Hn HL. induction n as [| n IH]; intros self Hn HL.
    - cbn. lia.
    - rewrite after_reads_S. cbn [reads].
      destruct (CameraCapWrapper_read_step self Hn HL) as (_ & Hlimit & _).
      assert (Hstep : CameraCapWrapper.nextImgId (snd (CameraCapWrapper.read self))
                      = CameraCapWrapper.nextImgId self
                        + Z.of_nat (if is_delivery (fst (CameraCapWrapper.read self))
                                    then 1 else 0)
                      /\ in_size_t (CameraCapWrapper.nextImgId
                                      (snd (CameraCapWrapper.read self)))).
      { clear IH Hlimit. destruct self as [lp cap c init L].
        unfold CameraCapWrapper.read, CameraCapWrapper.set_cap,
          CameraCapWrapper.set_nextImgId, in_size_t in *.
        cbn [CameraCapWrapper.loop CameraCapWrapper.cap CameraCapWrapper.nextImgId
             CameraCapWrapper.initialImageId CameraCapWrapper.readLengthLimit] in *.
        destruct (c >=? L) eqn:Hge.
        - cbn [fst snd ret is_delivery CameraCapWrapper.nextImgId]. lia.
        - rewrite Z.geb_leb in Hge. apply Z.leb_gt in Hge.
          destruct (cap_read cap) as [[[|] img] cap']; cbn [negb fst snd];
            cbn [CameraCapWrapper.nextImgId bind call throw ret is_delivery app].
          + rewrite (size_incr_below c L) by lia. lia.
          + lia. }
      destruct Hstep as [Hstep Hrange].
      specialize (IH (snd (CameraCapWrapper.read self)) Hrange
                    ltac:(rewrite Hlimit; exact HL)).
      rewrite IH, Hstep.
      destruct (CameraCapWrapper.read self) as [m self1]. cbn [fst snd].
      destruct (reads CameraCapWrapper.read n self1) as [ms self2]. cbn [fst].
      rewrite deliveries_cons. destruct (is_delivery m); lia. }
  split; [exact Hcount |]. intros Hle.
  destruct (CameraCapWrapper_reads_counter n self Hn HL) as (_ & _ & _ & Hbound).
  specialize (Hbound Hle). cbv zeta in Hbound. lia.
Qed.

Lemma CameraCapWrapper_counter_counts_witness :
  let lib := Sim.demo_library in
  let r := CameraCapWrapper.mk lib false (Sim.mkSession [Sim.frameB] 0 false false) 0
             (double_of_Z 0) 5 in
  outcome_of (@CameraCapWrapper.ctor lib "1" false 0 5 Sim.resolution) = Return r
  /\ map outcome_of (fst (reads (@CameraCapWrapper.read lib) 3 r))
     = [Return Sim.frameB;
        Throw (runtime_error "The image can't be captured from the camera");
        Throw (runtime_error "The image can't be captured from the camera")]
  /\ CameraCapWrapper.nextImgId (after_reads (@CameraCapWrapper.read lib) 3 r) = 0 + 1.
Proof.
  cbv zeta. split; [reflexivity |]. split; [reflexivity |].
  refine (proj1 (@CameraCapWrapper_counter_counts Sim.demo_library
                   (CameraCapWrapper.mk Sim.demo_library false
                      (Sim.mkSession [Sim.frameB] 0 false false) 0 (double_of_Z 0) 5)
                   3%nat _ _));
    unfold in_size_t, SIZE_MAX; simpl; lia.
Defined.

(** ** When a camera device is opened *)

Lemma opens_camera_app (tr1 tr2 : list Call) :
  opens_camera (tr1 ++ tr2) = opens_camera tr1 || opens_camera tr2.
Proof. apply existsb_app. Qed.

Lemma ctor_scan_no_camera `{Library} (fuel : nat) (input : string) (names : list string)
    (initialImageId fileId readImgs : Z) :
  opens_camera
    (trace_of (DirReader.ctor_scan fuel input names initialImageId fileId readImgs))
  = false.
Proof.
  revert fileId readImgs. induction fuel as [| fuel IH]; intros fileId readImgs;
    cbn [DirReader.ctor_scan]; destruct (fileId <? vec_size names); try reflexivity.
  rewrite bind_call. unfold trace_of in *. cbn [fst opens_camera existsb is_camera_open orb].
  cbv zeta. destruct (has_data _); [| apply IH].
  destruct (size_sub (size_incr readImgs) 1 >=? initialImageId);
    [reflexivity | apply IH].
Qed.

Lemma ImreadWrapper_ctor_no_camera `{Library} (input : string) (loop : bool) :
  opens_camera (trace_of (ImreadWrapper.ctor input loop)) = false.
Proof.
  unfold ImreadWrapper.ctor. destruct (file_good input); [| reflexivity].
  cbn [negb]. destruct (has_data (imread input)); reflexivity.
Qed.

Lemma DirReader_ctor_no_camera `{Library} (input : string) (loop : bool)
    (initialImageId readLengthLimit : Z) :
  opens_camera (trace_of (DirReader.ctor input loop initialImageId readLengthLimit))
  = false.
Proof.
  unfold DirReader.ctor. rewrite bind_call. unfold trace_of. cbn [fst].
  destruct (opendir_entries input) as [entries |]; [| reflexivity].
  destruct (filter DirReader.not_dot_entry entries) as [| e rest]; [reflexivity |].
  pose proof (ctor_scan_no_camera
                (DirReader.fuel_for (NameSort.sort (e :: rest)) 0) input
                (NameSort.sort (e :: rest)) initialImageId 0 0) as Hscan.
  unfold trace_of in Hscan.
  destruct (DirReader.ctor_scan _ _ _ _ _ _) as [tr [[fileId |] | x |]];
    cbn [fst] in Hscan; cbn [bind ret throw fst opens_camera existsb is_camera_open orb];
    fold (opens_camera tr); rewrite ?app_nil_r; try fold (opens_camera (tr ++ []));
    rewrite ?app_nil_r; exact Hscan.
Qed.

Lemma VideoCapWrapper_ctor_no_camera `{Library} (input : string) (loop : bool)
    (initialImageId readLengthLimit : Z) :
  opens_camera (trace_of (VideoCapWrapper.ctor input loop initialImageId readLengthLimit))
  = false.
Proof.
  unfold VideoCapWrapper.ctor. rewrite bind_call.
  destruct (cap_open input VideoCapture_new) as [[|] cap]; [| reflexivity].
  rewrite bind_call. destruct (cap_set _ _ cap) as [[|] cap']; reflexivity.
Qed.

Lemma CameraCapWrapper_ctor_camera `{Library} (input : string) (loop : bool)
    (initialImageId readLengthLimit : Z) (cameraResolution : Size) :
  opens_camera (trace_of (CameraCapWrapper.ctor input loop initialImageId readLengthLimit
                            cameraResolution)) = true ->
  exists index : Z,
    stoi input = stoi_int index
    /\ In (call_cap_open_index index)
          (trace_of (CameraCapWrapper.ctor input loop initialImageId readLengthLimit
                       cameraResolution)).
Proof.
  unfold CameraCapWrapper.ctor. rewrite bind_call.
  destruct (stoi input) as [index | |]; [| discriminate | discriminate].
  intros _. exists index. split; [reflexivity |].
  rewrite bind_call. right. left. reflexivity.
Qed.

Lemma resolve_spec_camera {R : Type} (m1 m2 m3 m4 : M R) :
  ((exists r, outcome_of m1 = Return r) \/ failed (outcome_of m1)) ->
  ((exists r, outcome_of m2 = Return r) \/ failed (outcome_of m2)) ->
  ((exists r, outcome_of m3 = Return r) \/ failed (outcome_of m3)) ->
  opens_camera (trace_of m1) = false ->
  opens_camera (trace_of m2) = false ->
  opens_camera (trace_of m3) = false ->
  opens_camera (trace_of (resolve_spec [probe m1; probe m2; probe m3; probe m4] [] []))
  = true ->
  failed (outcome_of m1) /\ failed (outcome_of m2) /\ failed (outcome_of m3)
  /\ opens_camera (trace_of m4) = true
  /\ incl (trace_of m4)
          (trace_of (resolve_spec [probe m1; probe m2; probe m3; probe m4] [] [])).
Proof.
  unfold failed, outcome_of, trace_of.
  destruct m1 as [tr1 o1], m2 as [tr2 o2], m3 as [tr3 o3], m4 as [tr4 o4].
  cbn [fst snd]. intros S1 S2 S3 C1 C2 C3.
  assert (Hin : incl tr4 (tr1 ++ tr2 ++ tr3 ++ tr4))
    by (intros c Hc; apply in_or_app; right; apply in_or_app; right;
        apply in_or_app; right; exact Hc).
  destruct S1 as [[r1 ->] | F1].
  { cbn [resolve_spec probe bind ret throw fst snd]. rewrite app_nil_r, C1. discriminate. }
  destruct S2 as [[r2 ->] | F2].
  { destruct F1 as [[w1 ->] | [w1 ->]]; cbn [resolve_spec probe bind ret throw fst snd];
      rewrite app_nil_r, opens_camera_app, C1, C2; discriminate. }
  destruct S3 as [[r3 ->] | F3].
  { destruct F1 as [[w1 ->] | [w1 ->]], F2 as [[w2 ->] | [w2 ->]]; cbn [resolve_spec probe bind ret throw fst snd];
      rewrite app_nil_r, !opens_camera_app, C1, C2, C3; discriminate. }
  intros Hopen. split; [exact F1 |]. split; [exact F2 |]. split; [exact F3 |].
  destruct F1 as [[w1 ->] | [w1 ->]], F2 as [[w2 ->] | [w2 ->]], F3 as [[w3 ->] | [w3 ->]];
    destruct o4 as [r4 | [w4 | w4 | w4] |]; cbn [resolve_spec probe bind ret throw fst snd] in Hopen |- *;
    rewrite ?app_nil_r in *; rewrite !opens_camera_app, C1, C2, C3 in Hopen;
    cbn [orb] in Hopen; (split; [exact Hopen | exact Hin]).
Qed.

Lemma upcast_failed_inv {A B : Type} (f : A -> B) (m : M A) :
  failed (outcome_of (upcast f m)) -> failed (outcome_of m).
Proof.
  unfold failed. rewrite upcast_outcome.
  destruct (outcome_of m) as [a | e |];
    intros [[w Hw] | [w Hw]]; inversion Hw; subst; eauto.
Qed.

Lemma shape_outcome {R : Type} (k : Kind) (m : M R) :
  probe_shape k m -> (exists r, outcome_of m = Return r) \/ failed (outcome_of m).
Proof. intros [_ Hshape]. exact Hshape. Qed.

(** X12. [openImagesCapture] opens a camera device only as a last resort:
    if its trace holds a [cap.open(int)], then [readLengthLimit] is not 0,
    the image, directory and video constructors have all failed on the
    input, the input parses as the integer that was opened, and that is the
    device of the call. *)
Theorem openImagesCapture_camera_last `{Library} (input : string) (loop : bool)
    (initialImageId readLengthLimit : Z) (cameraResolution : Size) :
  let run := openImagesCapture input loop initialImageId readLengthLimit cameraResolution in
  opens_camera (trace_of run) = true ->
  readLengthLimit <> 0
  /\ failed (outcome_of (ImreadWrapper.ctor input loop))
  /\ failed (outcome_of (DirReader.ctor input loop initialImageId readLengthLimit))
  /\ failed (outcome_of (VideoCapWrapper.ctor input loop initialImageId readLengthLimit))
  /\ exists index : Z,
       stoi input = stoi_int index /\ In (call_cap_open_index index) (trace_of run).
Proof.
  cbv zeta. destruct (Z.eq_dec readLengthLimit 0) as [-> | Hlimit]; [discriminate |].
  rewrite openImagesCapture_unfold by assumption. unfold probes_in_order.
  intros Hopen.
  apply resolve_spec_camera in Hopen.
  - destruct Hopen as (F1 & F2 & F3 & Hcamera & Hincl).
    rewrite upcast_trace in Hcamera.
    destruct (CameraCapWrapper_ctor_camera _ _ _ _ _ Hcamera) as (index & Hstoi & Hin).
    split; [exact Hlimit |].
    split; [exact (upcast_failed_inv _ _ F1) |].
    split; [exact (upcast_failed_inv _ _ F2) |].
    split; [exact (upcast_failed_inv _ _ F3) |].
    exists index. split; [exact Hstoi |].
    apply Hincl. rewrite upcast_trace. exact Hin.
  - apply (shape_outcome IMAGE), upcast_shape, ImreadWrapper_ctor_shape.
  - apply (shape_outcome DIR), upcast_shape, DirReader_ctor_shape.
  - apply (shape_outcome VIDEO), upcast_shape, VideoCapWrapper_ctor_shape.
  - rewrite upcast_trace. apply ImreadWrapper_ctor_no_camera.
  - rewrite upcast_trace. apply DirReader_ctor_no_camera.
  - rewrite upcast_trace. apply VideoCapWrapper_ctor_no_camera.
Qed.

Lemma openImagesCapture_camera_last_witness :
  let run := @openImagesCapture Sim.demo_library "0" true 0 5 Sim.resolution in
  opens_camera (trace_of run) = true
  /\ @stoi Sim.demo_library "0" = stoi_int 0
  /\ failed (outcome_of (@VideoCapWrapper.ctor Sim.demo_library "0" true 0 5)).
Proof.
  cbv zeta. split; [reflexivity |]. split; [reflexivity |].
  exact (proj1 (proj2 (proj2 (proj2
    (@openImagesCapture_camera_last Sim.demo_library "0" true 0 5 Sim.resolution
       eq_refl))))).
Defined.
